(** * bg-tourney: bracket progression and score-report intake

    A shallow embedding of the parts of the repository that carry the
    tournament logic:

    - [src/lib/score-parser.ts]: [parseScoreText] and [validateScore];
    - the bracket library: [generateRound1Matches],
      [generateNextRoundMatches], [getLosersFromRound],
      [assignTableNumbers], [isRoundComplete], [isBracketComplete],
      [getBracketWinner] and their helpers;
    - the director dashboard ([loadData], [canAdvanceRound],
      [handleAdvanceRound]) over the store it reads and writes;
    - the SMS webhook ([POST]): target-match selection, winner resolution,
      confidence score, the three store writes of the auto-approval, and
      the route around them (signature check, [catch]).

    JavaScript strings are modelled as [string], a character standing for a
    UTF-16 code unit below 256.  Numbers that the code only uses as
    integers are [Z] (scores, match length) or [nat] (round and match
    numbers, array lengths). *)

From Stdlib Require Import ZArith Ascii String List Lia Bool Arith Sorted.
From stdpp Require Import base tactics option list strings pretty gmap.

Local Open Scope string_scope.
Local Open Scope list_scope.
Local Open Scope Z_scope.

(** ** JavaScript primitives used by the modelled code *)

Module Js.

Definition code (c : ascii) : nat := nat_of_ascii c.

Definition between (lo hi : nat) (c : ascii) : bool :=
  ((lo <=? code c) && (code c <=? hi))%nat.

(** [\d], [\w] and [\s] of a regular expression without the [u] flag. *)
Definition isDigit (c : ascii) : bool := between 48 57 c.

Definition isWord (c : ascii) : bool :=
  between 97 122 c || between 65 90 c || between 48 57 c || (code c =? 95)%nat.

Definition isSpace (c : ascii) : bool :=
  between 9 13 c || (code c =? 32)%nat || (code c =? 160)%nat.

(** [String.prototype.toLowerCase] on code units below 256: the ASCII
    capitals and the Latin-1 capitals (all of 192..222 but the
    multiplication sign 215) move up by 32. *)
Definition isUpper (c : ascii) : bool :=
  between 65 90 c || (between 192 222 c && negb (code c =? 215)%nat).

Definition lowerChar (c : ascii) : ascii :=
  if isUpper c then ascii_of_nat (code c + 32) else c.

Fixpoint toLowerCase (s : string) : string :=
  match s with
  | EmptyString => EmptyString
  | String c s' => String (lowerChar c) (toLowerCase s')
  end.

Fixpoint startsWith (s p : string) : bool :=
  match p, s with
  | EmptyString, _ => true
  | String a p', String b s' => Ascii.eqb a b && startsWith s' p'
  | String _ _, EmptyString => false
  end.

(** [s.includes(sub)]: [sub] occurs in [s] at some position. *)
Fixpoint includes (s sub : string) : bool :=
  startsWith s sub ||
  match s with
  | EmptyString => false
  | String _ s' => includes s' sub
  end.

(** Truthiness of a string: only the empty string is falsy. *)
Definition truthy (s : string) : bool :=
  match s with EmptyString => false | String _ _ => true end.

(** Truthiness of [string | null]. *)
Definition truthyOpt (o : option string) : bool :=
  match o with Some s => truthy s | None => false end.

(** [x || null] for a string (or absent) [x]. *)
Definition orNull (o : option string) : option string :=
  if truthyOpt o then o else None.

(** [parseInt] on a run of decimal digits (the only arguments the parser
    gives it are captures of [(\d+)]); the value is kept exact. *)
Definition digitValue (c : ascii) : Z := Z.of_nat (code c) - 48.

Fixpoint parseIntFrom (acc : Z) (s : string) : Z :=
  match s with
  | EmptyString => acc
  | String c s' => parseIntFrom (10 * acc + digitValue c) s'
  end.

Definition parseInt (s : string) : Z := parseIntFrom 0 s.

(** Every character of [s] is in the class [p]; a non-empty run of [p]
    (these two only serve to state properties of the matcher). *)
Fixpoint allIn (p : ascii -> bool) (s : string) : bool :=
  match s with
  | EmptyString => true
  | String c s' => p c && allIn p s'
  end.

Definition runOf (p : ascii -> bool) (s : string) : bool :=
  truthy s && allIn p s.

End Js.

(** ** A backtracking matcher for the regular expressions of the parser

    The three expressions of [parseScoreText] use character classes, greedy
    [+] and [*] over a class, literals, alternation, concatenation and
    capture groups that are not nested.  [run] follows the backtracking
    order of the JavaScript matcher: a quantifier first takes as many
    characters as it can and gives them back one by one, an alternation
    tries its branches from left to right; [exec] tries every start
    position from left to right. *)

Module Regex.

Inductive regex : Type :=
| Class (p : ascii -> bool)
| Plus (p : ascii -> bool)
| Star (p : ascii -> bool)
| Lit (ignoreCase : bool) (l : string)
| Alt (r1 r2 : regex)
| Seq (r1 r2 : regex)
| Group (r : regex).

Definition Captures := list string.

Section Greedy.
Context {A : Type}.

(** Longest run of [p] first, then shorter ones. *)
Fixpoint greedy (p : ascii -> bool) (s : string) (k : string -> option A)
  : option A :=
  match s with
  | String c s' =>
      if p c then
        match greedy p s' k with
        | Some r => Some r
        | None => k s
        end
      else k s
  | EmptyString => k s
  end.
End Greedy.

Definition sameChar (ignoreCase : bool) (a b : ascii) : bool :=
  if ignoreCase then Ascii.eqb (Js.lowerChar a) (Js.lowerChar b)
  else Ascii.eqb a b.

(** The rest of [s] after the literal [l], when [s] starts with it. *)
Fixpoint strip (ignoreCase : bool) (l s : string) : option string :=
  match l, s with
  | EmptyString, _ => Some s
  | String a l', String b s' =>
      if sameChar ignoreCase a b then strip ignoreCase l' s' else None
  | String _ _, EmptyString => None
  end.

(** What was consumed between [s] and its suffix [rest]. *)
Definition taken (s rest : string) : string :=
  substring 0 (String.length s - String.length rest) s.

Fixpoint run (r : regex) (s : string) (caps : Captures)
    (k : string -> Captures -> option Captures) : option Captures :=
  match r with
  | Class p =>
      match s with
      | String c s' => if p c then k s' caps else None
      | EmptyString => None
      end
  | Plus p =>
      match s with
      | String c s' => if p c then greedy p s' (fun rest => k rest caps) else None
      | EmptyString => None
      end
  | Star p => greedy p s (fun rest => k rest caps)
  | Lit ic l =>
      match strip ic l s with
      | Some rest => k rest caps
      | None => None
      end
  | Alt r1 r2 =>
      match run r1 s caps k with
      | Some c => Some c
      | None => run r2 s caps k
      end
  | Seq r1 r2 => run r1 s caps (fun rest caps' => run r2 rest caps' k)
  | Group r1 => run r1 s caps (fun rest caps' => k rest (caps' ++ [taken s rest])%list)
  end.

Definition matchAt (r : regex) (s : string) : option Captures :=
  run r s [] (fun _ caps => Some caps).

(** [text.match(r)] for an expression without the [g] flag: the groups of
    the leftmost match, or [None] for [null]. *)
Fixpoint exec (r : regex) (s : string) : option Captures :=
  match matchAt r s with
  | Some caps => Some caps
  | None =>
      match s with
      | String _ s' => exec r s'
      | EmptyString => None
      end
  end.

(** Group [i] of a match result, counted from 1 as in [match[i]]. *)
Definition group (i : nat) (caps : Captures) : string :=
  nth (i - 1) caps EmptyString.

End Regex.

(** ** [src/lib/score-parser.ts] *)

Module ScoreParser.
Import Regex.

Inductive Confidence : Type := high | medium | low.

Record ParsedScore : Type := mkParsed {
  player1Name : option string;
  player2Name : option string;
  player1Score : option Z;
  player2Score : option Z;
  winnerName : option string;
  confidence : Confidence;
  error : option string
}.

Local Infix ">>" := Seq (at level 60, right associativity).

(** [/(\w+)\s+(\d+)\s+(\w+)\s+(\d+)/i] *)
Definition pattern1 : regex :=
  Group (Plus Js.isWord) >> Plus Js.isSpace >> Group (Plus Js.isDigit) >>
  Plus Js.isSpace >> Group (Plus Js.isWord) >> Plus Js.isSpace >>
  Group (Plus Js.isDigit).

(** [/(\w+)\s+(?:beat|def|defeated)\s+(\w+)\s+(\d+)-(\d+)/i] *)
Definition pattern2 : regex :=
  Group (Plus Js.isWord) >> Plus Js.isSpace >>
  Alt (Lit true "beat") (Alt (Lit true "def") (Lit true "defeated")) >>
  Plus Js.isSpace >> Group (Plus Js.isWord) >> Plus Js.isSpace >>
  Group (Plus Js.isDigit) >> Lit true "-" >> Group (Plus Js.isDigit).

(** [/(\d+)\s*[-:]\s*(\d+)/] *)
Definition isDashOrColon (c : ascii) : bool :=
  Ascii.eqb c "-" || Ascii.eqb c ":".

Definition pattern3 : regex :=
  Group (Plus Js.isDigit) >> Star Js.isSpace >> Class isDashOrColon >>
  Star Js.isSpace >> Group (Plus Js.isDigit).

Definition couldNotParse : ParsedScore :=
  {| player1Name := None; player2Name := None;
     player1Score := None; player2Score := None;
     winnerName := None; confidence := low;
     error := Some "Could not parse score from text" |}.

Definition parseScoreText (text : string) : ParsedScore :=
  match exec pattern1 text with
  | Some match1 =>
      let name1 := group 1 match1 in
      let name2 := group 3 match1 in
      let s1 := Js.parseInt (group 2 match1) in
      let s2 := Js.parseInt (group 4 match1) in
      {| player1Name := Some name1; player2Name := Some name2;
         player1Score := Some s1; player2Score := Some s2;
         winnerName := Some (if s1 >? s2 then name1 else name2);
         confidence := high; error := None |}
  | None =>
      match exec pattern2 text with
      | Some match2 =>
          let winner := group 1 match2 in
          let loser := group 2 match2 in
          {| player1Name := Some winner; player2Name := Some loser;
             player1Score := Some (Js.parseInt (group 3 match2));
             player2Score := Some (Js.parseInt (group 4 match2));
             winnerName := Some winner;
             confidence := high; error := None |}
      | None =>
          match exec pattern3 text with
          | Some match3 =>
              {| player1Name := None; player2Name := None;
                 player1Score := Some (Js.parseInt (group 1 match3));
                 player2Score := Some (Js.parseInt (group 2 match3));
                 winnerName := None;
                 confidence := medium; error := None |}
          | None => couldNotParse
          end
      end
  end.

(** The result of [validateScore]: [{ valid, error? }]. *)
Record Validation : Type := mkValidation {
  valid : bool;
  reason : option string
}.

Definition invalid (msg : string) : Validation :=
  {| valid := false; reason := Some msg |}.

Definition validateScore (parsed : ParsedScore) (matchLength : Z) : Validation :=
  match player1Score parsed, player2Score parsed with
  | Some p1, Some p2 =>
      if negb (p1 =? matchLength) && negb (p2 =? matchLength) then
        invalid ("One player must reach " +:+ pretty matchLength +:+ " points")
      else if p1 =? p2 then invalid "Scores cannot be tied"
      else if (p1 <? 0) || (p2 <? 0) then invalid "Scores must be positive"
      else if Z.min p1 p2 >=? matchLength then
        invalid "Losing score must be less than match length"
      else {| valid := true; reason := None |}
  | _, _ => invalid "Could not determine both scores"
  end.

End ScoreParser.

(** ** [src/lib/database.types.ts]

    Timestamps are instants ([nat]); the store hands them out as ISO
    strings, which the modelled code only copies.  The [id] of a row is the
    key under which the store keeps it, so the row records below have no
    [id] field of their own; [created_at], [started_at] and [updated_at]
    are set by the store and never read by the modelled code, except
    [created_at] of a match, which the intake query result carries. *)

Definition Timestamp : Type := nat.

Inductive MatchStatus : Type :=
  pending | in_progress | completed | bye.

Inductive BracketType : Type :=
  main | consolation | last_chance.

Inductive BracketStatus : Type :=
  bracket_pending | bracket_in_progress | bracket_completed.

Inductive ScoreReportStatus : Type :=
  report_pending | approved | rejected | needs_clarification.

Definition MatchStatus_eqb (a b : MatchStatus) : bool :=
  match a, b with
  | pending, pending | in_progress, in_progress
  | completed, completed | bye, bye => true
  | _, _ => false
  end.

Module Player.
Record t : Type := mk {
  id : string;
  name : string;
  email : option string;
  phone : option string
}.
End Player.

Module Match.
Record t : Type := mk {
  bracket_id : string;
  round_number : nat;
  match_number : nat;
  player1_id : option string;
  player2_id : option string;
  winner_id : option string;
  player1_score : Z;
  player2_score : Z;
  table_number : option nat;
  status : MatchStatus;
  completed_at : option Timestamp
}.
End Match.

Module ScoreReport.
Record t : Type := mk {
  match_id : string;
  reported_by_phone : string;
  reported_by_player_id : option string;
  raw_text : string;
  parsed_winner_id : option string;
  parsed_player1_score : option Z;
  parsed_player2_score : option Z;
  confidence_score : option Z;
  status : ScoreReportStatus;
  approved_at : option Timestamp
}.
End ScoreReport.

(** [a === b] on [string | null]. *)
(** The columns of a [brackets] row and of a [divisions] row that the
    dashboard uses. *)
Module Bracket.
Record t : Type := mk {
  id : string;
  division_id : string;
  bracket_type : BracketType;
  current_round : nat;
  status : BracketStatus
}.
End Bracket.

Module Division.
Record t : Type := mk {
  id : string;
  match_length : Z
}.
End Division.

Definition optStringEqb (a b : option string) : bool :=
  match a, b with
  | Some x, Some y => String.eqb x y
  | None, None => true
  | _, _ => false
  end.

(** ** The bracket library ([generateRound1Matches] and its helpers) *)

Module BracketLib.

Local Open Scope nat_scope.
Local Open Scope list_scope.

Module BracketMatch.
Record t : Type := mk {
  round_number : nat;
  match_number : nat;
  player1_id : option string;
  player2_id : option string;
  status : MatchStatus;
  winner_id : option string
}.
End BracketMatch.

(** [Math.ceil(Math.log2(playerCount))], guarded by [playerCount <= 1],
    for a player count that is the length of an array (see
    [nextPowerOf2] below for the logarithm; from 2^49 + 1 on the
    logarithm of the source rounds to an integer and its ceiling is one
    less than the exact one taken here). *)
Definition calculateRounds (playerCount : nat) : nat :=
  if playerCount <=? 1 then 0 else Nat.log2_up playerCount.

(** [Math.pow(2, Math.ceil(Math.log2(n)))] on an array length [n].
    [Math.log2(0)] is [-Infinity] and [Math.pow(2, -Infinity)] is [0].
    For [n >= 1] the model takes the ceiling of the real logarithm,
    [Nat.log2_up n]: [Math.log2] is taken to be exact on powers of two and
    to stay strictly between the neighbouring integers elsewhere, which
    holds for every array length (below 2^32) with a double-precision
    logarithm. *)
Definition nextPowerOf2 (n : nat) : nat :=
  match n with
  | 0 => 0
  | S _ => 2 ^ Nat.log2_up n
  end.

Section Shuffle.
Context {T : Type}.

(** [[a[i], a[j]] = [a[j], a[i]]] *)
Definition swap (a : list T) (i j : nat) : list T :=
  match a !! i, a !! j with
  | Some x, Some y => <[j := x]> (<[i := y]> a)
  | _, _ => a
  end.

(** The Fisher-Yates loop, [i] running down to 1.  [random i] stands for
    the draw [Math.random()] makes in the iteration of index [i],
    already scaled to a natural number; [Math.floor(random * (i + 1))]
    lies in [0 .. i]. *)
Fixpoint shuffleFrom (random : nat -> nat) (i : nat) (a : list T) : list T :=
  match i with
  | 0 => a
  | S i' => shuffleFrom random i' (swap a i (random i mod (i + 1)))
  end.

Definition shuffle (random : nat -> nat) (array : list T) : list T :=
  shuffleFrom random (length array - 1) array.
End Shuffle.

(** The first loop of [generateRound1Matches]: one bye match per player. *)
Fixpoint byeMatches (matchNumber : nat) (byePlayers : list Player.t)
  : list BracketMatch.t :=
  match byePlayers with
  | [] => []
  | player :: rest =>
      {| BracketMatch.round_number := 1;
         BracketMatch.match_number := matchNumber;
         BracketMatch.player1_id := Some (Player.id player);
         BracketMatch.player2_id := None;
         BracketMatch.status := bye;
         BracketMatch.winner_id := Some (Player.id player) |}
      :: byeMatches (S matchNumber) rest
  end.

(** The second loop, [i] going up in steps of two: [regularPlayers[i]]
    against [regularPlayers[i + 1]], which is missing for a last player
    without opponent. *)
Fixpoint regularMatches (matchNumber : nat) (regularPlayers : list Player.t)
  : list BracketMatch.t :=
  match regularPlayers with
  | [] => []
  | p1 :: [] =>
      [ {| BracketMatch.round_number := 1;
           BracketMatch.match_number := matchNumber;
           BracketMatch.player1_id := Some (Player.id p1);
           BracketMatch.player2_id := None;
           BracketMatch.status := bye;
           BracketMatch.winner_id := Some (Player.id p1) |} ]
  | p1 :: p2 :: rest =>
      {| BracketMatch.round_number := 1;
         BracketMatch.match_number := matchNumber;
         BracketMatch.player1_id := Some (Player.id p1);
         BracketMatch.player2_id := Js.orNull (Some (Player.id p2));
         BracketMatch.status := pending;
         BracketMatch.winner_id := None |}
      :: regularMatches (S matchNumber) rest
  end.

Definition generateRound1Matches (random : nat -> nat)
    (players : list Player.t) (startingTableNumber : nat)
  : list BracketMatch.t :=
  let shuffledPlayers := shuffle random players in
  let bracketSize := nextPowerOf2 (length shuffledPlayers) in
  let byeCount := bracketSize - length shuffledPlayers in
  let byePlayers := take byeCount shuffledPlayers in
  let regularPlayers := drop byeCount shuffledPlayers in
  byeMatches 1 byePlayers
    ++ regularMatches (1 + length byePlayers) regularPlayers.

(** [.filter(m => m.round_number === currentRound && m.winner_id)] *)
Definition hasWinnerIn (currentRound : nat) (m : Match.t) : bool :=
  (Match.round_number m =? currentRound) && Js.truthyOpt (Match.winner_id m).

(** [.sort((a, b) => a.match_number - b.match_number)]; the sort of an
    array is stable. *)
Fixpoint insertByNumber (m : Match.t) (l : list Match.t) : list Match.t :=
  match l with
  | [] => [m]
  | x :: l' =>
      if Match.match_number m <=? Match.match_number x then m :: l
      else x :: insertByNumber m l'
  end.

Definition sortByNumber (l : list Match.t) : list Match.t :=
  foldr insertByNumber [] l.

(** One match of the next round: [winners[i]] against [winners[i + 1]]. *)
Definition nextRoundMatch (nextRound matchNumber : nat) (player1 : string)
    (next : option string) : BracketMatch.t :=
  let player2_id := Js.orNull next in
  {| BracketMatch.round_number := nextRound;
     BracketMatch.match_number := matchNumber;
     BracketMatch.player1_id := Some player1;
     BracketMatch.player2_id := player2_id;
     BracketMatch.status := if Js.truthyOpt player2_id then pending else bye;
     BracketMatch.winner_id :=
       if Js.truthyOpt player2_id then None else Some player1 |}.

Fixpoint pairWinners (nextRound matchNumber : nat) (winners : list string)
  : list BracketMatch.t :=
  match winners with
  | [] => []
  | player1 :: [] => [nextRoundMatch nextRound matchNumber player1 None]
  | player1 :: player2 :: rest =>
      nextRoundMatch nextRound matchNumber player1 (Some player2)
      :: pairWinners nextRound (S matchNumber) rest
  end.

Definition winnersInOrder (completedMatches : list Match.t) (currentRound : nat)
  : list string :=
  omap Match.winner_id
    (sortByNumber (List.filter (hasWinnerIn currentRound) completedMatches)).

Definition generateNextRoundMatches (completedMatches : list Match.t)
    (currentRound startingMatchNumber : nat) : list BracketMatch.t :=
  pairWinners (currentRound + 1) startingMatchNumber
    (winnersInOrder completedMatches currentRound).

(** The loser of a completed match is the side that is not the winner. *)
Definition getLosersFromRound (matches : list Match.t) (roundNumber : nat)
  : list string :=
  omap
    (fun m =>
       if optStringEqb (Match.winner_id m) (Match.player1_id m)
       then Match.player2_id m else Match.player1_id m)
    (List.filter
       (fun m => (Match.round_number m =? roundNumber)
                 && MatchStatus_eqb (Match.status m) completed)
       matches).

(** [assignTableNumbers]: the matches with their [table_number]. *)
Fixpoint assignTableNumbers (matches : list BracketMatch.t) (tableNumber : nat)
  : list (BracketMatch.t * option nat) :=
  match matches with
  | [] => []
  | m :: rest =>
      if MatchStatus_eqb (BracketMatch.status m) bye
      then (m, None) :: assignTableNumbers rest tableNumber
      else (m, Some tableNumber) :: assignTableNumbers rest (S tableNumber)
  end.

Definition finished (m : Match.t) : bool :=
  MatchStatus_eqb (Match.status m) completed
  || MatchStatus_eqb (Match.status m) bye.

Definition isRoundComplete (matches : list Match.t) (roundNumber : nat) : bool :=
  let roundMatches :=
    List.filter (fun m => Match.round_number m =? roundNumber) matches in
  (0 <? length roundMatches) && forallb finished roundMatches.

(** [Math.max(...matches.map(m => m.round_number))] of a non-empty list. *)
Definition maxRound (matches : list Match.t) : nat :=
  foldr Nat.max 0 (map Match.round_number matches).

Definition isBracketComplete (matches : list Match.t) : bool :=
  match matches with
  | [] => false
  | _ :: _ =>
      match List.filter (fun m => Match.round_number m =? maxRound matches) matches with
      | [finalMatch] =>
          match Match.winner_id finalMatch with Some _ => true | None => false end
      | _ => false
      end
  end.

Definition getBracketWinner (matches : list Match.t) : option string :=
  if isBracketComplete matches then
    match List.find (fun m => Match.round_number m =? maxRound matches) matches with
    | Some finalMatch => Js.orNull (Match.winner_id finalMatch)
    | None => None
    end
  else None.

(** [[...new Set(numbers)]]: the numbers without repetition, in the order
    of their first occurrence. *)
Fixpoint dedupe (numbers : list nat) : list nat :=
  match numbers with
  | [] => []
  | n :: rest => n :: List.filter (fun k => negb (k =? n)) (dedupe rest)
  end.

(** [.sort((a, b) => a - b)] on numbers. *)
Fixpoint insertNumber (n : nat) (l : list nat) : list nat :=
  match l with
  | [] => [n]
  | x :: l' => if n <=? x then n :: l else x :: insertNumber n l'
  end.

Definition sortNumbers (l : list nat) : list nat := foldr insertNumber [] l.

(** The [for (const round of rounds)] loop of [getCurrentRound]. *)
Fixpoint firstIncomplete (matches : list Match.t) (rounds : list nat) : option nat :=
  match rounds with
  | [] => None
  | round :: rest =>
      if negb (isRoundComplete matches round) then Some round
      else firstIncomplete matches rest
  end.

Definition roundsOf (matches : list Match.t) : list nat :=
  sortNumbers (dedupe (map Match.round_number matches)).

Definition getCurrentRound (matches : list Match.t) : nat :=
  match matches with
  | [] => 1
  | _ :: _ =>
      match firstIncomplete matches (roundsOf matches) with
      | Some round => round
      | None => foldr Nat.max 0 (roundsOf matches)
      end
  end.

(** The player ids a match holds: [player1_id], then [player2_id]. *)
Definition participants (m : BracketMatch.t) : list string :=
  match BracketMatch.player1_id m, BracketMatch.player2_id m with
  | Some a, Some b => [a; b]
  | Some a, None => [a]
  | None, Some b => [b]
  | None, None => []
  end.

Definition isBye (m : BracketMatch.t) : bool :=
  MatchStatus_eqb (BracketMatch.status m) bye.

Definition byeCountOf (ms : list BracketMatch.t) : nat :=
  length (List.filter isBye ms).

(** A bye has no second player and is won by its first player. *)
Definition byeWonByPlayer1 (m : BracketMatch.t) : Prop :=
  BracketMatch.status m = bye ->
  BracketMatch.player2_id m = None
  /\ is_Some (BracketMatch.player1_id m)
  /\ BracketMatch.winner_id m = BracketMatch.player1_id m.

End BracketLib.

(** ** The director dashboard ([src/app/tournaments/[id]/director/page.tsx])

    The dashboard works on the view [loadData] builds: a division with its
    main and consolation brackets, each with its matches in
    [(round_number, match_number)] order.  [handleAdvanceRound] reads that
    view and writes to the store; a refused insert ends it with the error
    toast, a refused bracket update goes unnoticed.  The view changes only
    when [loadData] runs again, which the call starts and does not wait
    for. *)

Module Director.

Local Open Scope nat_scope.
Local Open Scope list_scope.

Record BracketWithMatches : Type := mkBracket {
  id : string;
  bracket_type : BracketType;
  current_round : nat;
  status : BracketStatus;
  matches : list Match.t
}.

Record DivisionWithBrackets : Type := mkDivision {
  division_id : string;
  match_length : Z;
  mainBracket : option BracketWithMatches;
  consolationBracket : option BracketWithMatches
}.

Definition matchesOf (b : option BracketWithMatches) : list Match.t :=
  match b with Some b => matches b | None => [] end.

(** [division.mainBracket?.current_round || 1] *)
Definition currentRoundOr1 (division : DivisionWithBrackets) : nat :=
  match mainBracket division with
  | Some b => if current_round b =? 0 then 1 else current_round b
  | None => 1
  end.

Definition getCurrentRoundMatches (division : DivisionWithBrackets)
  : list Match.t :=
  let allMatches :=
    matchesOf (mainBracket division) ++ matchesOf (consolationBracket division) in
  let currentRound := currentRoundOr1 division in
  List.filter (fun m => Match.round_number m =? currentRound) allMatches.

Definition completedOrBye (m : Match.t) : bool :=
  MatchStatus_eqb (Match.status m) completed
  || MatchStatus_eqb (Match.status m) bye.

Definition canAdvanceRound (division : DivisionWithBrackets) : bool :=
  let currentMatches := getCurrentRoundMatches division in
  (0 <? length currentMatches) && forallb completedOrBye currentMatches.

(** [mainMatches.filter(m => m.winner_id).map(m => m.winner_id!)] *)
Definition winnersOf (mainMatches : list Match.t) : list string :=
  omap (fun m => Js.orNull (Match.winner_id m)) mainMatches.

(** The other side of a decided match, [null] sides dropped. *)
Definition losersOf (mainMatches : list Match.t) : list string :=
  omap
    (fun m =>
       if optStringEqb (Match.winner_id m) (Match.player1_id m)
       then Match.player2_id m else Match.player1_id m)
    (List.filter
       (fun m => MatchStatus_eqb (Match.status m) completed
                 && Js.truthyOpt (Match.winner_id m))
       mainMatches).

(** One row of the next round.  [withTable] tells the main-bracket loop,
    whose rows have a [table_number], from the consolation loop, whose
    rows have none; [matchNumber] has already been incremented when
    [table_number] is computed, hence [S matchNumber].  The columns the
    insert does not mention take the store's defaults (scores 0, no
    completion time). *)
Definition nextRoundRow (bracketId : string) (nextRound matchNumber : nat)
    (withTable : bool) (player1 : string) (player2 : option string) : Match.t :=
  let hasPlayer2 := Js.truthyOpt player2 in
  {| Match.bracket_id := bracketId;
     Match.round_number := nextRound;
     Match.match_number := matchNumber;
     Match.player1_id := Some player1;
     Match.player2_id := Js.orNull player2;
     Match.winner_id := if hasPlayer2 then None else Some player1;
     Match.player1_score := 0%Z;
     Match.player2_score := 0%Z;
     Match.table_number :=
       if withTable && hasPlayer2 then Some (S matchNumber) else None;
     Match.status := if hasPlayer2 then pending else bye;
     Match.completed_at := None |}.

(** [for (let i = 0; i < ids.length; i += 2)]: [ids[i]] with [ids[i + 1]]. *)
Fixpoint pairUp (bracketId : string) (nextRound matchNumber : nat)
    (withTable : bool) (ids : list string) : list Match.t :=
  match ids with
  | [] => []
  | player1 :: [] =>
      [nextRoundRow bracketId nextRound matchNumber withTable player1 None]
  | player1 :: player2 :: rest =>
      nextRoundRow bracketId nextRound matchNumber withTable player1 (Some player2)
      :: pairUp bracketId nextRound (S matchNumber) withTable rest
  end.

(** [.order('round_number').order('match_number')] of [loadData]. *)
Definition rowBefore (a b : Match.t) : bool :=
  (Match.round_number a <? Match.round_number b)
  || ((Match.round_number a =? Match.round_number b)
      && (Match.match_number a <=? Match.match_number b)).

Fixpoint insertOrdered (m : Match.t) (l : list Match.t) : list Match.t :=
  match l with
  | [] => [m]
  | x :: l' => if rowBefore m x then m :: l else x :: insertOrdered m l'
  end.

Definition orderMatches (l : list Match.t) : list Match.t :=
  foldr insertOrdered [] l.

Inductive Outcome : Type :=
| Returned
| Failed
| AdvancedTo (nextRound : nat).

(** [toast.success] and [toast.error] of [handleAdvanceRound]; the early
    [return] shows nothing. *)
Definition toast (o : Outcome) : option string :=
  match o with
  | Returned => None
  | Failed => Some "Failed to advance round"
  | AdvancedTo n => Some ("Advanced to Round " +:+ pretty n)
  end.

Definition newMainMatches (mainB : BracketWithMatches) : list Match.t :=
  let currentRound := current_round mainB in
  let mainMatches :=
    List.filter (fun m => Match.round_number m =? currentRound) (matches mainB) in
  pairUp (id mainB) (currentRound + 1) 1 true (winnersOf mainMatches).

Definition newConsolationMatches (mainB consB : BracketWithMatches)
  : list Match.t :=
  let currentRound := current_round mainB in
  let mainMatches :=
    List.filter (fun m => Match.round_number m =? currentRound) (matches mainB) in
  pairUp (id consB) (currentRound + 1) 1 false (losersOf mainMatches).

(** *** The store behind the dashboard

    The tables the dashboard reads and writes: the divisions of the
    tournament in the order of [loadData]'s query, the brackets and the
    matches in the order the store holds them.  The dashboard never
    addresses a match by id, so the rows are kept as a list. *)
Record Store : Type := mkStore {
  divisionRows : list Division.t;
  bracketRows : list Bracket.t;
  matchRows : list Match.t
}.

(** The answers of the store to the queries of [loadData].  An error of
    the tournament query or of the divisions query is thrown and caught:
    [loadData] then leaves the state as it is.  A bracket query (by
    division id) or a match query (by bracket id) that comes back without
    data counts as empty ([brackets || []], [matches || []]). *)
Record Reads : Type := mkReads {
  tournamentError : bool;
  divisionsError : bool;
  bracketsRead : string -> bool;
  matchesRead : string -> bool
}.

(** Every query is answered. *)
Definition allRead : Reads :=
  {| tournamentError := false; divisionsError := false;
     bracketsRead := fun _ => true; matchesRead := fun _ => true |}.

(** [{ ...bracket, matches }], the matches of the bracket in
    [(round_number, match_number)] order. *)
Definition withMatches (reads : Reads) (db : Store) (bracket : Bracket.t)
  : BracketWithMatches :=
  {| id := Bracket.id bracket;
     bracket_type := Bracket.bracket_type bracket;
     current_round := Bracket.current_round bracket;
     status := Bracket.status bracket;
     matches :=
       if matchesRead reads (Bracket.id bracket) then
         orderMatches
           (List.filter
              (fun m => String.eqb (Match.bracket_id m) (Bracket.id bracket))
              (matchRows db))
       else [] |}.

(** The body of [for (const bracket of brackets || [])]. *)
Definition attach (reads : Reads) (db : Store)
    (divisionData : DivisionWithBrackets) (bracket : Bracket.t)
  : DivisionWithBrackets :=
  match Bracket.bracket_type bracket with
  | main =>
      {| division_id := division_id divisionData;
         match_length := match_length divisionData;
         mainBracket := Some (withMatches reads db bracket);
         consolationBracket := consolationBracket divisionData |}
  | consolation =>
      {| division_id := division_id divisionData;
         match_length := match_length divisionData;
         mainBracket := mainBracket divisionData;
         consolationBracket := Some (withMatches reads db bracket) |}
  | last_chance => divisionData
  end.

(** The body of [for (const division of divisionsData)]. *)
Definition loadDivision (reads : Reads) (db : Store) (division : Division.t)
  : DivisionWithBrackets :=
  let brackets :=
    if bracketsRead reads (Division.id division) then
      List.filter
        (fun b => String.eqb (Bracket.division_id b) (Division.id division))
        (bracketRows db)
    else [] in
  foldl (attach reads db)
    {| division_id := Division.id division;
       match_length := Division.match_length division;
       mainBracket := None;
       consolationBracket := None |}
    brackets.

(** The state of the page that the round advance uses. *)
Record State : Type := mkState {
  divisions : list DivisionWithBrackets;
  activeTab : string
}.

(** [loadData]: on an error of one of the first two queries the state
    stays as it is; otherwise the divisions are replaced by what was read,
    and the first division becomes the active tab when there is none. *)
Definition loadData (reads : Reads) (db : Store) (st : State) : State :=
  if tournamentError reads || divisionsError reads then st
  else
    let divisionsWithBrackets := map (loadDivision reads db) (divisionRows db) in
    {| divisions := divisionsWithBrackets;
       activeTab :=
         match divisionsWithBrackets with
         | first :: _ =>
             if Js.truthy (activeTab st) then activeTab st else division_id first
         | [] => activeTab st
         end |}.

(** [divisions.find((d) => d.id === activeTab)] *)
Definition getActiveDivision (st : State) : option DivisionWithBrackets :=
  List.find (fun d => String.eqb (division_id d) (activeTab st)) (divisions st).

(** Whether the store refuses each of the four writes of
    [handleAdvanceRound].  A refused insert is thrown; the result of a
    bracket update is not looked at. *)
Record Answers : Type := mkAnswers {
  mainInsertError : bool;
  consolationInsertError : bool;
  consolationUpdateError : bool;
  mainUpdateError : bool
}.

(** Every write is accepted. *)
Definition allAccepted : Answers :=
  {| mainInsertError := false; consolationInsertError := false;
     consolationUpdateError := false; mainUpdateError := false |}.

(** [.from('matches').insert(rows)] *)
Definition insertMatches (rows : list Match.t) (db : Store) : Store :=
  {| divisionRows := divisionRows db;
     bracketRows := bracketRows db;
     matchRows := matchRows db ++ rows |}.

(** [.from('brackets').update(...).eq('id', bracketId)] *)
Definition updateBracket (bracketId : string) (update : Bracket.t -> Bracket.t)
    (db : Store) : Store :=
  {| divisionRows := divisionRows db;
     bracketRows :=
       map (fun b => if String.eqb (Bracket.id b) bracketId then update b else b)
         (bracketRows db);
     matchRows := matchRows db |}.

(** [{ current_round: nextRound }] *)
Definition setRound (nextRound : nat) (b : Bracket.t) : Bracket.t :=
  {| Bracket.id := Bracket.id b;
     Bracket.division_id := Bracket.division_id b;
     Bracket.bracket_type := Bracket.bracket_type b;
     Bracket.current_round := nextRound;
     Bracket.status := Bracket.status b |}.

(** [{ current_round: nextRound, status: 'in_progress' }] *)
Definition setRoundInProgress (nextRound : nat) (b : Bracket.t) : Bracket.t :=
  {| Bracket.id := Bracket.id b;
     Bracket.division_id := Bracket.division_id b;
     Bracket.bracket_type := Bracket.bracket_type b;
     Bracket.current_round := nextRound;
     Bracket.status := bracket_in_progress |}.

(** The consolation bracket that gets matches: there is one and there are
    losers ([division.consolationBracket && losers.length > 0]). *)
Definition consolationToFill (division : DivisionWithBrackets)
    (mainB : BracketWithMatches) : option BracketWithMatches :=
  let mainMatches :=
    List.filter (fun m => Match.round_number m =? current_round mainB)
      (matches mainB) in
  match consolationBracket division with
  | Some consB => if 0 <? length (losersOf mainMatches) then Some consB else None
  | None => None
  end.

(** The last step: the update of the main bracket, whose result is not
    looked at, and the success toast.  [loadData()] is started here and
    not awaited: the state of the page is not touched by the call. *)
Definition finishAdvance (answers : Answers) (mainB : BracketWithMatches)
    (db : Store) : Store * Outcome :=
  let nextRound := current_round mainB + 1 in
  (if mainUpdateError answers then db
   else updateBracket (id mainB) (setRound nextRound) db,
   AdvancedTo nextRound).

(** [handleAdvanceRound]: the store after the call and what the call
    reports.  The rows to insert are computed from the state of the page,
    not from the store. *)
Definition handleAdvanceRound (st : State) (answers : Answers) (db : Store)
  : Store * Outcome :=
  match getActiveDivision st with
  | None => (db, Returned)
  | Some division =>
      match mainBracket division with
      | None => (db, Returned)
      | Some mainB =>
          let nextRound := current_round mainB + 1 in
          let newMain := newMainMatches mainB in
          if (0 <? length newMain) && mainInsertError answers then (db, Failed)
          else
            let db1 :=
              if 0 <? length newMain then insertMatches newMain db else db in
            match consolationToFill division mainB with
            | Some consB =>
                let consolationMatches := newConsolationMatches mainB consB in
                if (0 <? length consolationMatches)
                   && consolationInsertError answers
                then (db1, Failed)
                else
                  let db2 :=
                    if 0 <? length consolationMatches
                    then insertMatches consolationMatches db1 else db1 in
                  let db3 :=
                    if consolationUpdateError answers then db2
                    else updateBracket (id consB) (setRoundInProgress nextRound) db2 in
                  finishAdvance answers mainB db3
            | None => finishAdvance answers mainB db1
            end
      end
  end.

(** The director's way to the call: the button of the active division is
    disabled unless [canAdvanceRound]. *)
Definition advanceRound (st : State) (answers : Answers) (db : Store)
  : option (Store * Outcome) :=
  match getActiveDivision st with
  | Some division =>
      if canAdvanceRound division then Some (handleAdvanceRound st answers db)
      else None
  | None => None
  end.

(** [current_round] of the brackets of the store with a given id. *)
Definition roundsOfBracket (bracketId : string) (db : Store) : list nat :=
  map Bracket.current_round
    (List.filter (fun b => String.eqb (Bracket.id b) bracketId) (bracketRows db)).

End Director.

(** ** The SMS webhook ([POST] of the intake route)

    The handler is modelled from the point where the sender's player row
    and the sender's active matches have been read.  Both reads are
    inputs: [activeMatches] is the result of the query, in the order the
    store returned the rows (the query asks for no order).  Every write the
    handler makes is a step of its own; [POST] returns the store after each
    write that took effect, oldest first, and the reply sent back.  [POST]
    is the run of the handler in which the signature was accepted and
    nothing throws; [route], further down, is the whole of it, with the
    signature check of production and the [catch]. *)

Module Sms.
Import ScoreParser.

(** A row of the active-match query: the match with its joined bracket
    division ([match_length]) and players. *)
Record ActiveMatch : Type := mkActive {
  id : string;
  created_at : Timestamp;
  row : Match.t;
  match_length : Z;
  player1 : option Player.t;
  player2 : option Player.t
}.

(** [(match.player1)?.name?.toLowerCase() || ''] *)
Definition nameLower (p : option Player.t) : string :=
  match p with
  | Some p => Js.toLowerCase (Player.name p)
  | None => EmptyString
  end.

Definition mentions (bodyLower : string) (m : ActiveMatch) : bool :=
  Js.includes bodyLower (nameLower (player1 m))
  || Js.includes bodyLower (nameLower (player2 m)).

(** [targetMatch]: [None] stands for the early reply when the sender has
    no active match. *)
Definition selectTargetMatch (body : string) (activeMatches : list ActiveMatch)
  : option ActiveMatch :=
  match activeMatches with
  | [] => None
  | first :: _ =>
      if (1 <? length activeMatches)%nat then
        match List.find (mentions (Js.toLowerCase body)) activeMatches with
        | Some m => Some m
        | None => Some first
        end
      else Some first
  end.

(** [bracket?.division?.match_length || 9] *)
Definition matchLengthOf (targetMatch : ActiveMatch) : Z :=
  if match_length targetMatch =? 0 then 9 else match_length targetMatch.

(** [p?.name?.toLowerCase().includes(winnerNameLower)] *)
Definition nameIncludes (p : option Player.t) (winnerNameLower : string) : bool :=
  match p with
  | Some p => Js.includes (Js.toLowerCase (Player.name p)) winnerNameLower
  | None => false
  end.

Definition playerId (p : option Player.t) : option string :=
  match p with Some p => Some (Player.id p) | None => None end.

(** The [if (parsed.winnerName)] block. *)
Definition winnerByName (parsed : ParsedScore) (targetMatch : ActiveMatch)
  : option string :=
  match winnerName parsed with
  | Some name =>
      if Js.truthy name then
        let winnerNameLower := Js.toLowerCase name in
        if nameIncludes (player1 targetMatch) winnerNameLower
        then playerId (player1 targetMatch)
        else if nameIncludes (player2 targetMatch) winnerNameLower
        then playerId (player2 targetMatch)
        else None
      else None
  | None => None
  end.

(** [parsedWinnerId] *)
Definition resolveWinner (parsed : ParsedScore) (targetMatch : ActiveMatch)
    (matchLength : Z) : option string :=
  match player1Score parsed, player2Score parsed with
  | Some s1, Some s2 =>
      if valid (validateScore parsed matchLength) then
        let byName := winnerByName parsed targetMatch in
        if negb (Js.truthyOpt byName) then
          if s1 >? s2 then Match.player1_id (row targetMatch)
          else Match.player2_id (row targetMatch)
        else byName
      else None
  | _, _ => None
  end.

Definition baseConfidence (c : Confidence) : Z :=
  match c with high => 90 | medium => 60 | low => 30 end.

(** [confidenceScore] *)
Definition confidenceScore (parsed : ParsedScore) (matchLength : Z) : Z :=
  let base := baseConfidence (confidence parsed) in
  match player1Score parsed, player2Score parsed with
  | Some _, Some _ =>
      if negb (valid (validateScore parsed matchLength))
      then Z.min base 40 else base
  | _, _ => base
  end.

(** The condition of the auto-approval branch,
    [confidenceScore >= 90 && parsedWinnerId && parsed.player1Score !==
    undefined && parsed.player2Score !== undefined]; when it holds, the
    two scores the branch writes. *)
Definition autoApproves (confidence : Z) (parsedWinnerId : option string)
    (parsed : ParsedScore) : option (Z * Z) :=
  match player1Score parsed, player2Score parsed with
  | Some s1, Some s2 =>
      if (confidence >=? 90) && Js.truthyOpt parsedWinnerId
      then Some (s1, s2) else None
  | _, _ => None
  end.

Record Store : Type := mkStore {
  matches : gmap string Match.t;
  score_reports : gmap string ScoreReport.t
}.

(** What the handler gets from outside: the request, the two reads, the
    clock, the id the store gives the new report, and whether each of
    the three writes is refused by the store. *)
Record Env : Type := mkEnv {
  from : string;
  body : string;
  player : option Player.t;
  activeMatches : list ActiveMatch;
  now : Timestamp;
  reportId : string;
  reportError : bool;
  matchError : bool;
  approveError : bool
}.

Definition newReport (env : Env) (sender : Player.t) (targetMatch : ActiveMatch)
    (parsed : ParsedScore) (parsedWinnerId : option string) (confidence : Z)
  : ScoreReport.t :=
  {| ScoreReport.match_id := id targetMatch;
     ScoreReport.reported_by_phone := from env;
     ScoreReport.reported_by_player_id := Some (Player.id sender);
     ScoreReport.raw_text := body env;
     ScoreReport.parsed_winner_id := parsedWinnerId;
     ScoreReport.parsed_player1_score := player1Score parsed;
     ScoreReport.parsed_player2_score := player2Score parsed;
     ScoreReport.confidence_score := Some confidence;
     ScoreReport.status := report_pending;
     ScoreReport.approved_at := None |}.

(** [.from('score_reports').insert(...)] *)
Definition insertReport (key : string) (r : ScoreReport.t) (db : Store) : Store :=
  {| matches := matches db; score_reports := <[key := r]> (score_reports db) |}.

Definition completeRow (winner : option string) (s1 s2 : Z) (t : Timestamp)
    (m : Match.t) : Match.t :=
  {| Match.bracket_id := Match.bracket_id m;
     Match.round_number := Match.round_number m;
     Match.match_number := Match.match_number m;
     Match.player1_id := Match.player1_id m;
     Match.player2_id := Match.player2_id m;
     Match.winner_id := winner;
     Match.player1_score := s1;
     Match.player2_score := s2;
     Match.table_number := Match.table_number m;
     Match.status := completed;
     Match.completed_at := Some t |}.

(** [.from('matches').update({...}).eq('id', key)] *)
Definition completeMatch (key : string) (winner : option string) (s1 s2 : Z)
    (t : Timestamp) (db : Store) : Store :=
  {| matches := alter (completeRow winner s1 s2 t) key (matches db);
     score_reports := score_reports db |}.

Definition approveRow (t : Timestamp) (r : ScoreReport.t) : ScoreReport.t :=
  {| ScoreReport.match_id := ScoreReport.match_id r;
     ScoreReport.reported_by_phone := ScoreReport.reported_by_phone r;
     ScoreReport.reported_by_player_id := ScoreReport.reported_by_player_id r;
     ScoreReport.raw_text := ScoreReport.raw_text r;
     ScoreReport.parsed_winner_id := ScoreReport.parsed_winner_id r;
     ScoreReport.parsed_player1_score := ScoreReport.parsed_player1_score r;
     ScoreReport.parsed_player2_score := ScoreReport.parsed_player2_score r;
     ScoreReport.confidence_score := ScoreReport.confidence_score r;
     ScoreReport.status := approved;
     ScoreReport.approved_at := Some t |}.

(** [.from('score_reports').update({ status: 'approved', ... }).eq('id', key)] *)
Definition approveReport (key : string) (t : Timestamp) (db : Store) : Store :=
  {| matches := matches db;
     score_reports := alter (approveRow t) key (score_reports db) |}.

Definition nameOr (p : option Player.t) (default : string) : string :=
  match p with
  | Some p => if Js.truthy (Player.name p) then Player.name p else default
  | None => default
  end.

Definition nameOrUndefined (p : option Player.t) : string :=
  match p with Some p => Player.name p | None => "undefined" end.

Definition pendingReply (targetMatch : ActiveMatch) (parsed : ParsedScore) : string :=
  match player1Score parsed, player2Score parsed with
  | Some s1, Some s2 =>
      "Score report received: " +:+ nameOr (player1 targetMatch) "Player 1" +:+ " "
      +:+ pretty s1 +:+ " - " +:+ nameOr (player2 targetMatch) "Player 2" +:+ " "
      +:+ pretty s2 +:+ ". Pending director approval."
  | _, _ =>
      "Thanks! Your score report has been received and is pending director approval."
  end.

Definition recordedReply (targetMatch : ActiveMatch) (parsedWinnerId : option string)
    (s1 s2 : Z) : string :=
  let winnerName :=
    if optStringEqb parsedWinnerId (Match.player1_id (row targetMatch))
    then nameOrUndefined (player1 targetMatch)
    else nameOrUndefined (player2 targetMatch) in
  "Score recorded! " +:+ winnerName +:+ " wins " +:+ pretty s1 +:+ "-"
  +:+ pretty s2 +:+ ". Thanks for reporting!".

Definition POST (env : Env) (db : Store) : list Store * string :=
  match player env with
  | None =>
      ([], "We couldn't find your phone number in our system. Please check in with the tournament director.")
  | Some sender =>
      match selectTargetMatch (body env) (activeMatches env) with
      | None =>
          ([], "You don't have any active matches right now. Please check with the tournament director.")
      | Some targetMatch =>
          let parsed := parseScoreText (body env) in
          let matchLength := matchLengthOf targetMatch in
          let parsedWinnerId := resolveWinner parsed targetMatch matchLength in
          let confidence := confidenceScore parsed matchLength in
          if reportError env then
            ([], "Sorry, there was an error recording your score. Please try again or contact the director.")
          else
            let db1 :=
              insertReport (reportId env)
                (newReport env sender targetMatch parsed parsedWinnerId confidence) db in
            match autoApproves confidence parsedWinnerId parsed with
            | Some (s1, s2) =>
                if matchError env then ([db1], pendingReply targetMatch parsed)
                else
                  let db2 :=
                    completeMatch (id targetMatch) parsedWinnerId s1 s2 (now env) db1 in
                  let afterApprove :=
                    if approveError env then []
                    else [approveReport (reportId env) (now env) db2] in
                  (db1 :: db2 :: afterApprove,
                   recordedReply targetMatch parsedWinnerId s1 s2)
            | None => ([db1], pendingReply targetMatch parsed)
            end
      end
  end.

(** *** The route around the handler

    [POST] above is the handler from the lookup of the sender on, on a
    run in which nothing throws.  The route starts earlier, with the form
    data and, in production, the check of the Twilio signature, and its
    [catch] turns every exception into a reply. *)

(** The steps of the route that can end in an exception. *)
Inductive Step : Type :=
| FormData
| Signature
| PlayerQuery
| MatchesQuery
| ReportInsert
| MatchUpdate
| ReportUpdate.

Definition Step_eqb (a b : Step) : bool :=
  match a, b with
  | FormData, FormData | Signature, Signature | PlayerQuery, PlayerQuery
  | MatchesQuery, MatchesQuery | ReportInsert, ReportInsert
  | MatchUpdate, MatchUpdate | ReportUpdate, ReportUpdate => true
  | _, _ => false
  end.

(** What the route gets from outside besides [Env]: whether it runs in
    production ([process.env.NODE_ENV === 'production']), the auth token of
    the environment, what [twilio.validateRequest] answers for the request,
    and the step that throws, if one does. *)
Record Request : Type := mkRequest {
  env : Env;
  production : bool;
  authToken : option string;
  requestValid : bool;
  throwsAt : option Step
}.

(** [validateTwilioSignature]: without an auth token every request
    passes. *)
Definition validateTwilioSignature (authToken : option string)
    (requestValid : bool) : bool :=
  if negb (Js.truthyOpt authToken) then true else requestValid.

Definition throws (req : Request) (step : Step) : bool :=
  match throwsAt req with
  | Some s => Step_eqb s step
  | None => false
  end.

(** The reply of the [catch] block. *)
Definition errorReply : string :=
  "Sorry, there was an error processing your message. Please try again.".

(** The whole of the exported [POST]: the stores after each write that
    took effect, and the reply.  A step that throws has no effect. *)
Definition route (req : Request) (db : Store) : list Store * string :=
  if throws req FormData then ([], errorReply)
  else if production req && throws req Signature then ([], errorReply)
  else if production req
          && negb (validateTwilioSignature (authToken req) (requestValid req))
  then ([], "Invalid request")
  else if throws req PlayerQuery then ([], errorReply)
  else
    match player (env req) with
    | None =>
        ([], "We couldn't find your phone number in our system. Please check in with the tournament director.")
    | Some sender =>
        if throws req MatchesQuery then ([], errorReply)
        else
          match selectTargetMatch (body (env req)) (activeMatches (env req)) with
          | None =>
              ([], "You don't have any active matches right now. Please check with the tournament director.")
          | Some targetMatch =>
              let parsed := parseScoreText (body (env req)) in
              let matchLength := matchLengthOf targetMatch in
              let parsedWinnerId := resolveWinner parsed targetMatch matchLength in
              let confidence := confidenceScore parsed matchLength in
              if throws req ReportInsert then ([], errorReply)
              else if reportError (env req) then
                ([], "Sorry, there was an error recording your score. Please try again or contact the director.")
              else
                let db1 :=
                  insertReport (reportId (env req))
                    (newReport (env req) sender targetMatch parsed parsedWinnerId
                       confidence) db in
                match autoApproves confidence parsedWinnerId parsed with
                | Some (s1, s2) =>
                    if throws req MatchUpdate then ([db1], errorReply)
                    else if matchError (env req) then
                      ([db1], pendingReply targetMatch parsed)
                    else
                      let db2 :=
                        completeMatch (id targetMatch) parsedWinnerId s1 s2
                          (now (env req)) db1 in
                      if throws req ReportUpdate then ([db1; db2], errorReply)
                      else
                        let afterApprove :=
                          if approveError (env req) then []
                          else [approveReport (reportId (env req)) (now (env req)) db2] in
                        (db1 :: db2 :: afterApprove,
                         recordedReply targetMatch parsedWinnerId s1 s2)
                | None => ([db1], pendingReply targetMatch parsed)
                end
          end
    end.

Definition matchStatusIn (db : Store) (key : string) : option MatchStatus :=
  Match.status <$> matches db !! key.

Definition reportStatusIn (db : Store) (key : string) : option ScoreReportStatus :=
  ScoreReport.status <$> score_reports db !! key.

(** The match is completed while its report is not approved. *)
Definition appliedButUnapproved (matchKey reportKey : string) (db : Store) : bool :=
  match matchStatusIn db matchKey, reportStatusIn db reportKey with
  | Some completed, Some approved => false
  | Some completed, _ => true
  | _, _ => false
  end.

End Sms.

(** ** Manual score entry ([ManualScoreEntry] of the director dashboard)

    [p1Score] and [p2Score] are the component's
    [parseInt(player1Score) || 0] and [parseInt(player2Score) || 0], the
    numbers every function of the component works on; [tableNumber] is its
    [tableNumber ? parseInt(tableNumber) : null]. *)

Module ManualScoreEntry.

(** The side with the higher score, [null] on a tie. *)
Definition winnerId (m : Match.t) (p1Score p2Score : Z) : option string :=
  if p1Score >? p2Score then Match.player1_id m
  else if p2Score >? p1Score then Match.player2_id m
  else None.

Definition validateScores (p1Score p2Score matchLength : Z) : option string :=
  if (p1Score <? 0) || (p2Score <? 0) then Some "Scores must be positive"
  else if (p1Score >? matchLength) && (p2Score >? matchLength) then
    Some ("Scores cannot both exceed match length (" +:+ pretty matchLength +:+ ")")
  else if negb (p1Score =? matchLength) && negb (p2Score =? matchLength) then
    Some ("One player must reach " +:+ pretty matchLength +:+ " points to win")
  else if p1Score =? p2Score then Some "Scores cannot be tied"
  else if negb (Z.max p1Score p2Score =? matchLength) then
    Some ("Winner must have exactly " +:+ pretty matchLength +:+ " points")
  else if Z.min p1Score p2Score >=? matchLength then
    Some ("Losing score must be less than " +:+ pretty matchLength)
  else None.

Definition saveRow (winner : option string) (s1 s2 : Z) (table : option nat)
    (t : Timestamp) (m : Match.t) : Match.t :=
  {| Match.bracket_id := Match.bracket_id m;
     Match.round_number := Match.round_number m;
     Match.match_number := Match.match_number m;
     Match.player1_id := Match.player1_id m;
     Match.player2_id := Match.player2_id m;
     Match.winner_id := winner;
     Match.player1_score := s1;
     Match.player2_score := s2;
     Match.table_number := table;
     Match.status := completed;
     Match.completed_at := Some t |}.

Inductive Outcome : Type :=
| Refused (error : string)
| Failed
| Saved.

(** [handleSubmit] for the match shown in the dialog ([key] is its id,
    [m] the row the dashboard loaded): the store after the call and what
    the dialog shows. *)
Definition handleSubmit (key : string) (m : Match.t)
    (p1Score p2Score matchLength : Z) (tableNumber : option nat)
    (now : Timestamp) (updateError : bool) (db : Sms.Store)
  : Sms.Store * Outcome :=
  match validateScores p1Score p2Score matchLength with
  | Some err => (db, Refused err)
  | None =>
      if updateError then (db, Failed)
      else
        ({| Sms.matches :=
              alter (saveRow (winnerId m p1Score p2Score) p1Score p2Score
                       tableNumber now)
                key (Sms.matches db);
            Sms.score_reports := Sms.score_reports db |},
         Saved)
  end.

End ManualScoreEntry.

(** ** The score report queue ([ScoreReportQueue] of the director dashboard) *)

Module ScoreReportQueue.

(** A row of the queue: the report with its id and its joined match. *)
Record ScoreReportWithDetails : Type := mkDetails {
  id : string;
  report : ScoreReport.t;
  matchRow : option Match.t
}.

Inductive Badge : Type :=
| Unknown
| High (score : Z)
| Medium (score : Z)
| Low (score : Z).

Definition getConfidenceBadge (score : option Z) : Badge :=
  match score with
  | None => Unknown
  | Some score =>
      if score >=? 80 then High score
      else if score >=? 50 then Medium score
      else Low score
  end.

(** [p1Score ?? report.parsed_player1_score ?? 0] *)
Definition finalScore (override parsed : option Z) : Z :=
  match override with
  | Some score => score
  | None => match parsed with Some score => score | None => 0 end
  end.

Definition approvedWinner (m : Match.t) (finalP1Score finalP2Score : Z)
  : option string :=
  if finalP1Score >? finalP2Score then Match.player1_id m else Match.player2_id m.

(** [handleApprove]: the store after each write that took effect.  A
    refused match update is thrown and ends the call; the result of the
    report update is not looked at. *)
Definition handleApprove (r : ScoreReportWithDetails) (p1Score p2Score : option Z)
    (now : Timestamp) (matchError approveError : bool) (db : Sms.Store)
  : list Sms.Store :=
  match matchRow r with
  | None => []
  | Some m =>
      let finalP1Score :=
        finalScore p1Score (ScoreReport.parsed_player1_score (report r)) in
      let finalP2Score :=
        finalScore p2Score (ScoreReport.parsed_player2_score (report r)) in
      let winner := approvedWinner m finalP1Score finalP2Score in
      if matchError then []
      else
        let db1 :=
          Sms.completeMatch (ScoreReport.match_id (report r)) winner
            finalP1Score finalP2Score now db in
        db1 :: (if approveError then []
                else [Sms.approveReport (id r) now db1])
  end.

Definition rejectRow (r : ScoreReport.t) : ScoreReport.t :=
  {| ScoreReport.match_id := ScoreReport.match_id r;
     ScoreReport.reported_by_phone := ScoreReport.reported_by_phone r;
     ScoreReport.reported_by_player_id := ScoreReport.reported_by_player_id r;
     ScoreReport.raw_text := ScoreReport.raw_text r;
     ScoreReport.parsed_winner_id := ScoreReport.parsed_winner_id r;
     ScoreReport.parsed_player1_score := ScoreReport.parsed_player1_score r;
     ScoreReport.parsed_player2_score := ScoreReport.parsed_player2_score r;
     ScoreReport.confidence_score := ScoreReport.confidence_score r;
     ScoreReport.status := rejected;
     ScoreReport.approved_at := ScoreReport.approved_at r |}.

(** [handleReject] *)
Definition handleReject (r : ScoreReportWithDetails) (db : Sms.Store) : Sms.Store :=
  {| Sms.matches := Sms.matches db;
     Sms.score_reports := alter rejectRow (id r) (Sms.score_reports db) |}.

(** The filter of [handleApproveAll]. *)
Definition highConfidence (r : ScoreReportWithDetails) : bool :=
  match ScoreReport.confidence_score (report r) with
  | Some score => score >=? 80
  | None => false
  end.

Definition lastStore (db : Sms.Store) (trace : list Sms.Store) : Sms.Store :=
  List.last trace db.

(** [handleApproveAll]: [handleApprove] on every high-confidence report of
    the queue, one after the other.  [now], [matchError] and
    [approveError] give the clock and the store's answers for the call on
    each report. *)
Definition handleApproveAll (reports : list ScoreReportWithDetails)
    (now : ScoreReportWithDetails -> Timestamp)
    (matchError approveError : ScoreReportWithDetails -> bool)
    (db : Sms.Store) : Sms.Store :=
  fold_left
    (fun db r =>
       lastStore db
         (handleApprove r None None (now r) (matchError r) (approveError r) db))
    (List.filter highConfidence reports) db.

End ScoreReportQueue.

(** ** Bracket generation on the tournament page ([generateBrackets])

    The round-1 loop of the page, for one division, from the shuffled
    entries on ([shuffledEntries] holds the [player_id] of each entry; the
    shuffle sorts with a random comparison and can leave them in any
    order).  The rows are the objects handed to the insert; a column the
    object does not mention has the store's default. *)

Module TournamentPage.

Local Open Scope nat_scope.

Fixpoint round1Rows (bracketId : string) (matchNumber tableNumber : nat)
    (shuffledEntries : list string) : list Match.t :=
  match shuffledEntries with
  | [] => []
  | player1 :: [] =>
      [ {| Match.bracket_id := bracketId;
           Match.round_number := 1;
           Match.match_number := matchNumber;
           Match.player1_id := Some player1;
           Match.player2_id := None;
           Match.winner_id := Some player1;
           Match.player1_score := 0%Z;
           Match.player2_score := 0%Z;
           Match.table_number := None;
           Match.status := bye;
           Match.completed_at := None |} ]
  | player1 :: player2 :: rest =>
      {| Match.bracket_id := bracketId;
         Match.round_number := 1;
         Match.match_number := matchNumber;
         Match.player1_id := Some player1;
         Match.player2_id := Some player2;
         Match.winner_id := None;
         Match.player1_score := 0%Z;
         Match.player2_score := 0%Z;
         Match.table_number := Some tableNumber;
         Match.status := pending;
         Match.completed_at := None |}
      :: round1Rows bracketId (S matchNumber) (S tableNumber) rest
  end.

(** [matches.length + 1] starts at 1, [tableNumber] at 1. *)
Definition generateRound1 (bracketId : string) (shuffledEntries : list string)
  : list Match.t :=
  round1Rows bracketId 1 1 shuffledEntries.

End TournamentPage.

(** ** [src/lib/utils.ts] *)

Module Utils.

Local Open Scope nat_scope.

(** [s.replace(/\D/g, '')] *)
Fixpoint digitsOnly (s : string) : string :=
  match s with
  | EmptyString => EmptyString
  | String c s' => if Js.isDigit c then String c (digitsOnly s') else digitsOnly s'
  end.

(** [s.slice(from, to)] and [s.slice(from)] for indices within the string. *)
Definition slice (s : string) (from to : nat) : string :=
  substring from (to - from) s.

Definition sliceFrom (s : string) (from : nat) : string :=
  substring from (String.length s - from) s.

Definition formatPhoneNumber (phone : string) : string :=
  let cleaned := digitsOnly phone in
  if String.length cleaned =? 10 then
    "(" +:+ slice cleaned 0 3 +:+ ") " +:+ slice cleaned 3 6 +:+ "-"
    +:+ sliceFrom cleaned 6
  else if (String.length cleaned =? 11)
          && (match cleaned with String c _ => Ascii.eqb c "1" | _ => false end) then
    "+1 (" +:+ slice cleaned 1 4 +:+ ") " +:+ slice cleaned 4 7 +:+ "-"
    +:+ sliceFrom cleaned 7
  else phone.

(** [[^\s@]] *)
Definition isAddressChar (c : ascii) : bool :=
  negb (Js.isSpace c || Ascii.eqb c "@").

(** [/^[^\s@]+@[^\s@]+\.[^\s@]+$/]: the part between the anchors. *)
Definition emailRegex : Regex.regex :=
  Regex.Seq (Regex.Plus isAddressChar)
    (Regex.Seq (Regex.Lit false "@")
       (Regex.Seq (Regex.Plus isAddressChar)
          (Regex.Seq (Regex.Lit false ".") (Regex.Plus isAddressChar)))).

(** [emailRegex.test(email)]: with [^] the match starts at the first
    character, with [$] it ends at the last. *)
Definition isValidEmail (email : string) : bool :=
  match Regex.run emailRegex email []
          (fun rest caps =>
             match rest with EmptyString => Some caps | String _ _ => None end)
  with
  | Some _ => true
  | None => false
  end.

(** [calculateRounds], as in the bracket library, and for the same
    player counts. *)
Definition calculateRounds (playerCount : nat) : nat :=
  if playerCount <=? 1 then 0 else Nat.log2_up playerCount.

End Utils.

(** ** [src/lib/twilio.ts]: the reply markup *)

Module Twilio.

(** [text.replace(/c/g, replacement)] for a one-character pattern. *)
Fixpoint replaceAll (c : ascii) (replacement : string) (text : string) : string :=
  match text with
  | EmptyString => EmptyString
  | String x rest =>
      if Ascii.eqb x c then replacement +:+ replaceAll c replacement rest
      else String x (replaceAll c replacement rest)
  end.

(** The double quote character. *)
Definition doubleQuote : ascii := "034".

Definition escapeXml (text : string) : string :=
  replaceAll "'" "&apos;"
    (replaceAll doubleQuote "&quot;"
       (replaceAll ">" "&gt;"
          (replaceAll "<" "&lt;"
             (replaceAll "&" "&amp;" text)))).

Definition quoted (s : string) : string :=
  String doubleQuote (s +:+ String doubleQuote EmptyString).

Definition twimlResponse (message : string) : string :=
  "<?xml version=" +:+ quoted "1.0" +:+ " encoding=" +:+ quoted "UTF-8" +:+ "?>"
  +:+ String "010" "<Response>"
  +:+ String "010" "  <Message>" +:+ escapeXml message +:+ "</Message>"
  +:+ String "010" "</Response>".

(** The characters that open or close markup or an attribute value (this
    only serves to state properties of [escapeXml]). *)
Definition markup (c : ascii) : bool :=
  Ascii.eqb c "<" || Ascii.eqb c ">" || Ascii.eqb c doubleQuote || Ascii.eqb c "'".

End Twilio.

(** ** The results page ([ResultsPage] of the results route) *)

Module ResultsPage.

Local Open Scope nat_scope.

(** A match with its joined player rows. *)
Record MatchWithPlayers : Type := mkJoined {
  row : Match.t;
  player1 : option Player.t;
  player2 : option Player.t
}.

(** [matches?.find((m) => m.round_number === Math.max(...))]: the first
    match, in the order of the query, of the highest round. *)
Definition finalMatch (matches : list MatchWithPlayers) : option MatchWithPlayers :=
  List.find
    (fun m => Match.round_number (row m) =? BracketLib.maxRound (map row matches))
    matches.

(** [finalMatch.winner_id === finalMatch.player1_id] *)
Definition wonByPlayer1 (m : MatchWithPlayers) : bool :=
  optStringEqb (Match.winner_id (row m)) (Match.player1_id (row m)).

(** [divisionData.winner], unset unless [finalMatch?.winner_id] is truthy. *)
Definition winner (matches : list MatchWithPlayers) : option Player.t :=
  match finalMatch matches with
  | Some m =>
      if Js.truthyOpt (Match.winner_id (row m)) then
        if wonByPlayer1 m then player1 m else player2 m
      else None
  | None => None
  end.

Definition runnerUp (matches : list MatchWithPlayers) : option Player.t :=
  match finalMatch matches with
  | Some m =>
      if Js.truthyOpt (Match.winner_id (row m)) then
        if wonByPlayer1 m then player2 m else player1 m
      else None
  | None => None
  end.

(** The joined rows are the rows of the match's player ids. *)
Definition joined (m : MatchWithPlayers) : Prop :=
  Sms.playerId (player1 m) = Match.player1_id (row m)
  /\ Sms.playerId (player2 m) = Match.player2_id (row m).

End ResultsPage.

(** ** The bracket view ([BracketDisplay]) *)

Module BracketDisplay.

Local Open Scope nat_scope.

(** [rounds[match.round_number].push(match)], the array created first
    where the round has none.  Only [round_number] and [match_number] of a
    match are used here; the joined player rows are left out. *)
Definition addToRound (rounds : gmap nat (list Match.t)) (m : Match.t)
  : gmap nat (list Match.t) :=
  let existing :=
    match rounds !! Match.round_number m with Some l => l | None => [] end in
  <[Match.round_number m := existing ++ [m]]> rounds.

Definition roundsData (matches : list Match.t) : gmap nat (list Match.t) :=
  BracketLib.sortByNumber <$> foldl addToRound ∅ matches.

(** [Object.keys(roundsData).map(Number).sort((a, b) => a - b)] *)
Definition roundNumbers (matches : list Match.t) : list nat :=
  BracketLib.sortNumbers (map fst (map_to_list (roundsData matches))).

(** [Math.max(...roundNumbers, 0)] *)
Definition maxRound (matches : list Match.t) : nat :=
  foldr Nat.max 0 (roundNumbers matches ++ [0]).

End BracketDisplay.

(** ** Views of a match row used to state properties *)

Module MatchRows.

(** The player ids a row holds: [player1_id], then [player2_id]. *)
Definition sides (m : Match.t) : list string :=
  match Match.player1_id m, Match.player2_id m with
  | Some a, Some b => [a; b]
  | Some a, None => [a]
  | None, Some b => [b]
  | None, None => []
  end.

Definition isByeRow (m : Match.t) : bool := MatchStatus_eqb (Match.status m) bye.

(** The columns of a row that a [BracketMatch] of the library has. *)
Definition toBracketMatch (m : Match.t) : BracketLib.BracketMatch.t :=
  {| BracketLib.BracketMatch.round_number := Match.round_number m;
     BracketLib.BracketMatch.match_number := Match.match_number m;
     BracketLib.BracketMatch.player1_id := Match.player1_id m;
     BracketLib.BracketMatch.player2_id := Match.player2_id m;
     BracketLib.BracketMatch.status := Match.status m;
     BracketLib.BracketMatch.winner_id := Match.winner_id m |}.

(** Rows in ascending [match_number], as a query ordered by it returns
    them. *)
Definition inNumberOrder (l : list Match.t) : Prop :=
  StronglySorted (fun a b => (Match.match_number a <= Match.match_number b)%nat) l.

(** One round of a knock-out: the entrants left after the round. *)
Definition halve (entrants : nat) : nat := ((entrants + 1) / 2)%nat.

End MatchRows.

(** ** Views of the bracket rows used to state properties *)

Module BracketRows.

(** The bracket of a type that [loadDivision] keeps: the last one of the
    rows read. *)
Definition isType (t : BracketType) (b : Bracket.t) : bool :=
  match t, Bracket.bracket_type b with
  | main, main | consolation, consolation | last_chance, last_chance => true
  | _, _ => false
  end.

Fixpoint lastOfType (t : BracketType) (rows : list Bracket.t) : option Bracket.t :=
  match rows with
  | [] => None
  | b :: rest =>
      match lastOfType t rest with
      | Some x => Some x
      | None => if isType t b then Some b else None
      end
  end.

(** What the writes of a round advance leave of a bracket row: its id,
    its division and its type. *)
Definition keepsIdentity (update : Bracket.t -> Bracket.t) : Prop :=
  forall b,
    Bracket.id (update b) = Bracket.id b
    /\ Bracket.division_id (update b) = Bracket.division_id b
    /\ Bracket.bracket_type (update b) = Bracket.bracket_type b.
End BracketRows.

(** ** Concrete tournaments used in the examples below *)

Module Examples.

(** A parse result that carries the two scores and nothing else. *)
Definition scoresOnly (s1 s2 : option Z) : ScoreParser.ParsedScore :=
  {| ScoreParser.player1Name := None; ScoreParser.player2Name := None;
     ScoreParser.player1Score := s1; ScoreParser.player2Score := s2;
     ScoreParser.winnerName := None; ScoreParser.confidence := ScoreParser.medium;
     ScoreParser.error := None |}.

Definition playerNamed (name : string) : Player.t :=
  {| Player.id := "id-" +:+ name; Player.name := name;
     Player.email := None; Player.phone := None |}.

Definition pendingMatch (bracket : string) (round number : nat)
    (p1 p2 : string) : Match.t :=
  {| Match.bracket_id := bracket;
     Match.round_number := round; Match.match_number := number;
     Match.player1_id := Some ("id-" +:+ p1);
     Match.player2_id := Some ("id-" +:+ p2);
     Match.winner_id := None;
     Match.player1_score := 0; Match.player2_score := 0;
     Match.table_number := Some number;
     Match.status := pending; Match.completed_at := None |}.

(** A race-to-9 match between John Smith and Sarah Jones. *)
Definition johnSarah : Sms.ActiveMatch :=
  {| Sms.id := "m1"; Sms.created_at := 20%nat;
     Sms.row := pendingMatch "main" 1 1 "John Smith" "Sarah Jones";
     Sms.match_length := 9;
     Sms.player1 := Some (playerNamed "John Smith");
     Sms.player2 := Some (playerNamed "Sarah Jones") |}.

(** A race-to-9 match between Mike and Lisa, created before [johnSarah]. *)
Definition mikeLisa : Sms.ActiveMatch :=
  {| Sms.id := "m2"; Sms.created_at := 10%nat;
     Sms.row := pendingMatch "consolation" 1 1 "Mike" "Lisa";
     Sms.match_length := 9;
     Sms.player1 := Some (playerNamed "Mike");
     Sms.player2 := Some (playerNamed "Lisa") |}.

(** A second active match of John Smith, created before [johnSarah]. *)
Definition johnLisa : Sms.ActiveMatch :=
  {| Sms.id := "m3"; Sms.created_at := 10%nat;
     Sms.row := pendingMatch "consolation" 1 2 "John Smith" "Lisa";
     Sms.match_length := 9;
     Sms.player1 := Some (playerNamed "John Smith");
     Sms.player2 := Some (playerNamed "Lisa") |}.

Definition store0 : Sms.Store :=
  {| Sms.matches := {[ "m1" := Sms.row johnSarah; "m2" := Sms.row mikeLisa ]};
     Sms.score_reports := ∅ |}.

(** John reports his win; every write goes through. *)
Definition johnReports : Sms.Env :=
  {| Sms.from := "+15550100"; Sms.body := "John 9 Sarah 4";
     Sms.player := Some (playerNamed "John Smith");
     Sms.activeMatches := [johnSarah];
     Sms.now := 1000%nat; Sms.reportId := "r1";
     Sms.reportError := false; Sms.matchError := false;
     Sms.approveError := false |}.

(** Mike reports a win over Lisa with scores that are no race to 9. *)
Definition mikeReports : Sms.Env :=
  {| Sms.from := "+15550101"; Sms.body := "Mike beat Lisa 7-2";
     Sms.player := Some (playerNamed "Mike");
     Sms.activeMatches := [mikeLisa];
     Sms.now := 2000%nat; Sms.reportId := "r2";
     Sms.reportError := false; Sms.matchError := false;
     Sms.approveError := false |}.

(** Lisa reports her win over Mike, winner first, in a race to 9. *)
Definition lisaReports : Sms.Env :=
  {| Sms.from := "+15550102"; Sms.body := "Lisa beat Mike 9-7";
     Sms.player := Some (playerNamed "Lisa");
     Sms.activeMatches := [mikeLisa];
     Sms.now := 3000%nat; Sms.reportId := "r3";
     Sms.reportError := false; Sms.matchError := false;
     Sms.approveError := false |}.

(** A queue of two reports: one of trust 90 on match m1, one of trust 40
    on match m2. *)
Definition queuedReport (matchId : string) (s1 s2 : option Z) (trust : Z)
  : ScoreReport.t :=
  {| ScoreReport.match_id := matchId;
     ScoreReport.reported_by_phone := "+15550100";
     ScoreReport.reported_by_player_id := None;
     ScoreReport.raw_text := "";
     ScoreReport.parsed_winner_id := None;
     ScoreReport.parsed_player1_score := s1;
     ScoreReport.parsed_player2_score := s2;
     ScoreReport.confidence_score := Some trust;
     ScoreReport.status := report_pending;
     ScoreReport.approved_at := None |}.

Definition queue : list ScoreReportQueue.ScoreReportWithDetails :=
  [ {| ScoreReportQueue.id := "q1";
       ScoreReportQueue.report := queuedReport "m1" (Some 9) (Some 4) 90;
       ScoreReportQueue.matchRow := Some (Sms.row johnSarah) |};
    {| ScoreReportQueue.id := "q2";
       ScoreReportQueue.report := queuedReport "m2" (Some 7) (Some 2) 40;
       ScoreReportQueue.matchRow := Some (Sms.row mikeLisa) |} ].

Definition queueStore : Sms.Store :=
  {| Sms.matches := Sms.matches store0;
     Sms.score_reports :=
       {[ "q1" := queuedReport "m1" (Some 9) (Some 4) 90;
          "q2" := queuedReport "m2" (Some 7) (Some 2) 40 ]} |}.

(** Three players. *)
Definition threePlayers : list Player.t :=
  [playerNamed "Ann"; playerNamed "Bob"; playerNamed "Cy"].

(** A two-player division whose only round-1 match is decided. *)
Definition decidedFinal : Director.DivisionWithBrackets :=
  {| Director.division_id := "d1"; Director.match_length := 9;
     Director.mainBracket :=
       Some {| Director.id := "main"; Director.bracket_type := main;
               Director.current_round := 1;
               Director.status := bracket_in_progress;
               Director.matches :=
                 [ {| Match.bracket_id := "main";
                      Match.round_number := 1; Match.match_number := 1;
                      Match.player1_id := Some "id-Ann";
                      Match.player2_id := Some "id-Bob";
                      Match.winner_id := Some "id-Ann";
                      Match.player1_score := 9; Match.player2_score := 4;
                      Match.table_number := Some 1%nat;
                      Match.status := completed;
                      Match.completed_at := Some 500%nat |} ] |};
     Director.consolationBracket :=
       Some {| Director.id := "cons"; Director.bracket_type := consolation;
               Director.current_round := 1;
               Director.status := bracket_pending;
               Director.matches := [] |} |}.

(** A four-player division whose two round-1 matches are decided. *)
Definition decidedSemis : Director.DivisionWithBrackets :=
  {| Director.division_id := "d2"; Director.match_length := 9;
     Director.mainBracket :=
       Some {| Director.id := "main"; Director.bracket_type := main;
               Director.current_round := 1;
               Director.status := bracket_in_progress;
               Director.matches :=
                 [ {| Match.bracket_id := "main";
                      Match.round_number := 1; Match.match_number := 1;
                      Match.player1_id := Some "id-Ann";
                      Match.player2_id := Some "id-Bob";
                      Match.winner_id := Some "id-Ann";
                      Match.player1_score := 9; Match.player2_score := 4;
                      Match.table_number := Some 1%nat;
                      Match.status := completed;
                      Match.completed_at := Some 500%nat |};
                   {| Match.bracket_id := "main";
                      Match.round_number := 1; Match.match_number := 2;
                      Match.player1_id := Some "id-Cy";
                      Match.player2_id := Some "id-Di";
                      Match.winner_id := Some "id-Di";
                      Match.player1_score := 3; Match.player2_score := 9;
                      Match.table_number := Some 2%nat;
                      Match.status := completed;
                      Match.completed_at := Some 600%nat |} ] |};
     Director.consolationBracket := None |}.

(** Two semi-finals as the results page reads them: the first is
    decided, the second is still to be played. *)
Definition semisUnderway : list ResultsPage.MatchWithPlayers :=
  [ {| ResultsPage.row :=
         {| Match.bracket_id := "main";
            Match.round_number := 1; Match.match_number := 1;
            Match.player1_id := Some "id-Ann";
            Match.player2_id := Some "id-Bob";
            Match.winner_id := Some "id-Ann";
            Match.player1_score := 9; Match.player2_score := 4;
            Match.table_number := Some 1%nat;
            Match.status := completed;
            Match.completed_at := Some 500%nat |};
       ResultsPage.player1 := Some (playerNamed "Ann");
       ResultsPage.player2 := Some (playerNamed "Bob") |};
    {| ResultsPage.row := pendingMatch "main" 1 2 "Cy" "Di";
       ResultsPage.player1 := Some (playerNamed "Cy");
       ResultsPage.player2 := Some (playerNamed "Di") |} ].

(** The store behind [decidedFinal] and the one behind [decidedSemis]. *)
Definition finalStore : Director.Store :=
  {| Director.divisionRows :=
       [ {| Division.id := "d1"; Division.match_length := 9 |} ];
     Director.bracketRows :=
       [ {| Bracket.id := "main"; Bracket.division_id := "d1";
            Bracket.bracket_type := main; Bracket.current_round := 1;
            Bracket.status := bracket_in_progress |};
         {| Bracket.id := "cons"; Bracket.division_id := "d1";
            Bracket.bracket_type := consolation; Bracket.current_round := 1;
            Bracket.status := bracket_pending |} ];
     Director.matchRows :=
       Director.matchesOf (Director.mainBracket decidedFinal) |}.

Definition semisStore : Director.Store :=
  {| Director.divisionRows :=
       [ {| Division.id := "d2"; Division.match_length := 9 |} ];
     Director.bracketRows :=
       [ {| Bracket.id := "main"; Bracket.division_id := "d2";
            Bracket.bracket_type := main; Bracket.current_round := 1;
            Bracket.status := bracket_in_progress |} ];
     Director.matchRows :=
       Director.matchesOf (Director.mainBracket decidedSemis) |}.

(** The state of the page after its first [loadData] on a store. *)
Definition firstLoad (db : Director.Store) : Director.State :=
  Director.loadData Director.allRead db
    {| Director.divisions := []; Director.activeTab := "" |}.

(** The main bracket of [decidedSemis]. *)
Definition semisBracket : Director.BracketWithMatches :=
  {| Director.id := "main"; Director.bracket_type := main;
     Director.current_round := 1;
     Director.status := bracket_in_progress;
     Director.matches := Director.matchesOf (Director.mainBracket decidedSemis) |}.

End Examples.

(** * Properties *)

(** ** The score validator *)

Section ValidateScore.
Import ScoreParser Examples.

Lemma validateScore_reads_scores (parsed : ParsedScore) (n : Z) :
  validateScore parsed n
  = validateScore (scoresOnly (player1Score parsed) (player2Score parsed)) n.
Proof. reflexivity. Qed.

Lemma validateScore_present (parsed : ParsedScore) (n : Z) :
  valid (validateScore parsed n) = true ->
  exists s1 s2, player1Score parsed = Some s1 /\ player2Score parsed = Some s2.
Proof.
  unfold validateScore.
  destruct (player1Score parsed) as [s1|], (player2Score parsed) as [s2|];
    try discriminate.
  intros _. eauto.
Qed.

Lemma validateScore_valid_scores (parsed : ParsedScore) (n s1 s2 : Z) :
  player1Score parsed = Some s1 -> player2Score parsed = Some s2 ->
  valid (validateScore parsed n) = true <->
  0 <= s1 /\ 0 <= s2 /\ ((s1 = n /\ s2 < n) \/ (s2 = n /\ s1 < n)).
Proof.
  intros H1 H2. unfold validateScore. rewrite H1, H2.
  destruct (Z.eqb_spec s1 n), (Z.eqb_spec s2 n), (Z.eqb_spec s1 s2),
    (Z.ltb_spec s1 0), (Z.ltb_spec s2 0),
    (Z.geb_spec (Z.min s1 s2) n); simpl; split; intros; try discriminate;
    try reflexivity; lia.
Qed.

Lemma validateScore_invalid_has_reason (parsed : ParsedScore) (n : Z) :
  valid (validateScore parsed n) = false ->
  is_Some (reason (validateScore parsed n)).
Proof.
  unfold validateScore.
  destruct (player1Score parsed) as [s1|], (player2Score parsed) as [s2|];
    simpl; eauto.
  repeat match goal with
         | |- context [if ?b then _ else _] => destruct b
         end; simpl; eauto; discriminate.
Qed.

(** C7.  [validateScore] accepts a parsed score exactly when both scores
    are present, both are non-negative, exactly one of them equals the
    match length and the other one is strictly below it; an accepted
    score carries no reason.  Each way of failing is answered with
    [valid] false and a reason of its own: a missing score, no score at
    the match length, a tie at the match length, a negative score, and an
    other score that is not below the match length; the five reasons are
    pairwise different, and each is reached by an input that breaks that
    check alone (shown for match length 9). *)
Theorem validateScore_checks (parsed : ParsedScore) (n : Z) :
  let v := validateScore parsed n in
  (valid v = true <->
     exists s1 s2,
       player1Score parsed = Some s1 /\ player2Score parsed = Some s2 /\
       0 <= s1 /\ 0 <= s2 /\
       ((s1 = n /\ s2 <> n /\ s2 < n) \/ (s2 = n /\ s1 <> n /\ s1 < n)))
  /\ (valid v = true -> reason v = None)
  /\ (valid v = false -> exists msg, reason v = Some msg)
  /\ (player1Score parsed = None \/ player2Score parsed = None ->
        valid v = false /\ reason v = Some "Could not determine both scores")
  /\ (forall s1 s2,
        player1Score parsed = Some s1 -> player2Score parsed = Some s2 ->
        (s1 <> n /\ s2 <> n ->
           valid v = false
           /\ reason v = Some ("One player must reach " +:+ pretty n +:+ " points"))
        /\ (s1 = n /\ s2 = n ->
              valid v = false /\ reason v = Some "Scores cannot be tied")
        /\ ((s1 = n \/ s2 = n) /\ s1 <> s2 /\ (s1 < 0 \/ s2 < 0) ->
              valid v = false /\ reason v = Some "Scores must be positive")
        /\ ((s1 = n \/ s2 = n) /\ s1 <> s2 /\ 0 <= s1 /\ 0 <= s2
              /\ n <= Z.min s1 s2 ->
              valid v = false
              /\ reason v = Some "Losing score must be less than match length"))
  /\ NoDup
       [ Some "Could not determine both scores";
         Some ("One player must reach " +:+ pretty n +:+ " points");
         Some "Scores cannot be tied";
         Some "Scores must be positive";
         Some "Losing score must be less than match length";
         None ]
  /\ validateScore (scoresOnly (Some 9) None) 9
       = {| valid := false; reason := Some "Could not determine both scores" |}
  /\ validateScore (scoresOnly (Some 7) (Some 2)) 9
       = {| valid := false; reason := Some "One player must reach 9 points" |}
  /\ validateScore (scoresOnly (Some 9) (Some 9)) 9
       = {| valid := false; reason := Some "Scores cannot be tied" |}
  /\ validateScore (scoresOnly (Some 9) (Some (-1))) 9
       = {| valid := false; reason := Some "Scores must be positive" |}
  /\ validateScore (scoresOnly (Some 9) (Some 10)) 9
       = {| valid := false;
            reason := Some "Losing score must be less than match length" |}
  /\ validateScore (scoresOnly (Some 9) (Some 4)) 9
       = {| valid := true; reason := None |}.
Proof.
  cbv zeta. repeat apply conj.
  - intros Hv.
    destruct (validateScore_present _ _ Hv) as (s1 & s2 & H1 & H2).
    exists s1, s2. pose proof (proj1 (validateScore_valid_scores _ n _ _ H1 H2) Hv).
    repeat split; try tauto; lia.
  - intros (s1 & s2 & H1 & H2 & ?). apply (validateScore_valid_scores _ n _ _ H1 H2). lia.
  - unfold validateScore.
    destruct (player1Score parsed), (player2Score parsed); try discriminate.
    repeat match goal with
           | |- context [if ?b then _ else _] => destruct b
           end; simpl; (discriminate || reflexivity).
  - intros Hv. destruct (validateScore_invalid_has_reason _ _ Hv) as [msg Hmsg].
    exists msg. exact Hmsg.
  - unfold validateScore.
    intros [-> | H]; [split; reflexivity |].
    rewrite H. destruct (player1Score parsed); split; reflexivity.
  - intros s1 s2 H H0. unfold validateScore. rewrite H, H0.
    repeat apply conj.
    + intros [? ?].
      destruct (Z.eqb_spec s1 n), (Z.eqb_spec s2 n); simpl; try lia.
      split; reflexivity.
    + intros [-> ->]. rewrite !Z.eqb_refl. split; reflexivity.
    + intros (? & ? & ?).
      destruct (Z.eqb_spec s1 n), (Z.eqb_spec s2 n), (Z.eqb_spec s1 s2),
        (Z.ltb_spec s1 0), (Z.ltb_spec s2 0); simpl; try lia; split; reflexivity.
    + intros (? & ? & ? & ? & ?).
      destruct (Z.eqb_spec s1 n), (Z.eqb_spec s2 n), (Z.eqb_spec s1 s2),
        (Z.ltb_spec s1 0), (Z.ltb_spec s2 0),
        (Z.geb_spec (Z.min s1 s2) n); simpl; try lia; split; reflexivity.
  - repeat constructor; simpl; rewrite ?elem_of_cons, ?elem_of_nil; intuition discriminate.
  - reflexivity.
  - reflexivity.
  - reflexivity.
  - reflexivity.
  - reflexivity.
  - reflexivity.
Qed.

End ValidateScore.

(** ** The score text parser *)

Section ParseScoreText.
Import ScoreParser Regex.

(** The three tiers, by what [exec] finds. *)
Lemma parseScoreText_tier1 (text : string) (caps : Captures) :
  exec pattern1 text = Some caps ->
  confidence (parseScoreText text) = high
  /\ error (parseScoreText text) = None
  /\ player1Score (parseScoreText text) = Some (Js.parseInt (group 2 caps))
  /\ player2Score (parseScoreText text) = Some (Js.parseInt (group 4 caps)).
Proof. intros H. unfold parseScoreText. rewrite H. repeat split. Qed.

Lemma parseScoreText_tier2 (text : string) (caps : Captures) :
  exec pattern1 text = None -> exec pattern2 text = Some caps ->
  confidence (parseScoreText text) = high
  /\ error (parseScoreText text) = None
  /\ winnerName (parseScoreText text) = Some (group 1 caps)
  /\ player1Score (parseScoreText text) = Some (Js.parseInt (group 3 caps))
  /\ player2Score (parseScoreText text) = Some (Js.parseInt (group 4 caps)).
Proof. intros H1 H2. unfold parseScoreText. rewrite H1, H2. repeat split. Qed.

Lemma parseScoreText_tier3 (text : string) (caps : Captures) :
  exec pattern1 text = None -> exec pattern2 text = None ->
  exec pattern3 text = Some caps ->
  parseScoreText text
  = {| player1Name := None; player2Name := None;
       player1Score := Some (Js.parseInt (group 1 caps));
       player2Score := Some (Js.parseInt (group 2 caps));
       winnerName := None; confidence := medium; error := None |}.
Proof. intros H1 H2 H3. unfold parseScoreText. rewrite H1, H2, H3. reflexivity. Qed.

Lemma parseScoreText_tier4 (text : string) :
  exec pattern1 text = None -> exec pattern2 text = None ->
  exec pattern3 text = None ->
  parseScoreText text = couldNotParse.
Proof. intros H1 H2 H3. unfold parseScoreText. rewrite H1, H2, H3. reflexivity. Qed.

(** A result without both scores comes from the last tier only. *)
Lemma parseScoreText_scores_or_low (text : string) :
  (is_Some (player1Score (parseScoreText text))
   /\ is_Some (player2Score (parseScoreText text)))
  \/ parseScoreText text = couldNotParse.
Proof.
  unfold parseScoreText.
  destruct (exec pattern1 text); [left; simpl; eauto |].
  destruct (exec pattern2 text); [left; simpl; eauto |].
  destruct (exec pattern3 text); [left; simpl; eauto | right; reflexivity].
Qed.

(** C9.  [parseScoreText] returns a result for every text (it is a total
    function: structural recursion over the expression and the text, no
    fuel and no exception path).  The result has confidence low exactly
    when none of the three expressions matches anywhere in the text, and
    then it is the record that carries the error "Could not parse score
    from text" and no name and no score; in every other case it carries
    no error and both scores. *)
Theorem parseScoreText_total (text : string) :
  exists r : ParsedScore,
    parseScoreText text = r
    /\ (confidence r = low <->
          exec pattern1 text = None /\ exec pattern2 text = None
          /\ exec pattern3 text = None)
    /\ (confidence r = low ->
          r = {| player1Name := None; player2Name := None;
                 player1Score := None; player2Score := None;
                 winnerName := None; confidence := low;
                 error := Some "Could not parse score from text" |})
    /\ (confidence r <> low ->
          error r = None /\ is_Some (player1Score r) /\ is_Some (player2Score r)).
Proof.
  exists (parseScoreText text). split; [reflexivity |].
  unfold parseScoreText.
  destruct (exec pattern1 text) as [c1|];
    [simpl; repeat split; try discriminate; eauto; intros (? & _); discriminate |].
  destruct (exec pattern2 text) as [c2|];
    [simpl; repeat split; try discriminate; eauto; intros (_ & ? & _); discriminate |].
  destruct (exec pattern3 text) as [c3|];
    [simpl; repeat split; try discriminate; eauto; intros (_ & _ & ?); discriminate |].
  simpl. repeat split; congruence.
Qed.

(** C8 (the text "9 4").  Two numbers separated by a space only are not
    recognised: the third expression asks for a dash or a colon between
    them, so the text falls through to the last tier, while the same
    numbers with a dash or a colon give the medium-confidence result. *)
Theorem parseScoreText_space_separated :
  parseScoreText "9 4"
  = {| player1Name := None; player2Name := None;
       player1Score := None; player2Score := None;
       winnerName := None; confidence := low;
       error := Some "Could not parse score from text" |}
  /\ exec pattern1 "9 4" = None /\ exec pattern2 "9 4" = None
  /\ exec pattern3 "9 4" = None
  /\ parseScoreText "9-4"
     = {| player1Name := None; player2Name := None;
          player1Score := Some 9; player2Score := Some 4;
          winnerName := None; confidence := medium; error := None |}
  /\ parseScoreText "Won 9 : 5"
     = {| player1Name := None; player2Name := None;
          player1Score := Some 9; player2Score := Some 5;
          winnerName := None; confidence := medium; error := None |}.
Proof. repeat split; vm_compute; reflexivity. Qed.

End ParseScoreText.

(** ** The SMS intake: target match, winner, trust *)

Section Intake.
Import ScoreParser Sms.

Lemma find_first {A : Type} (f : A -> bool) (l : list A) (x : A) :
  List.find f l = Some x ->
  exists before after,
    l = before ++ x :: after
    /\ forallb (fun y => negb (f y)) before = true /\ f x = true.
Proof.
  induction l as [|a l IH]; simpl; [discriminate |].
  destruct (f a) eqn:Hfa.
  - intros [= ->]. exists [], l. auto.
  - intros H. destruct (IH H) as (before & after & -> & Hb & Hx).
    exists (a :: before), after. simpl. rewrite Hfa, Hb. auto.
Qed.

Lemma find_nowhere {A : Type} (f : A -> bool) (l : list A) :
  List.find f l = None -> forallb (fun y => negb (f y)) l = true.
Proof.
  induction l as [|a l IH]; simpl; [reflexivity |].
  destruct (f a); [discriminate |]. auto.
Qed.

(** C5, as the code has it.  With at least one active match the selection
    is always made.  A single active match is the target.  Among several,
    the target is the first row, in the order of the query result, one of
    whose participants' names occurs in the text (both lower-cased; a
    missing participant counts as the empty name); when no row qualifies
    the target is the first row of the query result. *)
Theorem selectTargetMatch_first_mentioned
    (body : string) (first : ActiveMatch) (rest : list ActiveMatch) :
  exists target,
    selectTargetMatch body (first :: rest) = Some target
    /\ In target (first :: rest)
    /\ (rest = [] -> target = first)
    /\ (rest <> [] ->
          (exists before after,
              first :: rest = before ++ target :: after
              /\ forallb (fun m => negb (mentions (Js.toLowerCase body) m)) before = true
              /\ mentions (Js.toLowerCase body) target = true)
          \/ (forallb (fun m => negb (mentions (Js.toLowerCase body) m))
                (first :: rest) = true
              /\ target = first)).
Proof.
  unfold selectTargetMatch.
  destruct rest as [|second rest].
  - exists first. simpl. repeat split; auto; congruence.
  - replace (1 <? length (first :: second :: rest))%nat with true by reflexivity.
    destruct (List.find (mentions (Js.toLowerCase body)) (first :: second :: rest))
      as [m|] eqn:Hfind.
    + exists m. destruct (find_first _ _ _ Hfind) as (before & after & Heq & Hb & Hm).
      repeat split.
      * apply (find_some _ _ Hfind).
      * discriminate.
      * intros _. left. exists before, after. auto.
    + exists first. repeat split.
      * left; reflexivity.
      * intros _. right. split; [| reflexivity].
        apply find_nowhere; assumption.
Qed.

(** C5, the counterexample.  John Smith has two active matches and the
    text names nobody; the store returns the later-created match first,
    and that one becomes the target, not the earliest-created one. *)
Lemma selectTargetMatch_not_earliest :
  forallb (fun m => negb (mentions (Js.toLowerCase "9-5") m))
    [Examples.johnSarah; Examples.johnLisa] = true
  /\ selectTargetMatch "9-5" [Examples.johnSarah; Examples.johnLisa]
     = Some Examples.johnSarah
  /\ (created_at Examples.johnLisa < created_at Examples.johnSarah)%nat.
Proof. repeat split; vm_compute; (reflexivity || lia). Qed.

(** ** Winner resolution *)

Lemma resolveWinner_needs_valid
    (parsed : ParsedScore) (targetMatch : ActiveMatch) (matchLength : Z) :
  valid (validateScore parsed matchLength) = false ->
  resolveWinner parsed targetMatch matchLength = None.
Proof.
  intros Hv. unfold resolveWinner. rewrite Hv.
  destruct (player1Score parsed), (player2Score parsed); reflexivity.
Qed.

Lemma winnerByName_first (parsed : ParsedScore) (targetMatch : ActiveMatch)
    (name : string) :
  winnerName parsed = Some name -> name <> EmptyString ->
  nameIncludes (player1 targetMatch) (Js.toLowerCase name) = true ->
  winnerByName parsed targetMatch = playerId (player1 targetMatch).
Proof.
  intros Hn Hne H1. unfold winnerByName. rewrite Hn.
  destruct name; [congruence |]. simpl Js.truthy. cbv iota. rewrite H1. reflexivity.
Qed.

Lemma winnerByName_second (parsed : ParsedScore) (targetMatch : ActiveMatch)
    (name : string) :
  winnerName parsed = Some name -> name <> EmptyString ->
  nameIncludes (player1 targetMatch) (Js.toLowerCase name) = false ->
  nameIncludes (player2 targetMatch) (Js.toLowerCase name) = true ->
  winnerByName parsed targetMatch = playerId (player2 targetMatch).
Proof.
  intros Hn Hne H1 H2. unfold winnerByName. rewrite Hn.
  destruct name; [congruence |]. simpl Js.truthy. cbv iota. rewrite H1, H2. reflexivity.
Qed.

Lemma winnerByName_neither (parsed : ParsedScore) (targetMatch : ActiveMatch) :
  (forall name, winnerName parsed = Some name ->
     nameIncludes (player1 targetMatch) (Js.toLowerCase name) = false
     /\ nameIncludes (player2 targetMatch) (Js.toLowerCase name) = false) ->
  winnerByName parsed targetMatch = None.
Proof.
  intros H. unfold winnerByName.
  destruct (winnerName parsed) as [name|]; [| reflexivity].
  destruct (H name eq_refl) as [-> ->]. destruct (Js.truthy name); reflexivity.
Qed.

(** C4, as the code has it.  The winner is resolved only for a report
    whose two scores pass [validateScore]; a report that fails it, or
    lacks a score, leaves the winner unbound whatever name it carries.
    For a valid report: (i) a named winner whose lower-cased name occurs
    in the lower-cased name of the first participant binds that
    participant, otherwise one that occurs in the second participant's
    name binds the second; (ii) when no participant is bound by name, the
    side with the higher score is bound (the scores of a valid report
    differ). *)
Theorem resolveWinner_order
    (parsed : ParsedScore) (targetMatch : ActiveMatch) (matchLength : Z) :
  let winner := resolveWinner parsed targetMatch matchLength in
  (valid (validateScore parsed matchLength) = false -> winner = None)
  /\ (valid (validateScore parsed matchLength) = true ->
      exists s1 s2,
        player1Score parsed = Some s1 /\ player2Score parsed = Some s2
        /\ s1 <> s2
        /\ (forall name p,
              winnerName parsed = Some name -> name <> EmptyString ->
              player1 targetMatch = Some p -> Player.id p <> EmptyString ->
              Js.includes (Js.toLowerCase (Player.name p)) (Js.toLowerCase name) = true ->
              winner = Some (Player.id p))
        /\ (forall name p,
              winnerName parsed = Some name -> name <> EmptyString ->
              nameIncludes (player1 targetMatch) (Js.toLowerCase name) = false ->
              player2 targetMatch = Some p -> Player.id p <> EmptyString ->
              Js.includes (Js.toLowerCase (Player.name p)) (Js.toLowerCase name) = true ->
              winner = Some (Player.id p))
        /\ ((forall name, winnerName parsed = Some name ->
               nameIncludes (player1 targetMatch) (Js.toLowerCase name) = false
               /\ nameIncludes (player2 targetMatch) (Js.toLowerCase name) = false) ->
            (s2 < s1 -> winner = Match.player1_id (row targetMatch))
            /\ (s1 < s2 -> winner = Match.player2_id (row targetMatch)))).
Proof.
  cbv zeta. split; [apply resolveWinner_needs_valid |].
  intros Hv.
  destruct (validateScore_present _ _ Hv) as (s1 & s2 & H1 & H2).
  pose proof (proj1 (validateScore_valid_scores _ matchLength _ _ H1 H2) Hv) as Hs.
  exists s1, s2. split; [assumption |]. split; [assumption |].
  split; [lia |].
  unfold resolveWinner. rewrite H1, H2, Hv.
  repeat apply conj.
  - intros name p Hn Hne Hp Hid Hinc.
    rewrite (winnerByName_first parsed targetMatch name Hn Hne)
      by (unfold nameIncludes; rewrite Hp; exact Hinc).
    rewrite Hp. simpl. destruct (Player.id p); [congruence | reflexivity].
  - intros name p Hn Hne Hno Hp Hid Hinc.
    rewrite (winnerByName_second parsed targetMatch name Hn Hne Hno)
      by (unfold nameIncludes; rewrite Hp; exact Hinc).
    rewrite Hp. simpl. destruct (Player.id p); [congruence | reflexivity].
  - intros Hnone. rewrite (winnerByName_neither _ _ Hnone). simpl.
    destruct (Z.gtb_spec s1 s2); split; intros Hlt; (reflexivity || lia).
Qed.

(** C4, the counterexample.  "Mike beat Lisa 7-2" in a race to 9 names
    Mike, a participant of the match, as winner; the scores fail
    validation and the winner stays unbound. *)
Lemma resolveWinner_named_but_unbound :
  winnerName (parseScoreText "Mike beat Lisa 7-2") = Some "Mike"
  /\ nameIncludes (player1 Examples.mikeLisa) (Js.toLowerCase "Mike") = true
  /\ valid (validateScore (parseScoreText "Mike beat Lisa 7-2") 9) = false
  /\ resolveWinner (parseScoreText "Mike beat Lisa 7-2") Examples.mikeLisa 9 = None.
Proof. repeat split; vm_compute; reflexivity. Qed.

(** ** The trust score *)

Lemma confidenceScore_of_parse (text : string) (matchLength : Z) :
  let parsed := parseScoreText text in
  let trust := confidenceScore parsed matchLength in
  if valid (validateScore parsed matchLength)
  then trust = baseConfidence (confidence parsed)
  else trust = Z.min (baseConfidence (confidence parsed)) 40.
Proof.
  cbv zeta.
  destruct (parseScoreText_scores_or_low text) as [[[s1 H1] [s2 H2]] | Hlow].
  - unfold confidenceScore. rewrite H1, H2.
    destruct (valid (validateScore (parseScoreText text) matchLength)); reflexivity.
  - rewrite Hlow. reflexivity.
Qed.




(** ** The auto-approval writes *)

Lemma completeMatch_status (key : string) (winner : option string) (s1 s2 : Z)
    (t : Timestamp) (db : Store) :
  is_Some (matches db !! key) ->
  matches (completeMatch key winner s1 s2 t db) !! key
  = completeRow winner s1 s2 t <$> matches db !! key
  /\ matchStatusIn (completeMatch key winner s1 s2 t db) key = Some completed.
Proof.
  intros [m Hm]. unfold matchStatusIn, completeMatch. simpl.
  rewrite lookup_alter_eq, Hm. split; reflexivity.
Qed.

(** C2, as the code has it.  When the auto-approval condition holds and
    the store accepts the three writes, the handler makes them one after
    the other: it inserts the report as pending (the match untouched),
    then completes the match with the parsed winner, scores and the
    current time (the report still pending), then marks the report
    approved.  The store after the second write holds a completed match
    whose report is not approved. *)
Theorem auto_approval_writes (env : Env) (db : Store)
    (sender : Player.t) (targetMatch : ActiveMatch) (s1 s2 : Z) :
  player env = Some sender ->
  selectTargetMatch (body env) (activeMatches env) = Some targetMatch ->
  autoApproves
    (confidenceScore (parseScoreText (body env)) (matchLengthOf targetMatch))
    (resolveWinner (parseScoreText (body env)) targetMatch (matchLengthOf targetMatch))
    (parseScoreText (body env)) = Some (s1, s2) ->
  reportError env = false -> matchError env = false -> approveError env = false ->
  is_Some (matches db !! id targetMatch) ->
  let winner :=
    resolveWinner (parseScoreText (body env)) targetMatch (matchLengthOf targetMatch) in
  exists db1 db2 db3,
    fst (POST env db) = [db1; db2; db3]
    /\ matches db1 = matches db
    /\ reportStatusIn db1 (reportId env) = Some report_pending
    /\ matches db2 !! id targetMatch
       = completeRow winner s1 s2 (now env) <$> matches db !! id targetMatch
    /\ matchStatusIn db2 (id targetMatch) = Some completed
    /\ reportStatusIn db2 (reportId env) = Some report_pending
    /\ appliedButUnapproved (id targetMatch) (reportId env) db2 = true
    /\ matches db3 = matches db2
    /\ matchStatusIn db3 (id targetMatch) = Some completed
    /\ reportStatusIn db3 (reportId env) = Some approved
    /\ appliedButUnapproved (id targetMatch) (reportId env) db3 = false.
Proof.
  intros Hp Ht Ha He Hm Happ Hrow. cbv zeta.
  unfold POST. rewrite Hp, Ht, He, Ha, Hm, Happ.
  eexists _, _, _. split; [reflexivity |].
  set (db1 := insertReport _ _ db).
  assert (Hrow1 : is_Some (matches db1 !! id targetMatch)) by exact Hrow.
  destruct (completeMatch_status (id targetMatch)
              (resolveWinner (parseScoreText (body env)) targetMatch
                 (matchLengthOf targetMatch)) s1 s2 (now env) db1 Hrow1)
    as [Hlook Hstatus].
  assert (Hr1 : reportStatusIn db1 (reportId env) = Some report_pending).
  { unfold reportStatusIn, db1, insertReport. simpl.
    rewrite lookup_insert_eq. reflexivity. }
  assert (Hr3 : forall d, reportStatusIn d (reportId env) = Some report_pending ->
                reportStatusIn (approveReport (reportId env) (now env) d) (reportId env)
                = Some approved).
  { intros d Hd. unfold reportStatusIn, approveReport in *. simpl.
    rewrite lookup_alter_eq.
    destruct (score_reports d !! reportId env); [reflexivity | discriminate]. }
  set (db2 := completeMatch _ _ _ _ _ db1) in *.
  assert (Hr2 : reportStatusIn db2 (reportId env) = Some report_pending)
    by exact Hr1.
  repeat apply conj; try reflexivity; try assumption.
  - unfold appliedButUnapproved. rewrite Hstatus, Hr2. reflexivity.
  - apply Hr3. exact Hr2.
  - unfold appliedButUnapproved.
    change (matchStatusIn (approveReport (reportId env) (now env) db2) (id targetMatch))
      with (matchStatusIn db2 (id targetMatch)).
    rewrite Hstatus, (Hr3 _ Hr2). reflexivity.
Qed.

Lemma auto_approval_writes_witness :
  player Examples.johnReports = Some (Examples.playerNamed "John Smith")
  /\ selectTargetMatch (body Examples.johnReports)
       (activeMatches Examples.johnReports) = Some Examples.johnSarah
  /\ is_Some (matches Examples.store0 !! "m1")
  /\ exists db1 db2 db3,
       fst (POST Examples.johnReports Examples.store0) = [db1; db2; db3]
       /\ matches db1 = matches Examples.store0
       /\ reportStatusIn db1 "r1" = Some report_pending
       /\ matches db2 !! "m1"
          = completeRow (Some "id-John Smith") 9 4 1000%nat
              <$> matches Examples.store0 !! "m1"
       /\ matchStatusIn db2 "m1" = Some completed
       /\ reportStatusIn db2 "r1" = Some report_pending
       /\ appliedButUnapproved "m1" "r1" db2 = true
       /\ matches db3 = matches db2
       /\ matchStatusIn db3 "m1" = Some completed
       /\ reportStatusIn db3 "r1" = Some approved
       /\ appliedButUnapproved "m1" "r1" db3 = false.
Proof.
  split; [reflexivity |]. split; [reflexivity |].
  split; [vm_compute; eauto |].
  refine (auto_approval_writes Examples.johnReports Examples.store0
            (Examples.playerNamed "John Smith") Examples.johnSarah 9 4
            eq_refl eq_refl eq_refl eq_refl eq_refl eq_refl _).
  vm_compute; eauto.
Defined.

(** C2, the counterexample.  John's report "John 9 Sarah 4" meets the
    auto-approval condition.  Of the three stores the handler goes
    through, the second holds the match completed and the report still
    pending; and when the store refuses the last write, that is the state
    the handler leaves behind. *)
Lemma auto_approval_not_atomic :
  map (fun db => (matchStatusIn db "m1", reportStatusIn db "r1"))
    (fst (POST Examples.johnReports Examples.store0))
  = [ (Some pending, Some report_pending);
      (Some completed, Some report_pending);
      (Some completed, Some approved) ]
  /\ map (appliedButUnapproved "m1" "r1")
       (fst (POST Examples.johnReports Examples.store0))
     = [false; true; false]
  /\ map (appliedButUnapproved "m1" "r1")
       (fst (POST
          {| from := "+15550100"; body := "John 9 Sarah 4";
             player := Some (Examples.playerNamed "John Smith");
             activeMatches := [Examples.johnSarah];
             now := 1000%nat; reportId := "r1";
             reportError := false; matchError := false;
             approveError := true |}
          Examples.store0))
     = [false; true].
Proof. repeat split; vm_compute; reflexivity. Qed.

End Intake.

(** ** Loops that take two elements at a time *)

Section PairInduction.
Context {A : Type} (P : list A -> Prop).
Hypothesis Pnil : P [].
Hypothesis Pone : forall x, P [x].
Hypothesis Ptwo : forall x y l, P l -> P (x :: y :: l).

Lemma pair_induction (l : list A) : P l.
Proof.
  enough (H : P l /\ forall x, P (x :: l)) by exact (proj1 H).
  induction l as [|a l [IH1 IH2]]; split; auto.
Qed.
End PairInduction.

(** ** Round advancement *)

Section AdvanceRound.
Import Director.
Local Open Scope nat_scope.

Lemma insertOrdered_Permutation (m : Match.t) (l : list Match.t) :
  insertOrdered m l ≡ₚ m :: l.
Proof.
  induction l as [|x l IH]; simpl; [reflexivity |].
  destruct (rowBefore m x); [reflexivity |].
  rewrite IH. apply Permutation_swap.
Qed.

Lemma orderMatches_Permutation (l : list Match.t) : orderMatches l ≡ₚ l.
Proof.
  induction l as [|x l IH]; simpl; [reflexivity |].
  rewrite insertOrdered_Permutation. by rewrite IH.
Qed.

Lemma orderMatches_length (l : list Match.t) :
  length (orderMatches l) = length l.
Proof. by rewrite orderMatches_Permutation. Qed.

Lemma winnersOf_truthy (ms : list Match.t) :
  Forall (fun w => Js.truthy w = true) (winnersOf ms).
Proof.
  unfold winnersOf. induction ms as [|m ms IH]; simpl; [constructor |].
  unfold Js.orNull at 1.
  destruct (Match.winner_id m) as [w|]; simpl; [| exact IH].
  destruct (Js.truthy w) eqn:Hw; simpl; [constructor; assumption | exact IH].
Qed.

Lemma pairUp_length (bracketId : string) (nextRound : nat) (withTable : bool)
    (ids : list string) :
  forall matchNumber,
    length (pairUp bracketId nextRound matchNumber withTable ids)
    = (length ids + 1) / 2.
Proof.
  induction ids as [| x | x y l IH] using pair_induction; intros n.
  - reflexivity.
  - reflexivity.
  - cbn [pairUp length]. rewrite IH.
    replace (S (S (length l)) + 1) with ((length l + 1) + 1 * 2) by lia.
    rewrite Nat.div_add by lia. lia.
Qed.

Lemma forallb_false_of {A : Type} (f : A -> bool) (l : list A) (x : A) :
  In x l -> f x = false -> forallb f l = false.
Proof.
  intros Hin Hx. destruct (forallb f l) eqn:Hall; [| reflexivity].
  rewrite forallb_forall in Hall. rewrite (Hall x Hin) in Hx. discriminate.
Qed.

(** After an advance out of a round with two winners or more, the new
    round of the main bracket holds a match that is still to be played. *)
Lemma newMainMatches_pending (mainB : BracketWithMatches) :
  2 <= length (winnersOf
                 (List.filter (fun m => Match.round_number m =? current_round mainB)
                    (matches mainB))) ->
  exists m, In m (newMainMatches mainB)
            /\ Match.round_number m = current_round mainB + 1
            /\ Match.status m = pending.
Proof.
  unfold newMainMatches.
  pose proof (winnersOf_truthy
                (List.filter (fun m => Match.round_number m =? current_round mainB)
                   (matches mainB))) as Ht.
  destruct (winnersOf _) as [|w1 [|w2 ws]]; simpl; try lia.
  intros _. inversion Ht as [|? ? _ Ht']; subst. inversion Ht' as [|? ? Hw2 _]; subst.
  eexists. split; [left; reflexivity |]. simpl. rewrite Hw2. split; reflexivity.
Qed.

End AdvanceRound.

Section AdvanceRoundStore.
Import Director MatchRows.
Local Open Scope nat_scope.

(** The rows [pairUp] makes out of non-empty ids: all of the given round
    and bracket, numbered from [matchNumber] on, and their sides, in
    order, are the ids. *)
Lemma pairUp_shape (bracketId : string) (nextRound : nat) (withTable : bool)
    (ids : list string) :
  Forall (fun s => Js.truthy s = true) ids ->
  forall matchNumber,
    Forall (fun m => Match.round_number m = nextRound
                     /\ Match.bracket_id m = bracketId)
      (pairUp bracketId nextRound matchNumber withTable ids)
    /\ concat (map sides (pairUp bracketId nextRound matchNumber withTable ids)) = ids
    /\ map Match.match_number (pairUp bracketId nextRound matchNumber withTable ids)
       = seq matchNumber (length (pairUp bracketId nextRound matchNumber withTable ids)).
Proof.
  induction ids as [| x | x y l IH] using pair_induction; intros Hall n.
  - split; [constructor | split; reflexivity].
  - split; [repeat constructor | split; reflexivity].
  - apply Forall_cons in Hall as [_ Hall]. apply Forall_cons in Hall as [Hy Hall].
    destruct (IH Hall (S n)) as (H1 & H2 & H3).
    cbn [pairUp]. split; [| split].
    + constructor; [split; reflexivity | exact H1].
    + cbn [map concat]. rewrite H2.
      destruct y as [|c y]; [discriminate | reflexivity].
    + cbn [map length seq]. rewrite H3. reflexivity.
Qed.

Lemma newMainMatches_shape (mainB : BracketWithMatches) :
  let winners :=
    winnersOf
      (List.filter (fun m => Match.round_number m =? current_round mainB)
         (matches mainB)) in
  length (newMainMatches mainB) = (length winners + 1) / 2
  /\ Forall (fun m => Match.round_number m = current_round mainB + 1
                      /\ Match.bracket_id m = id mainB)
       (newMainMatches mainB)
  /\ concat (map sides (newMainMatches mainB)) = winners
  /\ map Match.match_number (newMainMatches mainB)
     = seq 1 (length (newMainMatches mainB)).
Proof.
  cbv zeta. unfold newMainMatches.
  split; [apply pairUp_length |].
  apply pairUp_shape, winnersOf_truthy.
Qed.

Lemma pairUp_nil (bracketId : string) (nextRound matchNumber : nat)
    (withTable : bool) (ids : list string) :
  pairUp bracketId nextRound matchNumber withTable ids = [] <-> ids = [].
Proof.
  destruct ids as [|x [|y l]]; simpl; split; congruence.
Qed.

Lemma length_pos_iff {A : Type} (l : list A) : (0 <? length l) = true <-> l <> [].
Proof. destruct l; simpl; split; (congruence || discriminate || reflexivity). Qed.

Lemma consolationToFill_rows (division : DivisionWithBrackets)
    (mainB consB : BracketWithMatches) :
  consolationToFill division mainB = Some consB ->
  newConsolationMatches mainB consB <> [].
Proof.
  unfold consolationToFill, newConsolationMatches.
  destruct (consolationBracket division) as [c|]; [| discriminate].
  destruct (0 <? length (losersOf _)) eqn:Hl; [| discriminate].
  intros [= <-]. rewrite pairUp_nil. apply length_pos_iff. exact Hl.
Qed.

(** The rows the call means to insert into the consolation bracket. *)
Lemma handleAdvanceRound_unfold (st : State) (division : DivisionWithBrackets)
    (mainB : BracketWithMatches) (answers : Answers) (db : Store) :
  getActiveDivision st = Some division ->
  mainBracket division = Some mainB ->
  handleAdvanceRound st answers db
  = if (0 <? length (newMainMatches mainB)) && mainInsertError answers
    then (db, Failed)
    else
      let db1 :=
        if 0 <? length (newMainMatches mainB)
        then insertMatches (newMainMatches mainB) db else db in
      match consolationToFill division mainB with
      | Some consB =>
          if consolationInsertError answers then (db1, Failed)
          else
            finishAdvance answers mainB
              (if consolationUpdateError answers
               then insertMatches (newConsolationMatches mainB consB) db1
               else updateBracket (id consB)
                      (setRoundInProgress (current_round mainB + 1))
                      (insertMatches (newConsolationMatches mainB consB) db1))
      | None => finishAdvance answers mainB db1
      end.
Proof.
  intros Ha Hm. unfold handleAdvanceRound. rewrite Ha, Hm. cbv zeta.
  destruct ((0 <? length (newMainMatches mainB)) && mainInsertError answers);
    [reflexivity |].
  destruct (consolationToFill division mainB) as [consB|] eqn:Hc; [| reflexivity].
  pose proof (proj2 (length_pos_iff _) (consolationToFill_rows _ _ _ Hc)) as Hpos.
  rewrite Hpos. reflexivity.
Qed.

Lemma matchRows_db1 (rows : list Match.t) (db : Store) :
  matchRows (if 0 <? length rows then insertMatches rows db else db)
  = matchRows db ++ rows.
Proof.
  destruct rows; simpl; [by rewrite app_nil_r | reflexivity].
Qed.

Lemma bracketRows_db1 (rows : list Match.t) (db : Store) :
  bracketRows (if 0 <? length rows then insertMatches rows db else db)
  = bracketRows db.
Proof. destruct rows; reflexivity. Qed.

Lemma divisionRows_db1 (rows : list Match.t) (db : Store) :
  divisionRows (if 0 <? length rows then insertMatches rows db else db)
  = divisionRows db.
Proof. destruct rows; reflexivity. Qed.

End AdvanceRoundStore.

Section Reload.
Import Director MatchRows BracketRows.
Local Open Scope nat_scope.

Lemma foldl_attach_division_id (reads : Reads) (db : Store) (rows : list Bracket.t) :
  forall d, division_id (foldl (attach reads db) d rows) = division_id d.
Proof.
  induction rows as [|b rows IH]; intros d; [reflexivity |].
  cbn [foldl]. rewrite IH. unfold attach.
  destruct (Bracket.bracket_type b); reflexivity.
Qed.

Lemma loadDivision_division_id (reads : Reads) (db : Store) (division : Division.t) :
  division_id (loadDivision reads db division) = Division.id division.
Proof. unfold loadDivision. cbv zeta. by rewrite foldl_attach_division_id. Qed.

Lemma foldl_attach_main (reads : Reads) (db : Store) (rows : list Bracket.t) :
  forall d,
    mainBracket (foldl (attach reads db) d rows)
    = match lastOfType main rows with
      | Some b => Some (withMatches reads db b)
      | None => mainBracket d
      end.
Proof.
  induction rows as [|b rows IH]; intros d; [reflexivity |].
  cbn [foldl lastOfType]. rewrite IH.
  destruct (lastOfType main rows); [reflexivity |].
  unfold attach, isType. destruct (Bracket.bracket_type b); reflexivity.
Qed.

Lemma lastOfType_map (t : BracketType) (update : Bracket.t -> Bracket.t)
    (rows : list Bracket.t) :
  keepsIdentity update ->
  lastOfType t (map update rows) = option_map update (lastOfType t rows).
Proof.
  intros Hk. induction rows as [|b rows IH]; [reflexivity |].
  cbn [map lastOfType]. rewrite IH.
  destruct (lastOfType t rows); [reflexivity |].
  cbn [option_map]. unfold isType.
  destruct (Hk b) as (_ & _ & ->). destruct (isType t b) eqn:Hb;
    unfold isType in Hb; rewrite Hb; reflexivity.
Qed.

Lemma filter_division_map (divisionId : string) (update : Bracket.t -> Bracket.t)
    (rows : list Bracket.t) :
  keepsIdentity update ->
  List.filter (fun b => String.eqb (Bracket.division_id b) divisionId)
    (map update rows)
  = map update
      (List.filter (fun b => String.eqb (Bracket.division_id b) divisionId) rows).
Proof.
  intros Hk. induction rows as [|b rows IH]; [reflexivity |].
  cbn [map List.filter]. destruct (Hk b) as (_ & -> & _).
  destruct (String.eqb (Bracket.division_id b) divisionId);
    cbn [map]; rewrite IH; reflexivity.
Qed.

(** What a reload finds of the main bracket after the bracket rows were
    updated in place. *)
Lemma reload_main (db db' : Store) (update : Bracket.t -> Bracket.t)
    (division : Division.t) (mainB : BracketWithMatches) :
  bracketRows db' = map update (bracketRows db) ->
  keepsIdentity update ->
  mainBracket (loadDivision allRead db division) = Some mainB ->
  exists b,
    mainB = withMatches allRead db b
    /\ mainBracket (loadDivision allRead db' division)
       = Some (withMatches allRead db' (update b)).
Proof.
  intros Hrows Hk. unfold loadDivision. cbv zeta. cbn [bracketsRead allRead].
  rewrite !foldl_attach_main, Hrows, filter_division_map, lastOfType_map by exact Hk.
  cbn [mainBracket].
  destruct (lastOfType main _) as [b|]; [| discriminate].
  intros [= <-]. exists b. split; reflexivity.
Qed.

Lemma find_loadDivision (reads : Reads) (db : Store) (tab : string)
    (rows : list Division.t) :
  List.find (fun d => String.eqb (division_id d) tab)
    (map (loadDivision reads db) rows)
  = option_map (loadDivision reads db)
      (List.find (fun d => String.eqb (Division.id d) tab) rows).
Proof.
  induction rows as [|d rows IH]; [reflexivity |].
  cbn [map List.find]. rewrite loadDivision_division_id.
  destruct (String.eqb (Division.id d) tab); [reflexivity | exact IH].
Qed.

Lemma keepsIdentity_update (bracketId : string) (f : Bracket.t -> Bracket.t) :
  keepsIdentity f ->
  keepsIdentity (fun b => if String.eqb (Bracket.id b) bracketId then f b else b).
Proof.
  intros Hf b. destruct (String.eqb (Bracket.id b) bracketId); [apply Hf | auto].
Qed.

Lemma keepsIdentity_setRound (n : nat) : keepsIdentity (setRound n).
Proof. intros b. repeat split. Qed.

Lemma keepsIdentity_setRoundInProgress (n : nat) :
  keepsIdentity (setRoundInProgress n).
Proof. intros b. repeat split. Qed.

Lemma keepsIdentity_compose (f g : Bracket.t -> Bracket.t) :
  keepsIdentity f -> keepsIdentity g -> keepsIdentity (fun b => g (f b)).
Proof.
  intros Hf Hg b. destruct (Hf b) as (H1 & H2 & H3), (Hg (f b)) as (H4 & H5 & H6).
  repeat split; congruence.
Qed.

(** The store after a call in which every write is accepted. *)
Lemma handleAdvanceRound_accepted (st : State) (division : DivisionWithBrackets)
    (mainB : BracketWithMatches) (db : Store) :
  getActiveDivision st = Some division ->
  mainBracket division = Some mainB ->
  let newCons :=
    match consolationToFill division mainB with
    | Some consB => newConsolationMatches mainB consB
    | None => []
    end in
  snd (handleAdvanceRound st allAccepted db) = AdvancedTo (current_round mainB + 1)
  /\ divisionRows (fst (handleAdvanceRound st allAccepted db)) = divisionRows db
  /\ matchRows (fst (handleAdvanceRound st allAccepted db))
     = matchRows db ++ newMainMatches mainB ++ newCons
  /\ exists update,
       bracketRows (fst (handleAdvanceRound st allAccepted db))
       = map update (bracketRows db)
       /\ keepsIdentity update
       /\ forall b, Bracket.id b = id mainB ->
            Bracket.current_round (update b) = current_round mainB + 1.
Proof.
  intros Ha Hm. cbv zeta.
  rewrite (handleAdvanceRound_unfold st division mainB allAccepted db Ha Hm).
  cbn [mainInsertError consolationInsertError consolationUpdateError allAccepted].
  rewrite andb_false_r. cbv zeta.
  destruct (consolationToFill division mainB) as [consB|];
    unfold finishAdvance; cbn [mainUpdateError allAccepted fst snd];
    cbn [updateBracket insertMatches divisionRows matchRows bracketRows].
  - split; [reflexivity |]. split; [apply divisionRows_db1 |].
    split; [by rewrite matchRows_db1, app_assoc |].
    rewrite bracketRows_db1, map_map. eexists. split; [reflexivity |]. split.
    + apply (keepsIdentity_compose
               (fun b => if String.eqb (Bracket.id b) (id consB)
                         then setRoundInProgress (current_round mainB + 1) b else b)
               (fun b => if String.eqb (Bracket.id b) (id mainB)
                         then setRound (current_round mainB + 1) b else b));
        apply keepsIdentity_update;
        [apply keepsIdentity_setRoundInProgress | apply keepsIdentity_setRound].
    + intros b Hb. cbv beta.
      assert (Hid : Bracket.id
                      (if String.eqb (Bracket.id b) (id consB)
                       then setRoundInProgress (current_round mainB + 1) b else b)
                    = id mainB)
        by (destruct (String.eqb (Bracket.id b) (id consB)); exact Hb).
      rewrite Hid, String.eqb_refl. reflexivity.
  - split; [reflexivity |]. split; [apply divisionRows_db1 |].
    split; [by rewrite matchRows_db1, app_nil_r |].
    rewrite bracketRows_db1. eexists. split; [reflexivity |]. split.
    + apply keepsIdentity_update, keepsIdentity_setRound.
    + intros b Hb. cbv beta. rewrite Hb, String.eqb_refl. reflexivity.
Qed.

(** The active division after the reload that follows a call in which
    every write was accepted, on a page that showed what the store held. *)
Lemma reload_after_advance (st : State) (division : DivisionWithBrackets)
    (mainB : BracketWithMatches) (db : Store) :
  getActiveDivision st = Some division ->
  mainBracket division = Some mainB ->
  divisions st = map (loadDivision allRead db) (divisionRows db) ->
  activeTab st <> EmptyString ->
  exists division' mainB',
    getActiveDivision
      (loadData allRead (fst (handleAdvanceRound st allAccepted db)) st)
    = Some division'
    /\ mainBracket division' = Some mainB'
    /\ id mainB' = id mainB
    /\ current_round mainB' = current_round mainB + 1
    /\ matches mainB'
       = orderMatches
           (List.filter (fun m => String.eqb (Match.bracket_id m) (id mainB))
              (matchRows (fst (handleAdvanceRound st allAccepted db)))).
Proof.
  intros Ha Hm Hsync Htab.
  destruct (handleAdvanceRound_accepted st division mainB db Ha Hm)
    as (_ & Hdiv & _ & update & Hrows & Hk & Hround).
  set (db' := fst (handleAdvanceRound st allAccepted db)) in *.
  unfold getActiveDivision in Ha. rewrite Hsync, find_loadDivision in Ha.
  destruct (List.find _ (divisionRows db)) as [drow|] eqn:Hfind; [| discriminate].
  cbn [option_map] in Ha. injection Ha as <-.
  destruct (reload_main db db' update drow mainB Hrows Hk Hm) as (b & -> & Hmain').
  exists (loadDivision allRead db' drow), (withMatches allRead db' (update b)).
  split.
  { unfold getActiveDivision, loadData. cbn [tournamentError divisionsError allRead orb].
    cbn [divisions activeTab]. rewrite Hdiv.
    destruct (divisionRows db) as [|d0 rows] eqn:Hd; [discriminate |].
    cbn [map]. destruct (activeTab st) as [|c tab] eqn:Ht; [congruence |].
    cbn [Js.truthy]. rewrite <- (eq_refl : map (loadDivision allRead db') (d0 :: rows)
                                  = loadDivision allRead db' d0
                                    :: map (loadDivision allRead db') rows).
    rewrite find_loadDivision, Hfind. reflexivity. }
  split; [exact Hmain' |].
  destruct (Hk b) as (Hid & _ & _).
  split; [exact Hid |].
  split; [exact (Hround b eq_refl) |].
  cbn [withMatches matches matchesRead allRead id]. rewrite Hid. reflexivity.
Qed.

End Reload.

Section AdvanceRoundClaim.
Import Director MatchRows BracketRows.
Local Open Scope nat_scope.

(** C3, as the code has it.  [handleAdvanceRound] has no check for a round
    that was advanced already; what it creates is computed from the view
    the page holds.  With an active division that has a main bracket:
    - the rows for the main bracket pair the winners recorded in the
      current round of the view, two by two in order, into one match per
      two winners (rounded up) of round [current_round + 1];
    - when the store refuses that insert, nothing is written and the call
      reports "Failed to advance round"; when it refuses the insert of the
      consolation rows, the new main matches stay in the store, no
      bracket is updated, and the call reports the failure;
    - otherwise the call reports "Advanced to Round n"; the main bracket's
      [current_round] is n in the store unless the update was refused,
      which the call does not notice;
    - the page is not touched by the call: called again before a reload
      (every write accepted), it inserts the same rows a second time;
    - after a reload of a page that showed what the store held, the
      active division's main bracket is at round n and holds the new
      matches; a call on that page reports "Advanced to Round n + 1";
      [canAdvanceRound], the only guard, is false on it when two winners
      or more were carried over;
    - a reload that fails leaves the page with the view it had. *)
Theorem handleAdvanceRound_advances
    (st : State) (division : DivisionWithBrackets) (mainB : BracketWithMatches)
    (answers : Answers) (db : Store) :
  getActiveDivision st = Some division ->
  mainBracket division = Some mainB ->
  let winners :=
    winnersOf
      (List.filter (fun m => Match.round_number m =? current_round mainB)
         (matches mainB)) in
  let nextRound := current_round mainB + 1 in
  let newMain := newMainMatches mainB in
  let newCons :=
    match consolationToFill division mainB with
    | Some consB => newConsolationMatches mainB consB
    | None => []
    end in
  let result := handleAdvanceRound st answers db in
  let mainRefused := newMain <> [] /\ mainInsertError answers = true in
  let consolationRefused := newCons <> [] /\ consolationInsertError answers = true in
  (length newMain = (length winners + 1) / 2
   /\ Forall (fun m => Match.round_number m = nextRound
                       /\ Match.bracket_id m = id mainB) newMain
   /\ concat (map sides newMain) = winners
   /\ map Match.match_number newMain = seq 1 (length newMain))
  /\ (mainRefused ->
      result = (db, Failed) /\ toast Failed = Some "Failed to advance round")
  /\ (~ mainRefused -> consolationRefused ->
      snd result = Failed
      /\ matchRows (fst result) = matchRows db ++ newMain
      /\ bracketRows (fst result) = bracketRows db)
  /\ (~ mainRefused -> ~ consolationRefused ->
      snd result = AdvancedTo nextRound
      /\ toast (snd result) = Some ("Advanced to Round " +:+ pretty nextRound)
      /\ matchRows (fst result) = matchRows db ++ newMain ++ newCons
      /\ (mainUpdateError answers = false ->
          Forall (fun r => r = nextRound) (roundsOfBracket (id mainB) (fst result)))
      /\ (mainUpdateError answers = true ->
          consolationUpdateError answers = true ->
          bracketRows (fst result) = bracketRows db))
  /\ (answers = allAccepted ->
      snd (handleAdvanceRound st allAccepted (fst result)) = AdvancedTo nextRound
      /\ matchRows (fst (handleAdvanceRound st allAccepted (fst result)))
         = matchRows db ++ (newMain ++ newCons) ++ (newMain ++ newCons))
  /\ (answers = allAccepted ->
      divisions st = map (loadDivision allRead db) (divisionRows db) ->
      activeTab st <> EmptyString ->
      exists division' mainB',
        getActiveDivision (loadData allRead (fst result) st) = Some division'
        /\ mainBracket division' = Some mainB'
        /\ id mainB' = id mainB
        /\ current_round mainB' = nextRound
        /\ (forall m, In m newMain -> In m (matches mainB'))
        /\ (forall db',
              snd (handleAdvanceRound (loadData allRead (fst result) st)
                     allAccepted db')
              = AdvancedTo (nextRound + 1))
        /\ (2 <= length winners ->
            canAdvanceRound division' = false
            /\ forall db',
                 advanceRound (loadData allRead (fst result) st) allAccepted db'
                 = None))
  /\ (forall reads,
        tournamentError reads = true \/ divisionsError reads = true ->
        getActiveDivision (loadData reads (fst result) st) = Some division).
Proof.
  intros Ha Hm. cbv zeta.
  pose proof (newMainMatches_shape mainB) as Hshape. cbv zeta in Hshape.
  pose proof (handleAdvanceRound_unfold st division mainB answers db Ha Hm) as Hun.
  cbv zeta in Hun.
  split; [exact Hshape |].
  split.
  { intros [Hne Herr]. rewrite Hun, Herr, (proj2 (length_pos_iff _) Hne).
    split; reflexivity. }
  split.
  { intros Hmain [Hne Herr]. rewrite Hun.
    assert (Hgo : (0 <? length (newMainMatches mainB)) && mainInsertError answers
                  = false).
    { destruct (0 <? length (newMainMatches mainB)) eqn:Hl; [| reflexivity].
      destruct (mainInsertError answers) eqn:He; [| reflexivity].
      exfalso. apply Hmain. split; [apply length_pos_iff, Hl | reflexivity]. }
    rewrite Hgo.
    destruct (consolationToFill division mainB) as [consB|]; [| congruence].
    rewrite Herr. cbn [fst snd].
    split; [reflexivity |]. split; [apply matchRows_db1 | apply bracketRows_db1]. }
  split.
  { intros Hmain Hcons. rewrite Hun.
    assert (Hgo : (0 <? length (newMainMatches mainB)) && mainInsertError answers
                  = false).
    { destruct (0 <? length (newMainMatches mainB)) eqn:Hl; [| reflexivity].
      destruct (mainInsertError answers) eqn:He; [| reflexivity].
      exfalso. apply Hmain. split; [apply length_pos_iff, Hl | reflexivity]. }
    rewrite Hgo.
    destruct (consolationToFill division mainB) as [consB|] eqn:Hfill.
    - assert (Hce : consolationInsertError answers = false).
      { destruct (consolationInsertError answers); [| reflexivity].
        exfalso. apply Hcons.
        split; [exact (consolationToFill_rows _ _ _ Hfill) | reflexivity]. }
      rewrite Hce. unfold finishAdvance. cbn [fst snd].
      split; [reflexivity |]. split; [reflexivity |].
      split.
      { destruct (mainUpdateError answers), (consolationUpdateError answers);
          cbn [updateBracket insertMatches matchRows];
          by rewrite matchRows_db1, app_assoc. }
      split.
      { intros ->. unfold roundsOfBracket.
        cbn [updateBracket bracketRows].
        apply List.Forall_forall. intros r Hr.
        apply in_map_iff in Hr as (b & <- & Hb).
        apply filter_In in Hb as [Hb Hid].
        apply in_map_iff in Hb as (b0 & <- & _).
        destruct (String.eqb (Bracket.id b0) (id mainB)) eqn:Hb0; [reflexivity |].
        rewrite Hb0 in Hid. discriminate. }
      intros -> ->. cbn [bracketRows]. apply bracketRows_db1.
    - unfold finishAdvance. cbn [fst snd].
      split; [reflexivity |]. split; [reflexivity |].
      split.
      { destruct (mainUpdateError answers);
          cbn [updateBracket matchRows]; by rewrite matchRows_db1, app_nil_r. }
      split.
      { intros ->. unfold roundsOfBracket.
        cbn [updateBracket bracketRows].
        apply List.Forall_forall. intros r Hr.
        apply in_map_iff in Hr as (b & <- & Hb).
        apply filter_In in Hb as [Hb Hid].
        apply in_map_iff in Hb as (b0 & <- & _).
        destruct (String.eqb (Bracket.id b0) (id mainB)) eqn:Hb0; [reflexivity |].
        rewrite Hb0 in Hid. discriminate. }
      intros -> _. apply bracketRows_db1. }
  split.
  { intros ->.
    destruct (handleAdvanceRound_accepted st division mainB db Ha Hm)
      as (_ & _ & Hrows & _).
    destruct (handleAdvanceRound_accepted st division mainB
                (fst (handleAdvanceRound st allAccepted db)) Ha Hm)
      as (Hout & _ & Hrows2 & _).
    cbv zeta in Hrows, Hrows2.
    split; [exact Hout |]. rewrite Hrows2, Hrows, <- !app_assoc. reflexivity. }
  split;
    [| intros reads Herr; unfold loadData;
       replace (tournamentError reads || divisionsError reads) with true
         by (destruct Herr as [-> | ->]; [reflexivity | by rewrite orb_true_r]);
       exact Ha].
  intros -> Hsync Htab.
  destruct (reload_after_advance st division mainB db Ha Hm Hsync Htab)
    as (division' & mainB' & Ha' & Hm' & Hid & Hround & Hmatches).
  destruct (handleAdvanceRound_accepted st division mainB db Ha Hm)
    as (_ & _ & Hrows & _). cbv zeta in Hrows.
  exists division', mainB'.
  split; [exact Ha' |]. split; [exact Hm' |]. split; [exact Hid |].
  split; [exact Hround |].
  assert (Hin : forall m, In m (newMainMatches mainB) -> In m (matches mainB')).
  { intros m Hin. rewrite Hmatches.
    apply (Permutation_in m (symmetry (orderMatches_Permutation _))).
    apply filter_In. split.
    - rewrite Hrows. apply in_or_app. right. apply in_or_app. left. exact Hin.
    - destruct Hshape as (_ & Hall & _).
      destruct (proj1 (List.Forall_forall _ _) Hall m Hin) as [_ ->].
      apply String.eqb_refl. }
  split; [exact Hin |].
  split.
  { intros db'.
    destruct (handleAdvanceRound_accepted _ division' mainB' db' Ha' Hm')
      as (Hout & _). rewrite Hout, Hround. reflexivity. }
  intros Hw.
  assert (Hgate : canAdvanceRound division' = false).
  { destruct (newMainMatches_pending mainB Hw) as (m & Hm1 & Hm2 & Hm3).
    unfold canAdvanceRound. apply andb_false_intro2.
    apply (forallb_false_of _ _ m).
    - unfold getCurrentRoundMatches, currentRoundOr1. rewrite Hm'.
      cbn [matchesOf]. rewrite Hround.
      replace (current_round mainB + 1 =? 0) with false
        by (symmetry; apply Nat.eqb_neq; lia).
      apply filter_In. split; [| rewrite Hm2; apply Nat.eqb_refl].
      apply in_or_app. left. apply Hin, Hm1.
    - unfold completedOrBye. rewrite Hm3. reflexivity. }
  split; [exact Hgate |].
  intros db'. unfold advanceRound. rewrite Ha', Hgate. reflexivity.
Qed.

Lemma handleAdvanceRound_advances_witness :
  snd (handleAdvanceRound (Examples.firstLoad Examples.semisStore) allAccepted
         Examples.semisStore) = AdvancedTo 2
  /\ map Match.round_number
       (matchRows (fst (handleAdvanceRound (Examples.firstLoad Examples.semisStore)
                          allAccepted Examples.semisStore)))
     = [1; 1; 2]
  /\ roundsOfBracket "main"
       (fst (handleAdvanceRound (Examples.firstLoad Examples.semisStore)
               allAccepted Examples.semisStore))
     = [2].
Proof.
  pose proof (handleAdvanceRound_advances
                (Examples.firstLoad Examples.semisStore) Examples.decidedSemis
                Examples.semisBracket allAccepted Examples.semisStore
                eq_refl eq_refl) as H.
  cbv zeta in H.
  destruct H as (_ & _ & _ & H & _).
  destruct H as (H1 & _ & H3 & _).
  - intros [_ Herr]. discriminate Herr.
  - intros [_ Herr]. discriminate Herr.
  - split; [exact H1 |]. split; [rewrite H3; reflexivity | reflexivity].
Defined.

(** C3, the counterexample.  In a two-player division the only match is
    decided and the director advances the round: the winner gets a bye
    match in round 2 and the main bracket goes to round 2.  After the
    reload [canAdvanceRound] holds again, since a bye counts as finished.
    Advancing a second time is no no-op: a further match is created, the
    main bracket goes from round 2 to round 3, and the call reports
    "Advanced to Round 3". *)
Lemma advanceRound_second_call_advances :
  let page0 := Examples.firstLoad Examples.finalStore in
  let once := handleAdvanceRound page0 allAccepted Examples.finalStore in
  let page1 := loadData allRead (fst once) page0 in
  let twice := handleAdvanceRound page1 allAccepted (fst once) in
  getActiveDivision page0 = Some Examples.decidedFinal
  /\ advanceRound page0 allAccepted Examples.finalStore = Some once
  /\ snd once = AdvancedTo 2
  /\ advanceRound page1 allAccepted (fst once) = Some twice
  /\ snd twice = AdvancedTo 3
  /\ toast (snd twice) = Some "Advanced to Round 3"
  /\ roundsOfBracket "main" (fst once) = [2]
  /\ roundsOfBracket "main" (fst twice) = [3]
  /\ map (fun m => (Match.bracket_id m, Match.round_number m))
       (matchRows Examples.finalStore)
     = [("main", 1)]
  /\ map (fun m => (Match.bracket_id m, Match.round_number m))
       (matchRows (fst once))
     = [("main", 1); ("main", 2); ("cons", 2)]
  /\ map (fun m => (Match.bracket_id m, Match.round_number m))
       (matchRows (fst twice))
     = [("main", 1); ("main", 2); ("cons", 2); ("main", 3)].
Proof. cbv zeta. repeat split; vm_compute; reflexivity. Qed.

End AdvanceRoundClaim.

(** ** Round 1 *)

Section Round1.
Import BracketLib.
Local Open Scope nat_scope.

Lemma swap_Permutation {T : Type} (a : list T) (i j : nat) : swap a i j ≡ₚ a.
Proof.
  unfold swap.
  destruct (a !! i) as [x|] eqn:Hi; [| reflexivity].
  destruct (a !! j) as [y|] eqn:Hj; [| reflexivity].
  by apply Permutation_insert_swap.
Qed.

Lemma shuffleFrom_Permutation {T : Type} (random : nat -> nat) (i : nat) :
  forall a : list T, shuffleFrom random i a ≡ₚ a.
Proof.
  induction i as [|i IH]; intros a; simpl; [reflexivity |].
  rewrite IH. apply swap_Permutation.
Qed.

Lemma shuffle_Permutation {T : Type} (random : nat -> nat) (array : list T) :
  shuffle random array ≡ₚ array.
Proof. apply shuffleFrom_Permutation. Qed.

Lemma shuffle_length {T : Type} (random : nat -> nat) (array : list T) :
  length (shuffle random array) = length array.
Proof. by rewrite shuffle_Permutation. Qed.

Lemma nextPowerOf2_bounds (n : nat) :
  1 <= n -> n <= nextPowerOf2 n < 2 * n.
Proof.
  intros Hn. destruct n as [|n]; [lia |]. unfold nextPowerOf2.
  destruct n as [|n]; [simpl; lia |].
  pose proof (Nat.log2_up_spec (S (S n)) ltac:(lia)) as [Hlo Hhi].
  pose proof (Nat.log2_up_pos (S (S n)) ltac:(lia)) as Hpos.
  destruct (Nat.log2_up (S (S n))) as [|k]; [lia |].
  simpl Nat.pred in Hlo. rewrite Nat.pow_succ_r' in *. lia.
Qed.

Lemma nextPowerOf2_even (n : nat) :
  2 <= n -> exists half, nextPowerOf2 n = 2 * half.
Proof.
  intros Hn. destruct n as [|n]; [lia |]. unfold nextPowerOf2.
  pose proof (Nat.log2_up_pos (S n) ltac:(lia)) as Hpos.
  destruct (Nat.log2_up (S n)) as [|k]; [lia |].
  exists (2 ^ k). apply Nat.pow_succ_r'.
Qed.

(** The bye loop. *)
Lemma byeMatches_length (players : list Player.t) :
  forall n, length (byeMatches n players) = length players.
Proof. induction players as [|p l IH]; intros n; simpl; [| rewrite IH]; reflexivity. Qed.

Lemma byeMatches_byes (players : list Player.t) :
  forall n, byeCountOf (byeMatches n players) = length players.
Proof.
  unfold byeCountOf.
  induction players as [|p l IH]; intros n; simpl; [| rewrite IH]; reflexivity.
Qed.

Lemma byeMatches_numbers (players : list Player.t) :
  forall n, map BracketMatch.match_number (byeMatches n players)
            = seq n (length players).
Proof.
  induction players as [|p l IH]; intros n; simpl; [| rewrite IH]; reflexivity.
Qed.

Lemma byeMatches_participants (players : list Player.t) :
  forall n, concat (map participants (byeMatches n players))
            = map Player.id players.
Proof.
  induction players as [|p l IH]; intros n; simpl; [| rewrite IH]; reflexivity.
Qed.

(** The pairing loop. *)
Lemma regularMatches_length (players : list Player.t) :
  forall n, length (regularMatches n players) = (length players + 1) / 2.
Proof.
  induction players as [| x | x y l IH] using pair_induction; intros n.
  - reflexivity.
  - reflexivity.
  - cbn [regularMatches length]. rewrite IH.
    replace (S (S (length l)) + 1) with ((length l + 1) + 1 * 2) by lia.
    rewrite Nat.div_add by lia. lia.
Qed.

Lemma regularMatches_byes (players : list Player.t) :
  forall n, byeCountOf (regularMatches n players)
            = if Nat.odd (length players) then 1 else 0.
Proof.
  unfold byeCountOf.
  induction players as [| x | x y l IH] using pair_induction; intros n.
  - reflexivity.
  - reflexivity.
  - cbn [regularMatches List.filter isBye BracketMatch.status MatchStatus_eqb].
    rewrite IH. reflexivity.
Qed.

Lemma regularMatches_numbers (players : list Player.t) :
  forall n, map BracketMatch.match_number (regularMatches n players)
            = seq n (length (regularMatches n players)).
Proof.
  induction players as [| x | x y l IH] using pair_induction; intros n.
  - reflexivity.
  - reflexivity.
  - cbn [regularMatches map length seq BracketMatch.match_number].
    rewrite IH. reflexivity.
Qed.

Lemma regularMatches_participants (players : list Player.t) :
  Forall (fun p => Player.id p <> EmptyString) players ->
  forall n, concat (map participants (regularMatches n players))
            = map Player.id players.
Proof.
  induction players as [| x | x y l IH] using pair_induction; intros Hids n.
  - reflexivity.
  - reflexivity.
  - inversion Hids as [|? ? _ Hids']; subst.
    inversion Hids' as [|? ? Hy Hl]; subst.
    cbn [regularMatches map concat]. rewrite (IH Hl).
    unfold participants. cbn [BracketMatch.player1_id BracketMatch.player2_id].
    unfold Js.orNull, Js.truthyOpt.
    destruct (Player.id y); [congruence | reflexivity].
Qed.

Lemma generateRound1Matches_split (random : nat -> nat)
    (players : list Player.t) (startingTableNumber : nat) :
  let shuffled := shuffle random players in
  let byeCount := nextPowerOf2 (length players) - length players in
  generateRound1Matches random players startingTableNumber
  = byeMatches 1 (take byeCount shuffled)
    ++ regularMatches (1 + byeCount) (drop byeCount shuffled)
  /\ length (take byeCount shuffled) = byeCount
  /\ length (drop byeCount shuffled) = 2 * length players - nextPowerOf2 (length players).
Proof.
  cbv zeta. unfold generateRound1Matches.
  rewrite !shuffle_length.
  assert (Hle : nextPowerOf2 (length players) - length players <= length players).
  { destruct (length players) as [|n] eqn:Hn; [simpl; lia |].
    pose proof (nextPowerOf2_bounds (S n) ltac:(lia)). lia. }
  assert (Hge : length players <= nextPowerOf2 (length players)).
  { destruct (length players) as [|n] eqn:Hn; [simpl; lia |].
    pose proof (nextPowerOf2_bounds (S n) ltac:(lia)). lia. }
  assert (Htake : length (take (nextPowerOf2 (length players) - length players)
                            (shuffle random players))
                  = nextPowerOf2 (length players) - length players).
  { rewrite length_take, shuffle_length. lia. }
  rewrite Htake. split; [reflexivity |]. split; [reflexivity |].
  rewrite length_drop, shuffle_length. lia.
Qed.

(** C1, as the code has it.  For a list of [N] players, whatever the
    shuffle draws: the match numbers are 1, 2, ... in order without gap;
    for every [N] other than 1 exactly [nextPowerOf2 N - N] matches are
    byes; no player gives no match; a single player gives one match, a bye
    won by that player with match number 1; and, the ids being non-empty,
    the players held by the round-1 matches, each bye player once, are the
    [N] players (a permutation of their ids, so pairwise distinct when the
    ids are). *)
Theorem generateRound1Matches_round (random : nat -> nat)
    (players : list Player.t) (startingTableNumber : nat) :
  let N := length players in
  let round1 := generateRound1Matches random players startingTableNumber in
  (N <> 1 -> byeCountOf round1 = nextPowerOf2 N - N)
  /\ map BracketMatch.match_number round1 = seq 1 (length round1)
  /\ (N = 0 -> round1 = [])
  /\ (forall p, players = [p] ->
        round1 = [ {| BracketMatch.round_number := 1;
                      BracketMatch.match_number := 1;
                      BracketMatch.player1_id := Some (Player.id p);
                      BracketMatch.player2_id := None;
                      BracketMatch.status := bye;
                      BracketMatch.winner_id := Some (Player.id p) |} ]
        /\ byeCountOf round1 = 1)
  /\ (Forall (fun p => Player.id p <> EmptyString) players ->
      concat (map participants round1) ≡ₚ map Player.id players
      /\ length (concat (map participants round1)) = N
      /\ (NoDup (map Player.id players) ->
          NoDup (concat (map participants round1)))).
Proof.
  cbv zeta.
  destruct (generateRound1Matches_split random players startingTableNumber)
    as (Heq & Htake & Hdrop).
  cbv zeta in Heq, Htake, Hdrop.
  set (byeCount := nextPowerOf2 (length players) - length players) in *.
  split; [| split; [| split; [| split]]].
  - intros HN. rewrite Heq. unfold byeCountOf.
    rewrite List.filter_app, length_app.
    fold (byeCountOf (byeMatches 1 (take byeCount (shuffle random players)))).
    fold (byeCountOf (regularMatches (1 + byeCount)
                        (drop byeCount (shuffle random players)))).
    rewrite byeMatches_byes, regularMatches_byes, Htake, Hdrop.
    destruct (length players) as [|[|n]] eqn:Hlen; [reflexivity | lia |].
    destruct (nextPowerOf2_even (S (S n)) ltac:(lia)) as [half Hhalf].
    fold byeCount. unfold byeCount at 2. rewrite Hhalf.
    replace (2 * S (S n) - 2 * half) with (2 * (S (S n) - half)) by lia.
    rewrite Nat.odd_even. lia.
  - rewrite Heq, map_app, byeMatches_numbers, regularMatches_numbers.
    rewrite length_app, byeMatches_length, Htake.
    symmetry. apply seq_app.
  - intros HN. destruct players; [reflexivity | discriminate].
  - intros p ->. split; reflexivity.
  - intros Hids.
    assert (Hparts : concat (map participants
                       (generateRound1Matches random players startingTableNumber))
                     = map Player.id (shuffle random players)).
    { rewrite Heq, map_app, concat_app, byeMatches_participants.
      rewrite regularMatches_participants.
      - rewrite <- map_app, take_drop. reflexivity.
      - apply Forall_drop. by rewrite shuffle_Permutation. }
    assert (Hperm : concat (map participants
                      (generateRound1Matches random players startingTableNumber))
                    ≡ₚ map Player.id players).
    { rewrite Hparts. by rewrite shuffle_Permutation. }
    split; [exact Hperm |]. split; [rewrite Hperm; apply length_map |].
    intros Hnd. by rewrite Hperm.
Qed.

(** Three players: one bye, one pairing, numbers 1 and 2. *)
Example generateRound1Matches_three_players :
  let round1 := generateRound1Matches (fun _ => 0) Examples.threePlayers 1 in
  byeCountOf round1 = nextPowerOf2 3 - 3
  /\ map BracketMatch.match_number round1 = [1; 2]
  /\ concat (map participants round1) = ["id-Bob"; "id-Cy"; "id-Ann"].
Proof. cbv zeta. repeat split; vm_compute; reflexivity. Qed.

(** C1, the counterexample.  One player: the code makes one match, a bye
    for that player, while [nextPowerOf2 1 - 1] is 0. *)
Lemma generateRound1Matches_single_player :
  generateRound1Matches (fun _ => 0) [Examples.playerNamed "Ann"] 1
  = [ {| BracketMatch.round_number := 1; BracketMatch.match_number := 1;
         BracketMatch.player1_id := Some "id-Ann";
         BracketMatch.player2_id := None;
         BracketMatch.status := bye;
         BracketMatch.winner_id := Some "id-Ann" |} ]
  /\ byeCountOf (generateRound1Matches (fun _ => 0) [Examples.playerNamed "Ann"] 1) = 1
  /\ nextPowerOf2 1 - 1 = 0
  /\ calculateRounds 1 = 0.
Proof. repeat split; vm_compute; reflexivity. Qed.

End Round1.

(** ** Further properties of the bracket library *)

Section BracketLibrary.
Import BracketLib.
Local Open Scope nat_scope.

(** X1.  [shuffle] rearranges: whatever the draws, the result is a permutation
    of the array, of the same length. *)
Theorem shuffle_permutes {T : Type} (random : nat -> nat) (array : list T) :
  shuffle random array ≡ₚ array
  /\ length (shuffle random array) = length array.
Proof. split; [apply shuffle_Permutation | apply shuffle_length]. Qed.

Lemma insertByNumber_Permutation (m : Match.t) (l : list Match.t) :
  insertByNumber m l ≡ₚ m :: l.
Proof.
  induction l as [|x l IH]; simpl; [reflexivity |].
  destruct (Match.match_number m <=? Match.match_number x); [reflexivity |].
  rewrite IH. apply Permutation_swap.
Qed.

Lemma sortByNumber_Permutation (l : list Match.t) : sortByNumber l ≡ₚ l.
Proof.
  induction l as [|x l IH]; simpl; [reflexivity |].
  rewrite insertByNumber_Permutation. by rewrite IH.
Qed.

Lemma omap_winner_all (l : list Match.t) :
  Forall (fun m => Js.truthyOpt (Match.winner_id m) = true) l ->
  length (omap Match.winner_id l) = length l
  /\ Forall (fun w => Js.truthy w = true) (omap Match.winner_id l).
Proof.
  induction 1 as [|m l Hm _ [IHlen IHall]]; simpl; [split; [reflexivity | constructor] |].
  destruct (Match.winner_id m) as [w|]; simpl in Hm; [| discriminate].
  split; [exact (f_equal S IHlen) | constructor; assumption].
Qed.

Lemma winnersInOrder_all (completedMatches : list Match.t) (currentRound : nat) :
  length (winnersInOrder completedMatches currentRound)
  = length (List.filter (hasWinnerIn currentRound) completedMatches)
  /\ Forall (fun w => Js.truthy w = true)
       (winnersInOrder completedMatches currentRound).
Proof.
  unfold winnersInOrder.
  assert (Hall : Forall (fun m => Js.truthyOpt (Match.winner_id m) = true)
                   (sortByNumber
                      (List.filter (hasWinnerIn currentRound) completedMatches))).
  { rewrite sortByNumber_Permutation. apply List.Forall_forall.
    intros m Hm. apply filter_In in Hm as [_ Hm].
    unfold hasWinnerIn in Hm. by apply andb_true_iff in Hm as [_ Hm]. }
  destruct (omap_winner_all _ Hall) as [Hlen Ht].
  split; [| exact Ht].
  rewrite Hlen. by rewrite sortByNumber_Permutation.
Qed.

Lemma nextRoundMatch_pair (nextRound matchNumber : nat) (player1 player2 : string) :
  Js.truthy player2 = true ->
  nextRoundMatch nextRound matchNumber player1 (Some player2)
  = {| BracketMatch.round_number := nextRound;
       BracketMatch.match_number := matchNumber;
       BracketMatch.player1_id := Some player1;
       BracketMatch.player2_id := Some player2;
       BracketMatch.status := pending;
       BracketMatch.winner_id := None |}.
Proof.
  intros Hy. unfold nextRoundMatch, Js.orNull. cbn [Js.truthyOpt].
  rewrite Hy. cbn [Js.truthyOpt]. rewrite Hy. reflexivity.
Qed.

Lemma pairWinners_shape (nextRound : nat) (winners : list string) :
  Forall (fun w => Js.truthy w = true) winners ->
  forall matchNumber,
    let next := pairWinners nextRound matchNumber winners in
    length next = (length winners + 1) / 2
    /\ byeCountOf next = (if Nat.odd (length winners) then 1 else 0)
    /\ map BracketMatch.match_number next = seq matchNumber (length next)
    /\ Forall (fun m => BracketMatch.round_number m = nextRound) next.
Proof.
  induction winners as [| x | x y l IH] using pair_induction;
    intros Hall n; cbv zeta.
  - repeat split. constructor.
  - repeat split. repeat constructor.
  - inversion Hall as [|? ? _ Hall']; subst.
    inversion Hall' as [|? ? Hy Hl]; subst.
    destruct (IH Hl (S n)) as (Hlen & Hbyes & Hnum & Hround).
    cbn [pairWinners]. rewrite (nextRoundMatch_pair _ _ _ _ Hy).
    repeat split.
    + cbn [length]. rewrite Hlen.
      replace (S (S (length l)) + 1) with ((length l + 1) + 1 * 2) by lia.
      rewrite Nat.div_add by lia. lia.
    + unfold byeCountOf in *. cbn [List.filter isBye BracketMatch.status MatchStatus_eqb].
      rewrite Hbyes. reflexivity.
    + cbn [map length seq BracketMatch.match_number]. rewrite Hnum. reflexivity.
    + constructor; [reflexivity | exact Hround].
Qed.

(** X2.  [generateNextRoundMatches] on a round with [W] decided matches (those
    of [currentRound] that have a winner): one match per two winners,
    rounded up; one bye when [W] is odd and none otherwise; match numbers
    contiguous from [startingMatchNumber]; every match in round
    [currentRound + 1]. *)
Theorem generateNextRoundMatches_pairs (completedMatches : list Match.t)
    (currentRound startingMatchNumber : nat) :
  let W := length (List.filter (hasWinnerIn currentRound) completedMatches) in
  let next := generateNextRoundMatches completedMatches currentRound startingMatchNumber in
  length next = (W + 1) / 2
  /\ byeCountOf next = (if Nat.odd W then 1 else 0)
  /\ byeCountOf next <= 1
  /\ map BracketMatch.match_number next = seq startingMatchNumber (length next)
  /\ Forall (fun m => BracketMatch.round_number m = currentRound + 1) next.
Proof.
  cbv zeta. unfold generateNextRoundMatches.
  destruct (winnersInOrder_all completedMatches currentRound) as [Hlen Hall].
  destruct (pairWinners_shape (currentRound + 1) _ Hall startingMatchNumber)
    as (H1 & H2 & H3 & H4).
  rewrite Hlen in H1, H2.
  repeat split; try assumption.
  rewrite H2. destruct (Nat.odd _); lia.
Qed.

Lemma byeMatches_won (players : list Player.t) :
  forall n, Forall byeWonByPlayer1 (byeMatches n players).
Proof.
  induction players as [|p l IH]; intros n; simpl; constructor; [| apply IH].
  intros _. simpl. eauto.
Qed.

Lemma regularMatches_won (players : list Player.t) :
  forall n, Forall byeWonByPlayer1 (regularMatches n players).
Proof.
  induction players as [| x | x y l IH] using pair_induction; intros n.
  - constructor.
  - repeat constructor; simpl; eauto.
  - cbn [regularMatches]. constructor; [| apply IH].
    intros Hst. discriminate Hst.
Qed.

Lemma pairWinners_won (nextRound : nat) (winners : list string) :
  forall n, Forall byeWonByPlayer1 (pairWinners nextRound n winners).
Proof.
  induction winners as [| x | x y l IH] using pair_induction; intros n.
  - constructor.
  - repeat constructor; simpl; eauto.
  - cbn [pairWinners]. constructor; [| apply IH].
    destruct (Js.truthy y) eqn:Hy.
    + rewrite (nextRoundMatch_pair _ _ _ _ Hy). intros Hst. discriminate Hst.
    + unfold byeWonByPlayer1, nextRoundMatch, Js.orNull. cbn [Js.truthyOpt].
      rewrite Hy. simpl. eauto.
Qed.

(** X3.  A match that is created as a bye, in round 1 or in a later round, has
    no second player and is won by its first player from the start. *)
Theorem bye_matches_are_won (random : nat -> nat) (players : list Player.t)
    (startingTableNumber : nat) (completedMatches : list Match.t)
    (currentRound startingMatchNumber : nat) :
  Forall byeWonByPlayer1
    (generateRound1Matches random players startingTableNumber)
  /\ Forall byeWonByPlayer1
       (generateNextRoundMatches completedMatches currentRound startingMatchNumber).
Proof.
  split.
  - unfold generateRound1Matches. apply Forall_app.
    split; [apply byeMatches_won | apply regularMatches_won].
  - apply pairWinners_won.
Qed.

(** X4.  [assignTableNumbers]: a bye gets no table, and the other matches get
    the tables [startingTable], [startingTable + 1], ... in order. *)
Theorem assignTableNumbers_contiguous (matches : list BracketMatch.t) :
  forall startingTable,
    let tabled := assignTableNumbers matches startingTable in
    map fst tabled = matches
    /\ Forall (fun mt => isBye (fst mt) = true <-> snd mt = None) tabled
    /\ omap snd tabled
       = seq startingTable (length matches - byeCountOf matches).
Proof.
  induction matches as [|m ms IH]; intros t; cbv zeta.
  - repeat split. constructor.
  - destruct (IH t) as (IH1 & IH2 & IH3).
    destruct (IH (S t)) as (IH1' & IH2' & IH3').
    assert (Hle : byeCountOf ms <= length ms) by apply List.filter_length_le.
    unfold byeCountOf in *. cbn [assignTableNumbers List.filter length].
    pose proof (eq_refl : isBye m = MatchStatus_eqb (BracketMatch.status m) bye)
      as Hdef.
    destruct (MatchStatus_eqb (BracketMatch.status m) bye) eqn:Hb; rewrite Hdef.
    + repeat split.
      * cbn [map fst]. by rewrite IH1.
      * constructor; [| exact IH2]. simpl. by rewrite Hdef.
      * change (omap snd (assignTableNumbers ms t)
                = seq t (S (length ms) - S (length (List.filter isBye ms)))).
        exact IH3.
    + repeat split.
      * cbn [map fst]. by rewrite IH1'.
      * constructor; [| exact IH2']. simpl. rewrite Hdef. split; discriminate.
      * change (t :: omap snd (assignTableNumbers ms (S t))
                = seq t (S (length ms) - length (List.filter isBye ms))).
        rewrite IH3'.
        replace (S (length ms) - length (List.filter isBye ms))
          with (S (length ms - length (List.filter isBye ms))) by lia.
        reflexivity.
Qed.

End BracketLibrary.

(** ** The third tier finds every dash- or colon-separated pair *)

Section BareScores.
Import ScoreParser Regex.

Lemma greedy_finds {A : Type} (p : ascii -> bool) (k : string -> option A)
    (a b : string) :
  Js.allIn p a = true -> is_Some (k b) -> is_Some (greedy p (a +:+ b) k).
Proof.
  intros Ha Hk. induction a as [|c a IH]; simpl.
  - destruct b as [|c b]; simpl; [exact Hk |].
    destruct (p c); [| exact Hk].
    destruct (greedy p b k); [eauto | exact Hk].
  - simpl in Ha. apply andb_true_iff in Ha as [Hc Ha].
    rewrite Hc. destruct (IH Ha) as [r ->]. eauto.
Qed.

Lemma pattern3_matches_here (d1 sp1 sp2 d2 post : string) (sep : ascii) :
  Js.runOf Js.isDigit d1 = true -> Js.runOf Js.isDigit d2 = true ->
  Js.allIn Js.isSpace sp1 = true -> Js.allIn Js.isSpace sp2 = true ->
  isDashOrColon sep = true ->
  is_Some (matchAt pattern3 (d1 +:+ sp1 +:+ String sep (sp2 +:+ d2 +:+ post))).
Proof.
  unfold Js.runOf. intros Hd1 Hd2 Hs1 Hs2 Hsep.
  destruct d1 as [|c1 d1]; [discriminate |].
  destruct d2 as [|c2 d2]; [discriminate |].
  simpl in Hd1, Hd2.
  apply andb_true_iff in Hd1 as [Hc1 Hd1]. apply andb_true_iff in Hd2 as [Hc2 Hd2].
  unfold matchAt, pattern3. simpl. rewrite Hc1.
  apply greedy_finds; [exact Hd1 |].
  apply greedy_finds; [exact Hs1 |].
  rewrite Hsep.
  apply greedy_finds; [exact Hs2 |].
  simpl. rewrite Hc2.
  apply greedy_finds; [exact Hd2 | eauto].
Qed.

Lemma exec_finds (r : regex) (pre rest : string) :
  is_Some (matchAt r rest) -> is_Some (exec r (pre +:+ rest)).
Proof.
  intros Hm. induction pre as [|c pre IH]; simpl.
  - destruct rest; simpl; destruct Hm as [caps ->]; eauto.
  - destruct (matchAt r (String c (pre +:+ rest))); [eauto | exact IH].
Qed.

(** X5.  A text that holds, anywhere, a run of digits, optional white space, a
    dash or a colon, optional white space and a run of digits, and that
    neither of the first two expressions matches, is parsed with
    confidence medium, both scores and no names. *)
Theorem parseScoreText_bare_scores
    (pre d1 sp1 sp2 d2 post : string) (sep : ascii) :
  Js.runOf Js.isDigit d1 = true -> Js.runOf Js.isDigit d2 = true ->
  Js.allIn Js.isSpace sp1 = true -> Js.allIn Js.isSpace sp2 = true ->
  isDashOrColon sep = true ->
  let text := pre +:+ d1 +:+ sp1 +:+ String sep (sp2 +:+ d2 +:+ post) in
  exec pattern1 text = None -> exec pattern2 text = None ->
  exists s1 s2,
    parseScoreText text
    = {| player1Name := None; player2Name := None;
         player1Score := Some s1; player2Score := Some s2;
         winnerName := None; confidence := medium; error := None |}.
Proof.
  intros Hd1 Hd2 Hs1 Hs2 Hsep text H1 H2.
  destruct (exec_finds pattern3 pre _
              (pattern3_matches_here d1 sp1 sp2 d2 post sep Hd1 Hd2 Hs1 Hs2 Hsep))
    as [caps Hcaps].
  eexists _, _. exact (parseScoreText_tier3 text caps H1 H2 Hcaps).
Qed.

Lemma parseScoreText_bare_scores_witness :
  exists s1 s2,
    parseScoreText "Won 9 : 5 today"
    = {| player1Name := None; player2Name := None;
         player1Score := Some s1; player2Score := Some s2;
         winnerName := None; confidence := medium; error := None |}.
Proof.
  exact (parseScoreText_bare_scores "Won " "9" " " " " "5" " today" ":"
           eq_refl eq_refl eq_refl eq_refl eq_refl eq_refl eq_refl).
Defined.

End BareScores.

(** ** Two reports, end to end *)

Section Scenarios.
Import ScoreParser Sms.

(** "John 9 Sarah 4" from John Smith, whose match against Sarah Jones is a
    race to 9: trust 90, winner John Smith, the match completed 9-4 and
    the report approved. *)
Theorem report_auto_applied :
  exists db1 db2 db3,
    POST Examples.johnReports Examples.store0
    = ([db1; db2; db3], "Score recorded! John Smith wins 9-4. Thanks for reporting!")
    /\ matches db3 !! "m1"
       = Some (completeRow (Some "id-John Smith") 9 4 1000%nat
                 (row Examples.johnSarah))
    /\ matches db3 !! "m2" = Some (row Examples.mikeLisa)
    /\ (ScoreReport.confidence_score <$> score_reports db3 !! "r1") = Some (Some 90)
    /\ (ScoreReport.parsed_winner_id <$> score_reports db3 !! "r1")
       = Some (Some "id-John Smith")
    /\ reportStatusIn db3 "r1" = Some approved.
Proof. eexists _, _, _. repeat split; vm_compute; reflexivity. Qed.

(** "Mike beat Lisa 7-2" in a race to 9: validation fails, the trust is
    capped at 40, no winner is bound, the report waits as pending and no
    match changes. *)
Theorem report_queued :
  exists db1,
    POST Examples.mikeReports Examples.store0
    = ([db1], "Score report received: Mike 7 - Lisa 2. Pending director approval.")
    /\ matches db1 = matches Examples.store0
    /\ (ScoreReport.confidence_score <$> score_reports db1 !! "r2") = Some (Some 40)
    /\ (ScoreReport.parsed_winner_id <$> score_reports db1 !! "r2") = Some None
    /\ reportStatusIn db1 "r2" = Some report_pending
    /\ validateScore (parseScoreText "Mike beat Lisa 7-2") 9
       = invalid "One player must reach 9 points".
Proof. eexists. repeat split; vm_compute; reflexivity. Qed.

End Scenarios.

(** ** The end of a bracket *)

Section BracketEnd.
Import BracketLib.
Local Open Scope nat_scope.

(** [isBracketComplete] holds exactly when there is a match, the matches
    of the highest round are one match only, and that match has a winner;
    in particular it fails without matches. *)
Theorem isBracketComplete_final (matches : list Match.t) :
  (isBracketComplete matches = true <->
     matches <> []
     /\ exists finalMatch winner,
          List.filter (fun m => Match.round_number m =? maxRound matches) matches
          = [finalMatch]
          /\ Match.winner_id finalMatch = Some winner)
  /\ isBracketComplete [] = false
  /\ (isBracketComplete matches = false -> getBracketWinner matches = None).
Proof.
  split; [split |].
  - intros H. unfold isBracketComplete in H.
    destruct matches as [|m0 ms]; [discriminate |].
    split; [discriminate |].
    destruct (List.filter _ (m0 :: ms)) as [|f [|? ?]]; try discriminate.
    destruct (Match.winner_id f) as [w|] eqn:Hw; [eauto | discriminate].
  - intros (Hne & f & w & Hf & Hw). unfold isBracketComplete.
    destruct matches as [|m0 ms]; [congruence |].
    rewrite Hf, Hw. reflexivity.
  - split; [reflexivity |].
    intros H. unfold getBracketWinner. rewrite H. reflexivity.
Qed.

(** [isRoundComplete] holds exactly when the round has a match and
    every match of the round is completed or a bye. *)
Theorem isRoundComplete_iff (matches : list Match.t) (roundNumber : nat) :
  isRoundComplete matches roundNumber = true <->
  (exists m, In m matches /\ Match.round_number m = roundNumber)
  /\ (forall m, In m matches -> Match.round_number m = roundNumber ->
        Match.status m = completed \/ Match.status m = bye).
Proof.
  unfold isRoundComplete. rewrite andb_true_iff, Nat.ltb_lt, forallb_forall.
  split.
  - intros [Hlen Hall]. split.
    + destruct (List.filter _ matches) as [|m l] eqn:Hf; [simpl in Hlen; lia |].
      assert (Hin : In m (List.filter
                (fun m => Match.round_number m =? roundNumber) matches))
        by (rewrite Hf; left; reflexivity).
      apply filter_In in Hin as [Hin Hr]. apply Nat.eqb_eq in Hr. eauto.
    + intros m Hin Hr.
      assert (Hf : finished m = true).
      { apply Hall. apply filter_In. split; [exact Hin |]. by apply Nat.eqb_eq. }
      unfold finished in Hf. destruct (Match.status m); simpl in Hf; auto; discriminate.
  - intros [(m & Hin & Hr) Hall]. split.
    + assert (Hf : In m (List.filter
                (fun m => Match.round_number m =? roundNumber) matches)).
      { apply filter_In. split; [exact Hin |]. by apply Nat.eqb_eq. }
      destruct (List.filter _ matches); [destruct Hf | simpl; lia].
    + intros x Hx. apply filter_In in Hx as [Hx Hr']. apply Nat.eqb_eq in Hr'.
      unfold finished. destruct (Hall x Hx Hr') as [-> | ->]; reflexivity.
Qed.

(** X6.  The losers of a round are the sides that did not win a completed
    match of that round; a bye, not being completed, contributes none. *)
Theorem getLosersFromRound_sides (matches : list Match.t) (roundNumber : nat)
    (loser : string) :
  loser ∈ getLosersFromRound matches roundNumber <->
  exists m,
    In m matches /\ Match.round_number m = roundNumber
    /\ Match.status m = completed
    /\ ((Match.winner_id m = Match.player1_id m /\ Match.player2_id m = Some loser)
        \/ (Match.winner_id m <> Match.player1_id m
            /\ Match.player1_id m = Some loser)).
Proof.
  assert (Heqb : forall a b, optStringEqb a b = true <-> a = b).
  { intros [a|] [b|]; simpl; try (split; congruence).
    rewrite String.eqb_eq. split; congruence. }
  unfold getLosersFromRound. rewrite list_elem_of_omap. split.
  - intros (m & Hm & Hside).
    apply list_elem_of_In, filter_In in Hm as [Hin Hc].
    apply andb_true_iff in Hc as [Hr Hst]. apply Nat.eqb_eq in Hr.
    exists m. split; [exact Hin |]. split; [exact Hr |]. split.
    + destruct (Match.status m); simpl in Hst; try discriminate; reflexivity.
    + destruct (optStringEqb (Match.winner_id m) (Match.player1_id m)) eqn:He.
      * left. split; [by apply Heqb | exact Hside].
      * right. split; [| exact Hside].
        intros Heq. apply Heqb in Heq. congruence.
  - intros (m & Hin & Hr & Hst & Hside). exists m. split.
    + apply list_elem_of_In, filter_In. split; [exact Hin |].
      rewrite Hst. apply andb_true_iff. split; [by apply Nat.eqb_eq | reflexivity].
    + destruct Hside as [[Hw Hl] | [Hw Hl]].
      * apply Heqb in Hw. by rewrite Hw.
      * destruct (optStringEqb (Match.winner_id m) (Match.player1_id m)) eqn:He;
          [apply Heqb in He; contradiction | exact Hl].
Qed.

End BracketEnd.

(** ** Manual score entry *)

Section ManualEntry.
Import ScoreParser ManualScoreEntry.

(** X7.  [validateScores], case by case.  The six outcomes below are all there
    are: the message "Losing score must be less than ..." of the last
    check is never returned, since a pair that gets that far has its
    smaller score below the match length. *)
Theorem validateScores_cases (p1Score p2Score matchLength : Z) :
  let result := validateScores p1Score p2Score matchLength in
  (p1Score < 0 \/ p2Score < 0 -> result = Some "Scores must be positive")
  /\ (0 <= p1Score -> 0 <= p2Score ->
      (matchLength < p1Score /\ matchLength < p2Score ->
         result = Some ("Scores cannot both exceed match length ("
                        +:+ pretty matchLength +:+ ")"))
      /\ (~ (matchLength < p1Score /\ matchLength < p2Score) ->
          p1Score <> matchLength -> p2Score <> matchLength ->
          result = Some ("One player must reach " +:+ pretty matchLength
                         +:+ " points to win"))
      /\ (p1Score = matchLength -> p2Score = matchLength ->
          result = Some "Scores cannot be tied")
      /\ ((p1Score = matchLength /\ matchLength < p2Score)
          \/ (p2Score = matchLength /\ matchLength < p1Score) ->
          result = Some ("Winner must have exactly " +:+ pretty matchLength
                         +:+ " points"))
      /\ ((p1Score = matchLength /\ p2Score < matchLength)
          \/ (p2Score = matchLength /\ p1Score < matchLength) ->
          result = None))
  /\ In result
       [ None;
         Some "Scores must be positive";
         Some ("Scores cannot both exceed match length ("
               +:+ pretty matchLength +:+ ")");
         Some ("One player must reach " +:+ pretty matchLength +:+ " points to win");
         Some "Scores cannot be tied";
         Some ("Winner must have exactly " +:+ pretty matchLength +:+ " points") ].
Proof.
  cbv zeta. unfold validateScores.
  destruct (Z.ltb_spec p1Score 0), (Z.ltb_spec p2Score 0),
    (Z.gtb_spec p1Score matchLength), (Z.gtb_spec p2Score matchLength),
    (Z.eqb_spec p1Score matchLength), (Z.eqb_spec p2Score matchLength),
    (Z.eqb_spec p1Score p2Score),
    (Z.eqb_spec (Z.max p1Score p2Score) matchLength),
    (Z.geb_spec (Z.min p1Score p2Score) matchLength);
    simpl; try lia;
    (split; [intros; (reflexivity || lia) |]);
    (split; [intros; repeat split; intros; (reflexivity || lia) |]);
    simpl; tauto.
Qed.

Lemma validateScores_accepts (p1Score p2Score matchLength : Z) :
  validateScores p1Score p2Score matchLength = None <->
  0 <= p1Score /\ 0 <= p2Score
  /\ ((p1Score = matchLength /\ p2Score < matchLength)
      \/ (p2Score = matchLength /\ p1Score < matchLength)).
Proof.
  unfold validateScores.
  destruct (Z.ltb_spec p1Score 0), (Z.ltb_spec p2Score 0),
    (Z.gtb_spec p1Score matchLength), (Z.gtb_spec p2Score matchLength),
    (Z.eqb_spec p1Score matchLength), (Z.eqb_spec p2Score matchLength),
    (Z.eqb_spec p1Score p2Score),
    (Z.eqb_spec (Z.max p1Score p2Score) matchLength),
    (Z.geb_spec (Z.min p1Score p2Score) matchLength);
    simpl; split; intros; try discriminate; try reflexivity; lia.
Qed.

(** X8.  The dialog and the SMS validator accept the same scores: two
    non-negative scores, exactly one of them the match length and the
    other one below it. *)
Theorem validateScores_agrees_with_validateScore (p1Score p2Score matchLength : Z) :
  (validateScores p1Score p2Score matchLength = None <->
   valid (validateScore
            (Examples.scoresOnly (Some p1Score) (Some p2Score)) matchLength) = true)
  /\ (validateScores p1Score p2Score matchLength = None <->
      0 <= p1Score /\ 0 <= p2Score
      /\ ((p1Score = matchLength /\ p2Score < matchLength)
          \/ (p2Score = matchLength /\ p1Score < matchLength))).
Proof.
  pose proof (validateScores_accepts p1Score p2Score matchLength) as H.
  split; [| exact H].
  rewrite H.
  rewrite (validateScore_valid_scores
             (Examples.scoresOnly (Some p1Score) (Some p2Score)) matchLength
             p1Score p2Score eq_refl eq_refl).
  reflexivity.
Qed.

(** X9.  [handleSubmit] writes nothing unless the scores pass [validateScores]
    and the store accepts the update.  When it saves, the row of the match
    is completed with the two scores; one of them is the match length, the
    other lies below it and is not negative, and the winner written is the
    side of the loaded match that has the match length. *)
Theorem handleSubmit_saves_valid_result (key : string) (m : Match.t)
    (p1Score p2Score matchLength : Z) (tableNumber : option nat)
    (now : Timestamp) (updateError : bool) (db : Sms.Store) :
  let after := fst (handleSubmit key m p1Score p2Score matchLength tableNumber
                      now updateError db) in
  let outcome := snd (handleSubmit key m p1Score p2Score matchLength tableNumber
                        now updateError db) in
  (outcome = Saved <->
     validateScores p1Score p2Score matchLength = None /\ updateError = false)
  /\ (outcome <> Saved -> after = db)
  /\ (outcome = Saved ->
      Sms.score_reports after = Sms.score_reports db
      /\ (forall other, other <> key ->
            Sms.matches after !! other = Sms.matches db !! other)
      /\ Sms.matches after !! key
         = saveRow (winnerId m p1Score p2Score) p1Score p2Score tableNumber now
             <$> Sms.matches db !! key
      /\ Sms.matchStatusIn after key
         = (fun _ => completed) <$> Sms.matches db !! key
      /\ ((p1Score = matchLength /\ 0 <= p2Score < matchLength
           /\ winnerId m p1Score p2Score = Match.player1_id m)
          \/ (p2Score = matchLength /\ 0 <= p1Score < matchLength
              /\ winnerId m p1Score p2Score = Match.player2_id m))).
Proof.
  cbv zeta. unfold handleSubmit.
  pose proof (validateScores_accepts p1Score p2Score matchLength) as Hv.
  destruct (validateScores p1Score p2Score matchLength) as [err|] eqn:He.
  - cbn [fst snd]. split; [split; [discriminate | intros [? _]; discriminate] |].
    split; [reflexivity | discriminate].
  - destruct updateError; cbn [fst snd].
    + split; [split; [discriminate | intros [_ ?]; discriminate] |].
      split; [reflexivity | discriminate].
    + split; [split; auto |]. split; [congruence |]. intros _.
      split; [reflexivity |].
      split; [intros other Hne; cbn; by rewrite lookup_alter_ne |].
      split; [cbn; apply lookup_alter_eq |].
      split.
      { unfold Sms.matchStatusIn. cbn. rewrite lookup_alter_eq.
        destruct (Sms.matches db !! key); reflexivity. }
      destruct (proj1 Hv eq_refl) as (H1 & H2 & Hside). unfold winnerId.
      destruct (Z.gtb_spec p1Score p2Score), (Z.gtb_spec p2Score p1Score);
        destruct Hside as [[? ?] | [? ?]]; try lia;
        [left | right]; (split; [assumption |]); (split; [lia | reflexivity]).
Qed.

End ManualEntry.

(** ** What the intake handler writes, and what it leaves alone *)

Section IntakeWrites.
Import ScoreParser Sms.

Lemma parseScoreText_low (text : string) :
  confidence (parseScoreText text) = low -> parseScoreText text = couldNotParse.
Proof.
  unfold parseScoreText.
  destruct (Regex.exec pattern1 text); [discriminate |].
  destruct (Regex.exec pattern2 text); [discriminate |].
  destruct (Regex.exec pattern3 text); [discriminate | reflexivity].
Qed.

Lemma confidenceScore_values (text : string) (matchLength : Z) :
  let trust := confidenceScore (parseScoreText text) matchLength in
  (valid (validateScore (parseScoreText text) matchLength) = true ->
   trust = 90 \/ trust = 60)
  /\ (valid (validateScore (parseScoreText text) matchLength) = false ->
      trust = 40 \/ trust = 30).
Proof.
  cbv zeta.
  pose proof (confidenceScore_of_parse text matchLength) as Hc. cbv zeta in Hc.
  destruct (parseScoreText_scores_or_low text) as [[[s1 H1] [s2 H2]] | Hlow].
  - destruct (valid (validateScore (parseScoreText text) matchLength)) eqn:Hv;
      split; intros; try discriminate; rewrite Hc.
    + destruct (confidence (parseScoreText text)) eqn:Hconf; simpl; auto.
      exfalso. rewrite (parseScoreText_low text Hconf) in H1. discriminate.
    + destruct (confidence (parseScoreText text)); simpl; auto.
  - rewrite Hlow. split; intros H; [discriminate | simpl; auto].
Qed.

Lemma selectTargetMatch_none (text : string) (activeMatches : list ActiveMatch) :
  selectTargetMatch text activeMatches = None <-> activeMatches = [].
Proof.
  unfold selectTargetMatch. destruct activeMatches as [|first rest]; [tauto |].
  destruct (1 <? length (first :: rest))%nat; [| split; discriminate].
  destruct (List.find _ _); split; discriminate.
Qed.

(** X10.  The route writes nothing exactly when it ends before the insert
    of the report has taken effect: the form data cannot be read; in
    production, the signature check throws or rejects the request; a query
    throws; the sender's phone is unknown; the sender has no active match;
    the insert throws or is refused.  In every other case the first write
    is the insert of the report, as pending.  A request whose signature is
    rejected is answered "Invalid request"; without an auth token no
    request is rejected; and when the signature passes and nothing throws,
    the route is the handler [POST]. *)
Theorem route_writes_nothing_iff (req : Request) (db : Store) :
  (fst (route req db) = [] <->
     throwsAt req = Some FormData
     \/ (production req = true
         /\ (throwsAt req = Some Signature
             \/ validateTwilioSignature (authToken req) (requestValid req) = false))
     \/ throwsAt req = Some PlayerQuery
     \/ player (env req) = None
     \/ throwsAt req = Some MatchesQuery
     \/ activeMatches (env req) = []
     \/ throwsAt req = Some ReportInsert
     \/ reportError (env req) = true)
  /\ (forall db1 later, fst (route req db) = db1 :: later ->
        matches db1 = matches db
        /\ reportStatusIn db1 (reportId (env req)) = Some report_pending
        /\ forall other, other <> reportId (env req) ->
             score_reports db1 !! other = score_reports db !! other)
  /\ (production req = true ->
      validateTwilioSignature (authToken req) (requestValid req) = false ->
      throwsAt req <> Some FormData -> throwsAt req <> Some Signature ->
      route req db = ([], "Invalid request"))
  /\ (Js.truthyOpt (authToken req) = false ->
      validateTwilioSignature (authToken req) (requestValid req) = true)
  /\ (throwsAt req = None ->
      production req
      && negb (validateTwilioSignature (authToken req) (requestValid req)) = false ->
      route req db = POST (env req) db).
Proof.
  split; [| split; [| split; [| split]]].
  - unfold route, throws.
    pose proof (selectTargetMatch_none (body (env req)) (activeMatches (env req)))
      as Hnone.
    destruct (throwsAt req) as [[]|]; cbn [Step_eqb];
      destruct (production req);
      destruct (validateTwilioSignature (authToken req) (requestValid req));
      cbn [andb negb fst];
      try (split; [intros _; tauto | reflexivity]);
      (destruct (player (env req)) as [sender|];
       [| split; [intros _; tauto | reflexivity]]);
      try (split; [intros _; tauto | reflexivity]);
      (destruct (selectTargetMatch (body (env req)) (activeMatches (env req)))
         as [target|];
       [| split; [intros _; do 5 right; left; apply Hnone; reflexivity
                 | reflexivity]]);
      cbv zeta;
      try (split; [intros _; tauto | reflexivity]);
      (destruct (reportError (env req));
       [split; [intros _; tauto | reflexivity] |]);
      (assert (Hact : activeMatches (env req) <> [])
         by (intros H; apply Hnone in H; discriminate));
      (destruct (autoApproves _ _ _) as [[s1 s2]|];
       [try destruct (matchError (env req)) |]);
      cbn [fst];
      (split; [discriminate |]);
      intros [H | [[H1 [H | H]] | [H | [H | [H | [H | [H | H]]]]]]];
      congruence.
  - unfold route, throws. intros db1 later.
    destruct (throwsAt req) as [[]|]; cbn [Step_eqb];
      destruct (production req);
      destruct (validateTwilioSignature (authToken req) (requestValid req));
      cbn [andb negb fst]; try discriminate;
      (destruct (player (env req)) as [sender|]; [| discriminate]);
      try discriminate;
      (destruct (selectTargetMatch (body (env req)) (activeMatches (env req)))
         as [target|]; [| discriminate]);
      cbv zeta; try discriminate;
      (destruct (reportError (env req)); [discriminate |]);
      (destruct (autoApproves _ _ _) as [[s1 s2]|];
       [try destruct (matchError (env req)) |]);
      cbn [fst]; intros [= <- _];
      (split; [reflexivity |]);
      (split; [unfold reportStatusIn, insertReport; cbn;
               rewrite lookup_insert_eq; reflexivity |]);
      intros other Hne; unfold insertReport; cbn; by rewrite lookup_insert_ne.
  - intros Hp Hv H1 H2. unfold route, throws. rewrite Hp, Hv.
    destruct (throwsAt req) as [[]|]; cbn [Step_eqb andb negb];
      congruence.
  - intros Ht. unfold validateTwilioSignature. rewrite Ht. reflexivity.
  - intros Ht Hs. unfold route, throws. rewrite Ht, Hs, andb_false_r.
    unfold POST. reflexivity.
Qed.

(** X11.  A report whose scores fail [validateScore] is never applied: the only
    write is the pending report, with a trust of 40 or 30 and no winner
    bound, and every match is as it was. *)
Theorem POST_invalid_report_is_queued (env : Env) (db : Store)
    (sender : Player.t) (targetMatch : ActiveMatch) :
  player env = Some sender ->
  selectTargetMatch (body env) (activeMatches env) = Some targetMatch ->
  reportError env = false ->
  valid (validateScore (parseScoreText (body env)) (matchLengthOf targetMatch))
  = false ->
  exists db1 report trust,
    POST env db = ([db1], pendingReply targetMatch (parseScoreText (body env)))
    /\ matches db1 = matches db
    /\ score_reports db1 !! reportId env = Some report
    /\ ScoreReport.status report = report_pending
    /\ ScoreReport.parsed_winner_id report = None
    /\ ScoreReport.match_id report = id targetMatch
    /\ ScoreReport.confidence_score report = Some trust
    /\ (trust = 40 \/ trust = 30).
Proof.
  intros Hp Ht He Hv.
  pose proof (proj2 (confidenceScore_values (body env) (matchLengthOf targetMatch)) Hv)
    as Htrust.
  unfold POST. rewrite Hp, Ht, He.
  rewrite (resolveWinner_needs_valid (parseScoreText (body env)) targetMatch _ Hv).
  assert (Hno : autoApproves
                  (confidenceScore (parseScoreText (body env))
                     (matchLengthOf targetMatch))
                  None (parseScoreText (body env)) = None).
  { unfold autoApproves.
    destruct (player1Score (parseScoreText (body env))); [| reflexivity].
    destruct (player2Score (parseScoreText (body env))); [| reflexivity].
    by rewrite andb_false_r. }
  rewrite Hno.
  eexists _, _, _. split; [reflexivity |].
  split; [reflexivity |].
  split; [cbn; apply lookup_insert_eq |].
  repeat split. exact Htrust.
Qed.

Lemma POST_invalid_report_is_queued_witness :
  exists db1 report trust,
    POST Examples.mikeReports Examples.store0
    = ([db1], pendingReply Examples.mikeLisa (parseScoreText "Mike beat Lisa 7-2"))
    /\ matches db1 = matches Examples.store0
    /\ score_reports db1 !! "r2" = Some report
    /\ ScoreReport.status report = report_pending
    /\ ScoreReport.parsed_winner_id report = None
    /\ ScoreReport.match_id report = "m2"
    /\ ScoreReport.confidence_score report = Some trust
    /\ (trust = 40 \/ trust = 30).
Proof.
  exact (POST_invalid_report_is_queued Examples.mikeReports Examples.store0
           (Examples.playerNamed "Mike") Examples.mikeLisa
           eq_refl eq_refl eq_refl eq_refl).
Defined.

(** X12.  Whatever the handler does, it touches one match at most, the target,
    and one report, the new one: in every store it goes through, every
    other match and every other report is as it was. *)
Theorem POST_touches_target_only (env : Env) (db : Store)
    (targetMatch : ActiveMatch) (after : Store) :
  selectTargetMatch (body env) (activeMatches env) = Some targetMatch ->
  In after (fst (POST env db)) ->
  (forall other, other <> id targetMatch ->
     matches after !! other = matches db !! other)
  /\ (forall other, other <> reportId env ->
        score_reports after !! other = score_reports db !! other).
Proof.
  intros Ht Hin. unfold POST in Hin. rewrite Ht in Hin.
  destruct (player env) as [sender|]; [| destruct Hin].
  destruct (reportError env); [destruct Hin |].
  set (db1 := insertReport _ _ db) in Hin.
  assert (H1 : (forall other, other <> id targetMatch ->
                  matches db1 !! other = matches db !! other)
               /\ (forall other, other <> reportId env ->
                     score_reports db1 !! other = score_reports db !! other)).
  { split; [reflexivity |]. intros other Hne. unfold db1, insertReport. cbn.
    by rewrite lookup_insert_ne. }
  assert (H2 : forall w s1 s2,
            (forall other, other <> id targetMatch ->
               matches (completeMatch (id targetMatch) w s1 s2 (now env) db1) !! other
               = matches db !! other)
            /\ (forall other, other <> reportId env ->
                  score_reports (completeMatch (id targetMatch) w s1 s2 (now env) db1)
                    !! other
                  = score_reports db !! other)).
  { intros w s1 s2. split; [| exact (proj2 H1)].
    intros other Hne. unfold completeMatch. cbn. by rewrite lookup_alter_ne. }
  assert (H3 : forall w s1 s2,
            (forall other, other <> id targetMatch ->
               matches (approveReport (reportId env) (now env)
                          (completeMatch (id targetMatch) w s1 s2 (now env) db1))
                 !! other
               = matches db !! other)
            /\ (forall other, other <> reportId env ->
                  score_reports
                    (approveReport (reportId env) (now env)
                       (completeMatch (id targetMatch) w s1 s2 (now env) db1))
                    !! other
                  = score_reports db !! other)).
  { intros w s1 s2. split; [exact (proj1 (H2 w s1 s2)) |].
    intros other Hne. unfold approveReport. cbn [score_reports].
    rewrite lookup_alter_ne by congruence. by apply (H2 w s1 s2). }
  destruct (autoApproves _ _ _) as [[s1 s2]|];
    [destruct (matchError env); [| destruct (approveError env)] |];
    cbn [fst In] in Hin;
    repeat match goal with
      | H : _ \/ _ |- _ => destruct H
      | H : False |- _ => destruct H
      end; subst after; auto.
Qed.

Lemma POST_touches_target_only_witness :
  matches (approveReport "r1" 1000%nat
             (completeMatch "m1" (Some "id-John Smith") 9 4 1000%nat
                (insertReport "r1"
                   (newReport Examples.johnReports (Examples.playerNamed "John Smith")
                      Examples.johnSarah (parseScoreText "John 9 Sarah 4")
                      (Some "id-John Smith") 90)
                   Examples.store0))) !! "m2"
  = matches Examples.store0 !! "m2".
Proof.
  refine (proj1 (POST_touches_target_only Examples.johnReports Examples.store0
                   Examples.johnSarah _ eq_refl _) "m2" _).
  - vm_compute. right. right. left. reflexivity.
  - discriminate.
Defined.

(** X13.  When the report names as winner the second participant of the match
    (and not the first), and its first score is the higher one, the
    auto-approval completes the match with the second participant as
    winner while the first participant holds the higher score: the parsed
    scores go to the match's sides in the order of the text, not by
    name. *)
Theorem POST_winner_with_lower_score (env : Env) (db : Store)
    (sender p2 : Player.t) (targetMatch : ActiveMatch) (s1 s2 : Z) (name : string) :
  player env = Some sender ->
  selectTargetMatch (body env) (activeMatches env) = Some targetMatch ->
  reportError env = false -> matchError env = false ->
  autoApproves
    (confidenceScore (parseScoreText (body env)) (matchLengthOf targetMatch))
    (resolveWinner (parseScoreText (body env)) targetMatch (matchLengthOf targetMatch))
    (parseScoreText (body env)) = Some (s1, s2) ->
  winnerName (parseScoreText (body env)) = Some name -> name <> EmptyString ->
  nameIncludes (player1 targetMatch) (Js.toLowerCase name) = false ->
  player2 targetMatch = Some p2 -> Player.id p2 <> EmptyString ->
  Js.includes (Js.toLowerCase (Player.name p2)) (Js.toLowerCase name) = true ->
  s2 < s1 ->
  exists db1 db2 later,
    fst (POST env db) = db1 :: db2 :: later
    /\ matches db2 !! id targetMatch
       = completeRow (Some (Player.id p2)) s1 s2 (now env)
           <$> matches db !! id targetMatch
    /\ Match.player2_score (completeRow (Some (Player.id p2)) s1 s2 (now env)
                              (row targetMatch))
       < Match.player1_score (completeRow (Some (Player.id p2)) s1 s2 (now env)
                                (row targetMatch)).
Proof.
  intros Hp Ht He Hm Ha Hn Hne H1 Hp2 Hid Hinc Hlt.
  assert (Hw : resolveWinner (parseScoreText (body env)) targetMatch
                 (matchLengthOf targetMatch) = Some (Player.id p2)).
  { assert (Hv : valid (validateScore (parseScoreText (body env))
                          (matchLengthOf targetMatch)) = true).
    { destruct (valid _) eqn:Hv; [reflexivity |].
      rewrite (resolveWinner_needs_valid (parseScoreText (body env)) targetMatch
                 _ Hv) in Ha.
      unfold autoApproves in Ha.
      destruct (player1Score (parseScoreText (body env))); [| discriminate].
      destruct (player2Score (parseScoreText (body env))); [| discriminate].
      rewrite andb_false_r in Ha. discriminate. }
    destruct (validateScore_present _ _ Hv) as (x1 & x2 & Hx1 & Hx2).
    unfold resolveWinner. rewrite Hx1, Hx2, Hv.
    rewrite (winnerByName_second _ targetMatch name Hn Hne H1)
      by (unfold nameIncludes; rewrite Hp2; exact Hinc).
    rewrite Hp2. simpl. destruct (Player.id p2); [congruence | reflexivity]. }
  unfold POST. rewrite Hp, Ht, He, Ha, Hm, Hw.
  eexists _, _, _. split; [reflexivity |].
  split; [| simpl; lia].
  unfold completeMatch, insertReport. cbn. apply lookup_alter_eq.
Qed.

Lemma POST_winner_with_lower_score_witness :
  exists db1 db2 later,
    fst (POST Examples.lisaReports Examples.store0) = db1 :: db2 :: later
    /\ matches db2 !! "m2"
       = completeRow (Some "id-Lisa") 9 7 3000%nat <$> matches Examples.store0 !! "m2"
    /\ Match.player2_score (completeRow (Some "id-Lisa") 9 7 3000%nat
                              (row Examples.mikeLisa))
       < Match.player1_score (completeRow (Some "id-Lisa") 9 7 3000%nat
                                (row Examples.mikeLisa)).
Proof.
  refine (POST_winner_with_lower_score Examples.lisaReports Examples.store0
            (Examples.playerNamed "Lisa") (Examples.playerNamed "Lisa")
            Examples.mikeLisa 9 7 "Lisa"
            eq_refl eq_refl eq_refl eq_refl eq_refl eq_refl _ eq_refl eq_refl _
            eq_refl _); [discriminate | discriminate | lia].
Defined.

End IntakeWrites.

(** ** The director's approval *)

Section Approval.
Import ScoreParser Sms ScoreReportQueue.

(** X14.  [handleApprove] does not look at the match length or at the report's
    bound winner.  A refused match update ends the call with nothing
    written.  Otherwise the match is completed with the final scores (the
    director's, else the parsed ones, else 0) and the report is marked
    approved; the winner written is the first player when the first final
    score is the higher one and the second player in every other case, a
    tie included. *)
Theorem handleApprove_writes (r : ScoreReportWithDetails) (m : Match.t)
    (p1Score p2Score : option Z) (now : Timestamp) (db : Store) :
  matchRow r = Some m ->
  let finalP1 := finalScore p1Score (ScoreReport.parsed_player1_score (report r)) in
  let finalP2 := finalScore p2Score (ScoreReport.parsed_player2_score (report r)) in
  let winner := approvedWinner m finalP1 finalP2 in
  (forall approveError, handleApprove r p1Score p2Score now true approveError db = [])
  /\ (exists db1 db2,
        handleApprove r p1Score p2Score now false false db = [db1; db2]
        /\ matches db1 !! ScoreReport.match_id (report r)
           = completeRow winner finalP1 finalP2 now
               <$> matches db !! ScoreReport.match_id (report r)
        /\ score_reports db1 = score_reports db
        /\ matches db2 = matches db1
        /\ score_reports db2 !! id r = approveRow now <$> score_reports db !! id r)
  /\ (finalP2 < finalP1 -> winner = Match.player1_id m)
  /\ (finalP1 <= finalP2 -> winner = Match.player2_id m)
  /\ (p1Score = None -> ScoreReport.parsed_player1_score (report r) = None ->
      finalP1 = 0)
  /\ (p2Score = None -> ScoreReport.parsed_player2_score (report r) = None ->
      finalP2 = 0).
Proof.
  intros Hm. cbv zeta. unfold handleApprove. rewrite Hm.
  split; [reflexivity |]. split.
  { eexists _, _. split; [reflexivity |]. cbn.
    rewrite !lookup_alter_eq. repeat split. }
  unfold approvedWinner.
  destruct (Z.gtb_spec
              (finalScore p1Score (ScoreReport.parsed_player1_score (report r)))
              (finalScore p2Score (ScoreReport.parsed_player2_score (report r))));
    repeat split; intros; try lia; try reflexivity; subst;
    match goal with H : _ = None |- _ => rewrite H end; reflexivity.
Qed.

Lemma handleApprove_writes_witness :
  exists db1 db2,
    handleApprove
      {| id := "q"; report := Examples.queuedReport "m1" None None 30;
         matchRow := Some (row Examples.johnSarah) |}
      None None 10%nat false false Examples.store0 = [db1; db2]
    /\ matches db1 !! "m1"
       = Some (completeRow (Some "id-Sarah Jones") 0 0 10%nat (row Examples.johnSarah)).
Proof.
  destruct (handleApprove_writes
              {| id := "q"; report := Examples.queuedReport "m1" None None 30;
                 matchRow := Some (row Examples.johnSarah) |}
              (row Examples.johnSarah) None None 10%nat Examples.store0 eq_refl)
    as (_ & (db1 & db2 & Heq & Hrow & _) & _).
  exists db1, db2. split; [exact Heq |].
  refine (eq_trans Hrow _). vm_compute. reflexivity.
Defined.

(** X15.  A report that the intake stored with its winner bound by score (no
    participant was bound by name) is completed by an unedited approval
    with that same winner.  When a participant was bound by name, the
    stored winner is that participant, whatever the scores. *)
Theorem handleApprove_agrees_with_intake (env : Env) (sender : Player.t)
    (targetMatch : ActiveMatch) :
  valid (validateScore (parseScoreText (body env)) (matchLengthOf targetMatch))
  = true ->
  let parsed := parseScoreText (body env) in
  let stored :=
    newReport env sender targetMatch parsed
      (resolveWinner parsed targetMatch (matchLengthOf targetMatch))
      (confidenceScore parsed (matchLengthOf targetMatch)) in
  let approved :=
    approvedWinner (row targetMatch)
      (finalScore None (ScoreReport.parsed_player1_score stored))
      (finalScore None (ScoreReport.parsed_player2_score stored)) in
  (Js.truthyOpt (winnerByName parsed targetMatch) = false ->
   approved = ScoreReport.parsed_winner_id stored)
  /\ (Js.truthyOpt (winnerByName parsed targetMatch) = true ->
      ScoreReport.parsed_winner_id stored = winnerByName parsed targetMatch).
Proof.
  intros Hv. cbv zeta.
  destruct (validateScore_present _ _ Hv) as (s1 & s2 & H1 & H2).
  cbn [newReport ScoreReport.parsed_player1_score ScoreReport.parsed_player2_score
         ScoreReport.parsed_winner_id].
  unfold resolveWinner. rewrite H1, H2, Hv. cbn [finalScore].
  unfold approvedWinner.
  split; intros Hb; rewrite Hb; reflexivity.
Qed.

Lemma handleApprove_agrees_with_intake_witness :
  approvedWinner (row Examples.johnSarah) 9 4 = Some "id-John Smith".
Proof.
  assert (Hv : valid (validateScore (parseScoreText "9-4")
                        (matchLengthOf Examples.johnSarah)) = true) by reflexivity.
  exact (proj1 (handleApprove_agrees_with_intake
                  {| from := "+15550100"; body := "9-4";
                     player := Some (Examples.playerNamed "John Smith");
                     activeMatches := [Examples.johnSarah];
                     now := 1000%nat; reportId := "r1";
                     reportError := false; matchError := false;
                     approveError := false |}
                  (Examples.playerNamed "John Smith") Examples.johnSarah Hv)
           eq_refl).
Defined.

(** X16.  The badge of the queue shows what the intake stored: High for a
    high-confidence parse that passed validation, Medium for a
    medium-confidence one that passed, and Low for every report whose
    scores failed validation or could not be read. *)
Theorem getConfidenceBadge_of_intake (text : string) (matchLength : Z) :
  let parsed := parseScoreText text in
  let trust := confidenceScore parsed matchLength in
  getConfidenceBadge (Some trust)
  = if valid (validateScore parsed matchLength) then
      match confidence parsed with
      | high => High 90
      | medium => Medium 60
      | low => Low 30
      end
    else Low trust.
Proof.
  cbv zeta.
  pose proof (confidenceScore_of_parse text matchLength) as Hc. cbv zeta in Hc.
  pose proof (confidenceScore_values text matchLength) as [_ Hlow]. cbv zeta in Hlow.
  destruct (valid (validateScore (parseScoreText text) matchLength)).
  - rewrite Hc. destruct (confidence (parseScoreText text)); reflexivity.
  - destruct (Hlow eq_refl) as [-> | ->]; reflexivity.
Qed.

(** X17.  A report that the intake leaves pending with a trust of 80 or more
    (the reports "approve all" picks) is one whose auto-approval did not
    go through: no winner could be bound, or the store refused the match
    update or the approval. *)
Theorem POST_pending_high_confidence (env : Env) (db : Store)
    (sender : Player.t) (targetMatch : ActiveMatch) :
  player env = Some sender ->
  selectTargetMatch (body env) (activeMatches env) = Some targetMatch ->
  reportError env = false ->
  let parsed := parseScoreText (body env) in
  let final := lastStore db (fst (POST env db)) in
  reportStatusIn final (reportId env) = Some report_pending ->
  80 <= confidenceScore parsed (matchLengthOf targetMatch) ->
  Js.truthyOpt (resolveWinner parsed targetMatch (matchLengthOf targetMatch)) = false
  \/ matchError env = true \/ approveError env = true.
Proof.
  intros Hp Ht He. cbv zeta. intros Hpending Htrust.
  pose proof (confidenceScore_values (body env) (matchLengthOf targetMatch))
    as [Hval Hinv]. cbv zeta in Hval, Hinv.
  assert (Hv : valid (validateScore (parseScoreText (body env))
                        (matchLengthOf targetMatch)) = true).
  { destruct (valid _); [reflexivity |]. destruct (Hinv eq_refl); lia. }
  assert (H90 : confidenceScore (parseScoreText (body env))
                  (matchLengthOf targetMatch) = 90)
    by (destruct (Hval Hv); lia).
  destruct (validateScore_present _ _ Hv) as (s1 & s2 & H1 & H2).
  destruct (Js.truthyOpt (resolveWinner (parseScoreText (body env)) targetMatch
                            (matchLengthOf targetMatch))) eqn:Hw; [| auto].
  destruct (matchError env) eqn:Hm; [auto |].
  destruct (approveError env) eqn:Ha; [auto |].
  exfalso. unfold POST in Hpending.
  rewrite Hp, Ht, He in Hpending. unfold autoApproves in Hpending.
  rewrite H1, H2, H90, Hw, Hm, Ha in Hpending.
  cbn [Z.geb Z.compare andb fst lastStore List.last] in Hpending.
  unfold reportStatusIn, approveReport, completeMatch, insertReport in Hpending.
  cbn in Hpending. rewrite lookup_alter_eq, lookup_insert_eq in Hpending.
  discriminate.
Qed.

Lemma POST_pending_high_confidence_witness :
  Js.truthyOpt
    (resolveWinner (parseScoreText "John 9 Sarah 4") Examples.johnSarah 9) = false
  \/ true = true \/ false = true.
Proof.
  refine (POST_pending_high_confidence
            {| from := "+15550100"; body := "John 9 Sarah 4";
               player := Some (Examples.playerNamed "John Smith");
               activeMatches := [Examples.johnSarah];
               now := 1000%nat; reportId := "r1";
               reportError := false; matchError := true;
               approveError := false |}
            Examples.store0 (Examples.playerNamed "John Smith") Examples.johnSarah
            eq_refl eq_refl eq_refl _ _).
  - vm_compute. reflexivity.
  - vm_compute. discriminate.
Defined.

Lemma handleApprove_frame (r : ScoreReportWithDetails) (p1Score p2Score : option Z)
    (now : Timestamp) (matchError approveError : bool) (db : Store) :
  let after := lastStore db (handleApprove r p1Score p2Score now matchError
                               approveError db) in
  (forall other, other <> ScoreReport.match_id (report r) ->
     matches after !! other = matches db !! other)
  /\ (forall other, other <> id r ->
        score_reports after !! other = score_reports db !! other).
Proof.
  cbv zeta. unfold handleApprove.
  destruct (matchRow r) as [m|]; [| split; reflexivity].
  destruct matchError; [split; reflexivity |].
  destruct approveError; cbn [lastStore List.last]; split; intros other Hne;
    cbn; rewrite ?lookup_alter_ne by congruence; reflexivity.
Qed.

(** X18.  "Approve all" leaves alone every match that no high-confidence report
    of the queue points to, and every report that is not one of them. *)
Theorem handleApproveAll_frame (reports : list ScoreReportWithDetails)
    (now : ScoreReportWithDetails -> Timestamp)
    (matchError approveError : ScoreReportWithDetails -> bool)
    (db : Store) (other : string) :
  ((forall r, In r reports -> highConfidence r = true ->
      ScoreReport.match_id (report r) <> other) ->
   matches (handleApproveAll reports now matchError approveError db) !! other
   = matches db !! other)
  /\ ((forall r, In r reports -> highConfidence r = true -> id r <> other) ->
      score_reports (handleApproveAll reports now matchError approveError db) !! other
      = score_reports db !! other).
Proof.
  unfold handleApproveAll.
  assert (Hin : forall r, In r (List.filter highConfidence reports) ->
                  In r reports /\ highConfidence r = true)
    by (intros r; apply filter_In).
  revert db Hin. generalize (List.filter highConfidence reports) as l.
  induction l as [|r l IH]; intros db Hin; [split; reflexivity |].
  cbn [fold_left].
  destruct (IH (lastStore db (handleApprove r None None (now r) (matchError r)
                                (approveError r) db))
              (fun x Hx => Hin x (or_intror Hx))) as [IHm IHr].
  destruct (handleApprove_frame r None None (now r) (matchError r) (approveError r) db)
    as [Hm Hr]. cbv zeta in Hm, Hr.
  destruct (Hin r (or_introl eq_refl)) as [Hr1 Hr2].
  split; intros Hall.
  - rewrite (IHm Hall). apply Hm. intros ->. exact (Hall r Hr1 Hr2 eq_refl).
  - rewrite (IHr Hall). apply Hr. intros ->. exact (Hall r Hr1 Hr2 eq_refl).
Qed.

End Approval.


(** ** Round 1 as the tournament page generates it, and the size of a field *)

Section FieldSize.
Import BracketLib MatchRows.
Local Open Scope nat_scope.

Lemma round1Rows_shape (bracketId : string) (entries : list string) :
  forall matchNumber tableNumber,
    let rows := TournamentPage.round1Rows bracketId matchNumber tableNumber entries in
    length rows = (length entries + 1) / 2
    /\ map Match.match_number rows = seq matchNumber (length rows)
    /\ omap Match.table_number rows = seq tableNumber (length entries / 2)
    /\ length (List.filter isByeRow rows) = (if Nat.odd (length entries) then 1 else 0)
    /\ concat (map sides rows) = entries
    /\ Forall (fun m => Match.round_number m = 1 /\ Match.bracket_id m = bracketId
                        /\ (Match.status m = bye ->
                            Match.player2_id m = None
                            /\ Match.winner_id m = Match.player1_id m
                            /\ Match.table_number m = None)
                        /\ (Match.status m <> bye ->
                            Match.status m = pending /\ Match.winner_id m = None
                            /\ Match.table_number m
                               = Some (Match.match_number m + tableNumber - matchNumber)))
         rows.
Proof.
  induction entries as [| x | x y l IH] using pair_induction;
    intros n t; cbv zeta.
  - repeat split. constructor.
  - split; [| split; [| split; [| split; [| split]]]]; try reflexivity.
    constructor; [simpl; repeat split; intros; congruence | constructor].
  - destruct (IH (S n) (S t)) as (H1 & H2 & H3 & H4 & H5 & H6).
    cbn [TournamentPage.round1Rows].
    split; [| split; [| split; [| split; [| split]]]].
    + cbn [length]. rewrite H1.
      replace (S (S (length l)) + 1) with ((length l + 1) + 1 * 2) by lia.
      rewrite Nat.div_add by lia. lia.
    + cbn [map length seq Match.match_number]. by rewrite H2.
    + change (t :: omap Match.table_number
                     (TournamentPage.round1Rows bracketId (S n) (S t) l)
              = seq t (length (x :: y :: l) / 2)).
      rewrite H3. cbn [length].
      replace (S (S (length l))) with (length l + 1 * 2) by lia.
      rewrite Nat.div_add by lia.
      replace (length l / 2 + 1) with (S (length l / 2)) by lia. reflexivity.
    + cbn [List.filter isByeRow Match.status MatchStatus_eqb]. rewrite H4. reflexivity.
    + cbn [map concat]. rewrite H5. reflexivity.
    + constructor.
      * simpl. split; [reflexivity |]. split; [reflexivity |].
        split; [discriminate |]. intros _.
        split; [reflexivity |]. split; [reflexivity |]. f_equal. lia.
      * eapply Forall_impl; [exact H6 |]. simpl.
        intros m (Hr & Hb & Hbye & Hp).
        split; [exact Hr |]. split; [exact Hb |]. split; [exact Hbye |].
        intros Hnb. destruct (Hp Hnb) as (Hs & Hw & Ht).
        split; [exact Hs |]. split; [exact Hw |]. rewrite Ht. f_equal. lia.
Qed.

(** X19.  The tournament page pairs the shuffled entries two by two and never
    pads to a power of two: [n] entries give one match per two entries,
    rounded up, numbered from 1; the only bye is the last match, when [n]
    is odd; every other match is pending at the table of its own number;
    the sides of the matches, in order, are the entries. *)
Theorem page_generateRound1_shape (bracketId : string) (shuffledEntries : list string) :
  let rows := TournamentPage.generateRound1 bracketId shuffledEntries in
  let n := length shuffledEntries in
  length rows = (n + 1) / 2
  /\ map Match.match_number rows = seq 1 (length rows)
  /\ omap Match.table_number rows = seq 1 (n / 2)
  /\ length (List.filter isByeRow rows) = (if Nat.odd n then 1 else 0)
  /\ concat (map sides rows) = shuffledEntries
  /\ Forall (fun m => Match.round_number m = 1
                      /\ (Match.status m = bye ->
                          Match.player2_id m = None
                          /\ Match.winner_id m = Match.player1_id m
                          /\ Match.table_number m = None)
                      /\ (Match.status m <> bye ->
                          Match.status m = pending /\ Match.winner_id m = None
                          /\ Match.table_number m = Some (Match.match_number m)))
       rows.
Proof.
  cbv zeta. unfold TournamentPage.generateRound1.
  destruct (round1Rows_shape bracketId shuffledEntries 1 1)
    as (H1 & H2 & H3 & H4 & H5 & H6).
  split; [exact H1 |]. split; [exact H2 |]. split; [exact H3 |].
  split; [exact H4 |]. split; [exact H5 |].
  eapply Forall_impl; [exact H6 |]. simpl.
  intros m (Hr & _ & Hbye & Hp).
  split; [exact Hr |]. split; [exact Hbye |].
  intros Hnb. destruct (Hp Hnb) as (Hs & Hw & Ht).
  split; [exact Hs |]. split; [exact Hw |]. rewrite Ht. f_equal. lia.
Qed.

(** X20.  The library's round 1, in contrast, leaves a power of two: for two
    players or more it has [nextPowerOf2 N / 2] matches, which is 2 to the
    [calculateRounds N - 1], so that every later round pairs an even
    number of winners. *)
Theorem generateRound1Matches_count (random : nat -> nat)
    (players : list Player.t) (startingTableNumber : nat) :
  let N := length players in
  let round1 := generateRound1Matches random players startingTableNumber in
  (2 <= N ->
   2 * length round1 = nextPowerOf2 N
   /\ length round1 = 2 ^ (calculateRounds N - 1))
  /\ (N = 1 -> length round1 = 1)
  /\ (N = 0 -> length round1 = 0).
Proof.
  cbv zeta.
  destruct (generateRound1Matches_split random players startingTableNumber)
    as (Heq & Htake & Hdrop).
  cbv zeta in Heq, Htake, Hdrop.
  assert (Hlen : length (generateRound1Matches random players startingTableNumber)
                 = (nextPowerOf2 (length players) - length players)
                   + (2 * length players - nextPowerOf2 (length players) + 1) / 2).
  { rewrite Heq, length_app, byeMatches_length, regularMatches_length, Htake, Hdrop.
    reflexivity. }
  split; [| split].
  - intros HN.
    destruct (nextPowerOf2_even _ HN) as [half Hhalf].
    pose proof (nextPowerOf2_bounds (length players) ltac:(lia)) as Hb.
    assert (Hl : length (generateRound1Matches random players startingTableNumber)
                 = half).
    { rewrite Hlen, Hhalf.
      replace (2 * length players - 2 * half + 1)
        with (1 + (length players - half) * 2) by lia.
      rewrite Nat.div_add by lia. simpl. lia. }
    split; [lia |]. rewrite Hl.
    unfold calculateRounds. destruct (Nat.leb_spec (length players) 1); [lia |].
    unfold nextPowerOf2 in Hhalf.
    destruct (length players) as [|n] eqn:Hn; [lia |].
    pose proof (Nat.log2_up_pos (S n) ltac:(lia)) as Hpos.
    destruct (Nat.log2_up (S n)) as [|k]; [lia |].
    rewrite Nat.pow_succ_r' in Hhalf.
    replace (S k - 1) with k by lia. lia.
  - intros HN. rewrite Hlen, HN. reflexivity.
  - intros HN. rewrite Hlen, HN. reflexivity.
Qed.

Lemma halve_pow (r n : nat) : halve n <= 2 ^ r <-> n <= 2 ^ S r.
Proof.
  unfold halve. rewrite Nat.pow_succ_r'.
  pose proof (Nat.div_mod_eq (n + 1) 2) as Hd.
  pose proof (Nat.mod_upper_bound (n + 1) 2 ltac:(lia)) as Hm.
  lia.
Qed.

Lemma iter_halve_pow (r : nat) :
  forall n, Nat.iter r halve n <= 1 <-> n <= 2 ^ r.
Proof.
  induction r as [|r IH]; intros n; [simpl; lia |].
  rewrite Nat.iter_succ_r, IH. apply halve_pow.
Qed.

Lemma iter_halve_pos (r : nat) : forall n, 1 <= n -> 1 <= Nat.iter r halve n.
Proof.
  induction r as [|r IH]; intros n Hn; [exact Hn |].
  rewrite Nat.iter_succ_r. apply IH. unfold halve.
  pose proof (Nat.div_mod_eq (n + 1) 2) as Hd.
  pose proof (Nat.mod_upper_bound (n + 1) 2 ltac:(lia)) as Hm.
  lia.
Qed.

(** X21.  [calculateRounds] counts the rounds of a knock-out in which every
    round halves the field, rounding up: the players of an array are down
    to one after [calculateRounds] of their number rounds and not before.
    The count is the length of an array, below 2^32: there the logarithm
    of the source is exact enough for its ceiling to be the one the
    definition takes (from 2^49 + 1 on it is not). *)
Theorem calculateRounds_halves (players : list Player.t) :
  let n := length players in
  1 <= n -> (Z.of_nat n < 2 ^ 32)%Z ->
  Nat.iter (calculateRounds n) halve n = 1
  /\ (forall r, r < calculateRounds n -> 1 < Nat.iter r halve n)
  /\ Utils.calculateRounds n = calculateRounds n.
Proof.
  cbv zeta. generalize (length players) as n. clear players.
  intros n Hn _. unfold Utils.calculateRounds, calculateRounds.
  destruct (Nat.leb_spec n 1) as [Hle | Hgt].
  - replace n with 1 by lia. repeat split. intros r Hr. lia.
  - pose proof (Nat.log2_up_spec n Hgt) as [Hlo Hhi].
    split; [| split; [| reflexivity]].
    + pose proof (proj2 (iter_halve_pow (Nat.log2_up n) n) Hhi).
      pose proof (iter_halve_pos (Nat.log2_up n) n Hn). lia.
    + intros r Hr.
      destruct (Nat.le_gt_cases (Nat.iter r halve n) 1) as [Hc |]; [| assumption].
      apply iter_halve_pow in Hc.
      assert (2 ^ r <= 2 ^ Nat.pred (Nat.log2_up n))
        by (apply Nat.pow_le_mono_r; lia).
      lia.
Qed.

Lemma calculateRounds_halves_witness :
  Nat.iter (calculateRounds 3) halve 3 = 1
  /\ (forall r, r < calculateRounds 3 -> 1 < Nat.iter r halve 3)
  /\ Utils.calculateRounds 3 = calculateRounds 3.
Proof.
  exact (calculateRounds_halves Examples.threePlayers ltac:(simpl; lia)
           ltac:(simpl; lia)).
Defined.

End FieldSize.


(** ** The active round and the winner of a bracket *)

Section CurrentRound.
Import BracketLib.
Local Open Scope nat_scope.

Lemma insertNumber_In (n : nat) (l : list nat) (x : nat) :
  In x (insertNumber n l) <-> x = n \/ In x l.
Proof.
  induction l as [|y l IH]; simpl; [intuition congruence |].
  destruct (n <=? y); simpl; rewrite ?IH; intuition congruence.
Qed.

Lemma sortNumbers_In (l : list nat) (x : nat) : In x (sortNumbers l) <-> In x l.
Proof.
  induction l as [|y l IH]; [reflexivity |].
  change (sortNumbers (y :: l)) with (insertNumber y (sortNumbers l)).
  rewrite insertNumber_In, IH. simpl. intuition congruence.
Qed.

Lemma dedupe_In (l : list nat) (x : nat) : In x (dedupe l) <-> In x l.
Proof.
  induction l as [|y l IH]; [reflexivity |].
  cbn [dedupe In]. rewrite filter_In, IH.
  destruct (Nat.eqb_spec x y) as [-> | Hne]; simpl; intuition congruence.
Qed.

Lemma dedupe_NoDup (l : list nat) : List.NoDup (dedupe l).
Proof.
  induction l as [|y l IH]; cbn [dedupe]; constructor.
  - rewrite filter_In. intros [_ H]. rewrite Nat.eqb_refl in H. discriminate.
  - apply List.NoDup_filter. exact IH.
Qed.

Lemma insertNumber_sorted (n : nat) (l : list nat) :
  StronglySorted le l -> StronglySorted le (insertNumber n l).
Proof.
  induction 1 as [|y l Hs IH Hall]; simpl; [repeat constructor |].
  destruct (Nat.leb_spec n y) as [Hle | Hgt].
  - constructor; [constructor; assumption |].
    constructor; [exact Hle |].
    eapply List.Forall_impl; [| exact Hall]. intros; lia.
  - constructor; [exact IH |].
    apply List.Forall_forall. intros x Hx. apply insertNumber_In in Hx.
    destruct Hx as [-> | Hx]; [lia |].
    exact (proj1 (List.Forall_forall _ _) Hall x Hx).
Qed.

Lemma sortNumbers_sorted (l : list nat) : StronglySorted le (sortNumbers l).
Proof.
  induction l as [|y l IH]; [constructor |].
  apply insertNumber_sorted. exact IH.
Qed.

Lemma firstIncomplete_spec (matches : list Match.t) (rounds : list nat) :
  StronglySorted le rounds ->
  match firstIncomplete matches rounds with
  | Some round =>
      In round rounds /\ isRoundComplete matches round = false
      /\ forall r, In r rounds -> r < round -> isRoundComplete matches r = true
  | None => forall r, In r rounds -> isRoundComplete matches r = true
  end.
Proof.
  induction 1 as [|y l Hs IH Hall]; cbn [firstIncomplete]; [intros r [] |].
  destruct (isRoundComplete matches y) eqn:Hy; cbn [negb].
  - destruct (firstIncomplete matches l) as [round|].
    + destruct IH as (Hin & Hinc & Hlow).
      split; [right; exact Hin |]. split; [exact Hinc |].
      intros r [<- | Hr] Hlt; [exact Hy | exact (Hlow r Hr Hlt)].
    + intros r [<- | Hr]; [exact Hy | exact (IH r Hr)].
  - split; [left; reflexivity |]. split; [exact Hy |].
    intros r [<- | Hr] Hlt; [lia |].
    pose proof (proj1 (List.Forall_forall _ _) Hall r Hr). lia.
Qed.

Lemma foldr_max_spec (l : list nat) :
  (forall x, In x l -> x <= foldr Nat.max 0 l)
  /\ (l <> [] -> In (foldr Nat.max 0 l) l).
Proof.
  induction l as [|y l [IHle IHin]]; [split; [intros x [] | congruence] |].
  cbn [foldr]. split.
  - intros x [<- | Hx]; [lia |]. specialize (IHle x Hx). lia.
  - intros _. destruct l as [|z l]; [left; simpl; lia |].
    destruct (Nat.max_spec y (foldr Nat.max 0 (z :: l))) as [[_ ->] | [_ ->]].
    + right. apply IHin. congruence.
    + left. reflexivity.
Qed.

Lemma foldr_max_same (l l' : list nat) :
  l <> [] -> (forall x, In x l <-> In x l') ->
  foldr Nat.max 0 l = foldr Nat.max 0 l'.
Proof.
  intros Hne Hsame.
  assert (Hne' : l' <> []).
  { destruct l as [|x l]; [congruence |]. intros ->.
    exact (proj1 (Hsame x) (or_introl eq_refl)). }
  destruct (foldr_max_spec l) as [Hle Hin], (foldr_max_spec l') as [Hle' Hin'].
  apply Nat.le_antisymm.
  - apply Hle', Hsame, Hin, Hne.
  - apply Hle, Hsame, Hin', Hne'.
Qed.

Lemma roundsOf_In (matches : list Match.t) (r : nat) :
  In r (roundsOf matches) <-> In r (map Match.round_number matches).
Proof. unfold roundsOf. rewrite sortNumbers_In, dedupe_In. reflexivity. Qed.

(** X22.  [getCurrentRound] returns the lowest round of the bracket that is not
    complete, and the highest round when every round is complete: the
    result is a round that has matches, every lower round that has matches
    is complete, and when the result itself is complete it is the highest
    round and all rounds are complete.  Without matches it is 1. *)
Theorem getCurrentRound_first_incomplete (matches : list Match.t) :
  let round := getCurrentRound matches in
  let played r := In r (map Match.round_number matches) in
  (matches = [] -> round = 1)
  /\ (matches <> [] -> played round)
  /\ (forall r, played r -> r < round -> isRoundComplete matches r = true)
  /\ (isRoundComplete matches round = true ->
      round = maxRound matches
      /\ forall r, played r -> isRoundComplete matches r = true).
Proof.
  cbv zeta. destruct matches as [|m ms]; [repeat split; simpl; intuition discriminate |].
  set (matches := m :: ms).
  assert (Hne : roundsOf matches <> []).
  { intros Hnil.
    assert (Hin : In (Match.round_number m) (roundsOf matches))
      by (apply roundsOf_In; left; reflexivity).
    rewrite Hnil in Hin. exact Hin. }
  pose proof (firstIncomplete_spec matches (roundsOf matches)
                (sortNumbers_sorted _)) as Hspec.
  change (getCurrentRound matches)
    with (match firstIncomplete matches (roundsOf matches) with
          | Some round => round
          | None => foldr Nat.max 0 (roundsOf matches)
          end).
  destruct (firstIncomplete matches (roundsOf matches)) as [round|].
  - destruct Hspec as (Hin & Hinc & Hlow).
    split; [discriminate |]. split; [intros _; apply roundsOf_In, Hin |].
    split; [intros r Hr; apply Hlow, roundsOf_In, Hr |].
    intros Hc. congruence.
  - destruct (foldr_max_spec (roundsOf matches)) as [Hle Hin].
    split; [discriminate |]. split; [intros _; apply roundsOf_In, Hin, Hne |].
    split; [intros r Hr _; apply Hspec, roundsOf_In, Hr |].
    intros _. split; [| intros r Hr; apply Hspec, roundsOf_In, Hr].
    unfold maxRound. apply foldr_max_same; [exact Hne |].
    intros x. apply roundsOf_In.
Qed.

Lemma filter_head_find {A : Type} (p : A -> bool) (l : list A) :
  List.find p l = List.head (List.filter p l).
Proof.
  induction l as [|x l IH]; [reflexivity |].
  simpl. destruct (p x); [reflexivity | exact IH].
Qed.

(** X23.  [getBracketWinner] names a winner exactly when the highest round of the
    bracket holds one match only and that match has a non-empty
    [winner_id]; the winner is that [winner_id].  The highest round is then
    the round of that match, and every other match is of a lower round. *)
Theorem getBracketWinner_final (matches : list Match.t) (w : string) :
  getBracketWinner matches = Some w
  <-> exists finalMatch,
        List.filter (fun m => Match.round_number m =? maxRound matches) matches
        = [finalMatch]
        /\ Match.winner_id finalMatch = Some w /\ w <> EmptyString.
Proof.
  unfold getBracketWinner, isBracketComplete.
  rewrite filter_head_find.
  destruct matches as [|m ms].
  - simpl. split; [discriminate | intros (f & H & _); discriminate].
  - set (matches := m :: ms).
    destruct (List.filter (fun m => Match.round_number m =? maxRound matches) matches)
      as [|f [|g rest]].
    + split; [discriminate | intros (f & H & _); discriminate].
    + cbn [List.head]. destruct (Match.winner_id f) as [v|] eqn:Hv.
      * unfold Js.orNull, Js.truthyOpt. split.
        -- destruct v; cbn [Js.truthy]; [discriminate |].
           intros [= <-]. exists f. split; [reflexivity |]. split; [exact Hv | discriminate].
        -- intros (f' & [= <-] & Hw & Hne). rewrite Hv in Hw. injection Hw as ->.
           destruct w; [congruence | reflexivity].
      * split; [discriminate |]. intros (f' & [= <-] & Hw & _). congruence.
    + split; [discriminate | intros (f' & H & _); discriminate].
Qed.

End CurrentRound.


(** ** The dashboard's round advance against the bracket library *)

Section AdvanceAgainstLibrary.
Import BracketLib Director MatchRows.
Local Open Scope nat_scope.

Lemma sortByNumber_ordered (l : list Match.t) :
  inNumberOrder l -> sortByNumber l = l.
Proof.
  induction 1 as [|x l Hs IH Hall]; [reflexivity |].
  change (sortByNumber (x :: l)) with (insertByNumber x (sortByNumber l)).
  rewrite IH. destruct Hall as [|y l Hxy _]; [reflexivity |].
  simpl. destruct (Nat.leb_spec (Match.match_number x) (Match.match_number y));
    [reflexivity | lia].
Qed.

Lemma inNumberOrder_filter (p : Match.t -> bool) (l : list Match.t) :
  inNumberOrder l -> inNumberOrder (List.filter p l).
Proof.
  induction 1 as [|x l Hs IH Hall]; [constructor |].
  simpl. destruct (p x); [| exact IH].
  constructor; [exact IH |].
  apply List.Forall_forall. intros y Hy. apply filter_In in Hy.
  exact (proj1 (List.Forall_forall _ _) Hall y (proj1 Hy)).
Qed.

Lemma filter_hasWinnerIn (ms : list Match.t) (r : nat) :
  List.filter (hasWinnerIn r) ms
  = List.filter (fun m => Js.truthyOpt (Match.winner_id m))
      (List.filter (fun m => Match.round_number m =? r) ms).
Proof.
  induction ms as [|m ms IH]; [reflexivity |].
  cbn [List.filter]. unfold hasWinnerIn at 1.
  destruct (Match.round_number m =? r); cbn [andb List.filter];
    [destruct (Js.truthyOpt (Match.winner_id m)) |]; rewrite IH; reflexivity.
Qed.

Lemma winnersOf_filter (ms : list Match.t) :
  winnersOf ms
  = omap Match.winner_id
      (List.filter (fun m => Js.truthyOpt (Match.winner_id m)) ms).
Proof.
  induction ms as [|m ms IH]; [reflexivity |].
  change (winnersOf (m :: ms))
    with (match Js.orNull (Match.winner_id m) with
          | Some w => w :: winnersOf ms
          | None => winnersOf ms
          end).
  cbn [List.filter]. unfold Js.orNull.
  destruct (Js.truthyOpt (Match.winner_id m)) eqn:Hw; [| exact IH].
  destruct (Match.winner_id m) as [w|] eqn:Hm; [| discriminate].
  change (w :: winnersOf ms
          = match Match.winner_id m with
            | Some w' => w' :: omap Match.winner_id
                                 (List.filter (fun m => Js.truthyOpt (Match.winner_id m)) ms)
            | None => omap Match.winner_id
                        (List.filter (fun m => Js.truthyOpt (Match.winner_id m)) ms)
            end).
  rewrite Hm, IH. reflexivity.
Qed.

Lemma toBracketMatch_nextRoundRow (bracketId : string) (nextRound matchNumber : nat)
    (withTable : bool) (player1 : string) (player2 : option string) :
  toBracketMatch (nextRoundRow bracketId nextRound matchNumber withTable player1 player2)
  = nextRoundMatch nextRound matchNumber player1 player2.
Proof.
  destruct player2 as [[|c s]|]; reflexivity.
Qed.

Lemma pairUp_pairWinners (bracketId : string) (nextRound : nat) (withTable : bool)
    (ids : list string) :
  forall matchNumber,
    map toBracketMatch (pairUp bracketId nextRound matchNumber withTable ids)
    = pairWinners nextRound matchNumber ids.
Proof.
  induction ids as [| x | x y l IH] using pair_induction; intros n.
  - reflexivity.
  - cbn [pairUp pairWinners map]. rewrite toBracketMatch_nextRoundRow. reflexivity.
  - cbn [pairUp pairWinners map]. rewrite toBracketMatch_nextRoundRow, IH. reflexivity.
Qed.

Lemma pairUp_tables (bracketId : string) (nextRound : nat) (ids : list string) :
  Forall (fun s => Js.truthy s = true) ids ->
  forall matchNumber,
    omap Match.table_number (pairUp bracketId nextRound matchNumber true ids)
    = seq (S matchNumber) (length ids / 2).
Proof.
  induction ids as [| x | x y l IH] using pair_induction; intros Hall n.
  - reflexivity.
  - reflexivity.
  - apply Forall_cons in Hall as [_ Hall]. apply Forall_cons in Hall as [Hy Hall].
    cbn [pairUp].
    change (omap Match.table_number
              (nextRoundRow bracketId nextRound n true x (Some y)
               :: pairUp bracketId nextRound (S n) true l))
      with (match Match.table_number
                    (nextRoundRow bracketId nextRound n true x (Some y)) with
            | Some t => t :: omap Match.table_number
                               (pairUp bracketId nextRound (S n) true l)
            | None => omap Match.table_number
                        (pairUp bracketId nextRound (S n) true l)
            end).
    rewrite (IH Hall (S n)).
    destruct y as [|c s]; [discriminate |]. cbn [nextRoundRow Match.table_number].
    cbn [length].
    replace (S (S (length l))) with (length l + 1 * 2) by lia.
    rewrite Nat.div_add by lia.
    replace (length l / 2 + 1) with (S (length l / 2)) by lia. reflexivity.
Qed.

Lemma insertOrdered_In (m : Match.t) (l : list Match.t) (x : Match.t) :
  In x (insertOrdered m l) <-> x = m \/ In x l.
Proof.
  induction l as [|y l IH]; simpl; [intuition congruence |].
  destruct (rowBefore m y); simpl; rewrite ?IH; intuition congruence.
Qed.

Lemma rowBefore_spec (a b : Match.t) :
  rowBefore a b = true
  <-> Match.round_number a < Match.round_number b
      \/ (Match.round_number a = Match.round_number b
          /\ Match.match_number a <= Match.match_number b).
Proof.
  unfold rowBefore.
  rewrite orb_true_iff, andb_true_iff, Nat.ltb_lt, Nat.eqb_eq, Nat.leb_le.
  reflexivity.
Qed.

Lemma insertOrdered_sorted (m : Match.t) (l : list Match.t) :
  StronglySorted (fun a b => rowBefore a b = true) l ->
  StronglySorted (fun a b => rowBefore a b = true) (insertOrdered m l).
Proof.
  induction 1 as [|y l Hs IH Hall]; simpl; [repeat constructor |].
  destruct (rowBefore m y) eqn:Hmy.
  - constructor; [constructor; assumption |].
    constructor; [exact Hmy |].
    eapply List.Forall_impl; [| exact Hall]. intros z Hz.
    apply rowBefore_spec in Hmy, Hz. apply rowBefore_spec. lia.
  - constructor; [exact IH |].
    apply List.Forall_forall. intros x Hx. apply insertOrdered_In in Hx.
    destruct Hx as [-> | Hx]; [| exact (proj1 (List.Forall_forall _ _) Hall x Hx)].
    apply rowBefore_spec.
    assert (Hn : ~ (Match.round_number m < Match.round_number y
                    \/ (Match.round_number m = Match.round_number y
                        /\ Match.match_number m <= Match.match_number y)))
      by (rewrite <- rowBefore_spec; congruence).
    lia.
Qed.

(** The rows [loadData] reads, ordered by round and match number, are in
    match-number order within every round. *)
Lemma orderMatches_round_inNumberOrder (rows : list Match.t) (round : nat) :
  inNumberOrder
    (List.filter (fun m => Match.round_number m =? round) (orderMatches rows)).
Proof.
  assert (Hs : StronglySorted (fun a b => rowBefore a b = true) (orderMatches rows)).
  { induction rows as [|m rows IH]; [constructor |].
    apply insertOrdered_sorted. exact IH. }
  induction Hs as [|x l Hs IH Hall]; [constructor |].
  cbn [List.filter]. destruct (Nat.eqb_spec (Match.round_number x) round) as [Hx |];
    [| exact IH].
  constructor; [exact IH |].
  apply List.Forall_forall. intros y Hy. apply filter_In in Hy as [Hy Hr].
  apply Nat.eqb_eq in Hr.
  pose proof (proj1 (List.Forall_forall _ _) Hall y Hy) as Hb.
  apply rowBefore_spec in Hb. lia.
Qed.

Lemma newMainMatches_generateNextRoundMatches (mainB : BracketWithMatches) :
  inNumberOrder
    (List.filter (fun m => Match.round_number m =? current_round mainB)
       (matches mainB)) ->
  map toBracketMatch (newMainMatches mainB)
  = generateNextRoundMatches (matches mainB) (current_round mainB) 1.
Proof.
  intros Hord.
  unfold newMainMatches, generateNextRoundMatches, winnersInOrder.
  rewrite pairUp_pairWinners, winnersOf_filter, filter_hasWinnerIn.
  rewrite (sortByNumber_ordered _ (inNumberOrder_filter _ _ Hord)).
  reflexivity.
Qed.

(** X24.  The dashboard's [handleAdvanceRound] re-implements the library's
    [generateNextRoundMatches] and [getLosersFromRound].  On a main bracket
    whose current-round matches are in match-number order, as [loadData]
    reads them, the new main-bracket rows are, column by column, the
    matches the library generates from match number 1.  Their tables are
    not the library's: every new match that is played gets the table of its
    match number plus one, so the tables in use are 2, 3, ...  The losers
    sent to the consolation bracket are the library's when no match of the
    round is completed without a winner. *)
Theorem newMainMatches_as_library (mainB : BracketWithMatches) :
  let mainMatches :=
    List.filter (fun m => Match.round_number m =? current_round mainB)
      (matches mainB) in
  inNumberOrder mainMatches ->
  map toBracketMatch (newMainMatches mainB)
  = generateNextRoundMatches (matches mainB) (current_round mainB) 1
  /\ omap Match.table_number (newMainMatches mainB)
     = seq 2 (length (winnersOf mainMatches) / 2)
  /\ (forallb (fun m => negb (MatchStatus_eqb (Match.status m) completed)
                        || Js.truthyOpt (Match.winner_id m)) mainMatches = true ->
      losersOf mainMatches
      = getLosersFromRound (matches mainB) (current_round mainB)).
Proof.
  cbv zeta. intros Hord. split; [| split].
  - exact (newMainMatches_generateNextRoundMatches mainB Hord).
  - unfold newMainMatches. apply pairUp_tables.
    rewrite winnersOf_filter.
    generalize (List.filter (fun m => Match.round_number m =? current_round mainB)
                  (matches mainB)).
    intros l. induction l as [|m l IH]; [constructor |].
    cbn [List.filter]. destruct (Js.truthyOpt (Match.winner_id m)) eqn:Hw; [| exact IH].
    destruct (Match.winner_id m) as [w|] eqn:Hm; [| discriminate].
    change (Forall (fun s => Js.truthy s = true)
              (match Match.winner_id m with
               | Some w' => w' :: omap Match.winner_id
                                    (List.filter (fun m => Js.truthyOpt (Match.winner_id m)) l)
               | None => omap Match.winner_id
                           (List.filter (fun m => Js.truthyOpt (Match.winner_id m)) l)
               end)).
    rewrite Hm. constructor; [exact Hw | exact IH].
  - intros Hall. unfold losersOf, getLosersFromRound. f_equal.
    revert Hall. generalize (matches mainB). intros l.
    induction l as [|m l IH]; [reflexivity |].
    cbn [List.filter].
    destruct (Match.round_number m =? current_round mainB); [| exact IH].
    cbn [forallb List.filter andb]. intros Hall.
    apply andb_true_iff in Hall as [Hm Hall].
    destruct (MatchStatus_eqb (Match.status m) completed); cbn [andb negb orb] in *.
    + rewrite Hm, (IH Hall). reflexivity.
    + exact (IH Hall).
Qed.

Lemma newMainMatches_as_library_witness :
  map toBracketMatch (newMainMatches Examples.semisBracket)
  = generateNextRoundMatches (matches Examples.semisBracket) 1 1
  /\ omap Match.table_number (newMainMatches Examples.semisBracket) = [2].
Proof.
  destruct (newMainMatches_as_library Examples.semisBracket) as (H1 & H2 & _).
  - vm_compute. repeat constructor.
  - split; [exact H1 | exact H2].
Defined.

End AdvanceAgainstLibrary.

Section ReloadAgainstLibrary.
Import BracketLib Director MatchRows BracketRows.
Local Open Scope nat_scope.

Lemma withMatches_inNumberOrder (reads : Reads) (db : Store) (b : Bracket.t)
    (round : nat) :
  inNumberOrder
    (List.filter (fun m => Match.round_number m =? round)
       (matches (withMatches reads db b))).
Proof.
  cbn [withMatches matches].
  destruct (matchesRead reads (Bracket.id b)); [| constructor].
  apply orderMatches_round_inNumberOrder.
Qed.

(** X30.  The order the precondition of the comparison with the library
    asks for is the order [loadData] reads: on the main bracket of every
    division it loads, the next advance creates the very matches
    [generateNextRoundMatches] of the library generates for it.  So it is
    after a round advance in which every write was accepted, followed by
    a reload of a page that showed what the store held: the main bracket
    of the active division is then one round further, and the next
    advance on it is the library's. *)
Theorem handleAdvanceRound_then_as_library
    (st : State) (division : DivisionWithBrackets) (mainB : BracketWithMatches)
    (db : Store) :
  getActiveDivision st = Some division ->
  mainBracket division = Some mainB ->
  divisions st = map (loadDivision allRead db) (divisionRows db) ->
  activeTab st <> EmptyString ->
  (forall reads db0 row loaded,
     mainBracket (loadDivision reads db0 row) = Some loaded ->
     map toBracketMatch (newMainMatches loaded)
     = generateNextRoundMatches (matches loaded) (current_round loaded) 1)
  /\ exists division' advanced,
       getActiveDivision
         (loadData allRead (fst (handleAdvanceRound st allAccepted db)) st)
       = Some division'
       /\ mainBracket division' = Some advanced
       /\ current_round advanced = current_round mainB + 1
       /\ map toBracketMatch (newMainMatches advanced)
          = generateNextRoundMatches (matches advanced) (current_round advanced) 1.
Proof.
  intros Ha Hm Hsync Htab.
  assert (Hload : forall reads db0 row loaded,
            mainBracket (loadDivision reads db0 row) = Some loaded ->
            map toBracketMatch (newMainMatches loaded)
            = generateNextRoundMatches (matches loaded) (current_round loaded) 1).
  { intros reads db0 row loaded. unfold loadDivision. cbv zeta.
    rewrite foldl_attach_main. cbn [mainBracket].
    destruct (lastOfType main _) as [b|]; [| discriminate].
    intros [= <-]. apply newMainMatches_generateNextRoundMatches.
    apply withMatches_inNumberOrder. }
  split; [exact Hload |].
  destruct (reload_after_advance st division mainB db Ha Hm Hsync Htab)
    as (division' & advanced & Ha' & Hm' & _ & Hround & Hmatches).
  exists division', advanced.
  split; [exact Ha' |]. split; [exact Hm' |]. split; [exact Hround |].
  apply newMainMatches_generateNextRoundMatches.
  rewrite Hmatches. apply orderMatches_round_inNumberOrder.
Qed.

Lemma handleAdvanceRound_then_as_library_witness :
  exists division' advanced,
    getActiveDivision
      (loadData allRead
         (fst (handleAdvanceRound (Examples.firstLoad Examples.semisStore)
                 allAccepted Examples.semisStore))
         (Examples.firstLoad Examples.semisStore))
    = Some division'
    /\ mainBracket division' = Some advanced
    /\ current_round advanced = 2
    /\ map toBracketMatch (newMainMatches advanced)
       = generateNextRoundMatches (matches advanced) (current_round advanced) 1.
Proof.
  exact (proj2 (handleAdvanceRound_then_as_library
                  (Examples.firstLoad Examples.semisStore) Examples.decidedSemis
                  Examples.semisBracket Examples.semisStore
                  eq_refl eq_refl eq_refl ltac:(discriminate))).
Defined.

End ReloadAgainstLibrary.


(** ** Display helpers *)

Section PhoneNumbers.
Import Utils.
Local Open Scope nat_scope.

Lemma digitsOnly_allIn (s : string) : Js.allIn Js.isDigit (digitsOnly s) = true.
Proof.
  induction s as [|c s IH]; [reflexivity |].
  simpl. destruct (Js.isDigit c) eqn:Hc; [| exact IH].
  simpl. rewrite Hc, IH. reflexivity.
Qed.

Lemma digitsOnly_digit (c : ascii) (s : string) :
  Js.isDigit c = true -> digitsOnly (String c s) = String c (digitsOnly s).
Proof. intros H. cbn [digitsOnly]. rewrite H. reflexivity. Qed.

Lemma digitsOnly_other (c : ascii) (s : string) :
  Js.isDigit c = false -> digitsOnly (String c s) = digitsOnly s.
Proof. intros H. cbn [digitsOnly]. rewrite H. reflexivity. Qed.

(** What [formatPhoneNumber] returns is a function of the digits of the
    number, unless it returns the number itself. *)
Lemma formatPhoneNumber_of_digits (phone other : string) :
  digitsOnly other = digitsOnly phone ->
  formatPhoneNumber phone <> phone ->
  formatPhoneNumber other = formatPhoneNumber phone.
Proof.
  unfold formatPhoneNumber. cbv zeta. intros ->.
  destruct (String.length (digitsOnly phone) =? 10); [reflexivity |].
  destruct ((String.length (digitsOnly phone) =? 11) && _); [reflexivity |].
  congruence.
Qed.

Ltac digits_of_formatted :=
  cbv [append slice sliceFrom substring String.length Nat.sub];
  repeat first [ rewrite digitsOnly_digit by assumption
               | rewrite digitsOnly_other by reflexivity ];
  reflexivity.

(** X25.  [formatPhoneNumber] changes the punctuation of a number and never its
    digits; formatting a formatted number changes nothing; a number of ten
    digits comes out as 14 characters, one of eleven digits starting with
    1 as 17, and any other number comes out as it went in. *)
Theorem formatPhoneNumber_keeps_digits (phone : string) :
  digitsOnly (formatPhoneNumber phone) = digitsOnly phone
  /\ formatPhoneNumber (formatPhoneNumber phone) = formatPhoneNumber phone
  /\ (String.length (digitsOnly phone) = 10 ->
      String.length (formatPhoneNumber phone) = 14)
  /\ (String.length (digitsOnly phone) = 11 ->
      Js.startsWith (digitsOnly phone) "1" = true ->
      String.length (formatPhoneNumber phone) = 17)
  /\ (String.length (digitsOnly phone) <> 10 ->
      (String.length (digitsOnly phone) = 11 ->
       Js.startsWith (digitsOnly phone) "1" = false) ->
      formatPhoneNumber phone = phone).
Proof.
  pose proof (digitsOnly_allIn phone) as Hall.
  assert (Hidem : digitsOnly (formatPhoneNumber phone) = digitsOnly phone ->
                  formatPhoneNumber (formatPhoneNumber phone) = formatPhoneNumber phone).
  { intros Hd.
    destruct (string_dec (formatPhoneNumber phone) phone) as [Heq | Hne].
    - rewrite Heq. exact Heq.
    - exact (formatPhoneNumber_of_digits _ _ Hd Hne). }
  revert Hidem. generalize (formatPhoneNumber (formatPhoneNumber phone)).
  unfold formatPhoneNumber. cbv zeta.
  remember (digitsOnly phone) as cleaned eqn:Hc. intros twice Hidem.
  destruct (Nat.eqb_spec (String.length cleaned) 10) as [H10 | H10].
  - destruct cleaned
      as [|c0 [|c1 [|c2 [|c3 [|c4 [|c5 [|c6 [|c7 [|c8 [|c9 [|c10 rest]]]]]]]]]]];
      try discriminate H10.
    cbn [Js.allIn] in Hall.
    repeat (apply andb_true_iff in Hall as [?Hd Hall]).
    split; [digits_of_formatted |].
    split; [apply Hidem; digits_of_formatted |].
    split; [reflexivity |]. split; [discriminate |]. intros Hn; congruence.
  - destruct (Nat.eqb_spec (String.length cleaned) 11) as [H11 | H11].
    + destruct cleaned
        as [|c0 [|c1 [|c2 [|c3 [|c4 [|c5 [|c6 [|c7 [|c8 [|c9 [|c10 [|c11 rest]]]]]]]]]]]];
        try discriminate H11.
      cbn [Js.startsWith andb] in Hidem |- *.
      rewrite (Ascii.eqb_sym "1" c0), andb_true_r.
      destruct (Ascii.eqb_spec c0 "1") as [-> | Hne]; cbn [andb] in Hidem |- *.
      * cbn [Js.allIn] in Hall.
        repeat (apply andb_true_iff in Hall as [?Hd Hall]).
        split; [digits_of_formatted |].
        split; [apply Hidem; digits_of_formatted |].
        split; [discriminate |]. split; [reflexivity |]. intros _ Hn.
        discriminate (Hn eq_refl).
      * split; [symmetry; exact Hc |]. split; [exact (Hidem (eq_sym Hc)) |].
        split; [discriminate |]. split; [discriminate |]. reflexivity.
    + cbn [andb] in Hidem |- *.
      split; [symmetry; exact Hc |]. split; [exact (Hidem (eq_sym Hc)) |].
      split; [congruence |]. split; [congruence |]. reflexivity.
Qed.

End PhoneNumbers.


(** ** Addresses *)

Section EmailAddresses.
Import Utils Regex.
Local Open Scope nat_scope.

Lemma greedy_sound {A : Type} (p : ascii -> bool) (k : string -> option A)
    (s : string) (r : A) :
  greedy p s k = Some r ->
  exists a b, s = a +:+ b /\ Js.allIn p a = true /\ k b = Some r.
Proof.
  induction s as [|c s IH]; simpl.
  - intros H. exists EmptyString, EmptyString. auto.
  - destruct (p c) eqn:Hc.
    + destruct (greedy p s k) as [r'|] eqn:Hg.
      * intros [= <-]. destruct (IH eq_refl) as (a & b & -> & Ha & Hk).
        exists (String c a), b. simpl. rewrite Hc, Ha. auto.
      * intros H. exists EmptyString, (String c s). auto.
    + intros H. exists EmptyString, (String c s). auto.
Qed.

Lemma append_nil_r (s : string) : s +:+ EmptyString = s.
Proof.
  induction s as [|c s IH]; [reflexivity |].
  change (String c (s +:+ EmptyString) = String c s). rewrite IH. reflexivity.
Qed.

Lemma allIn_app (p : ascii -> bool) (a b : string) :
  Js.allIn p (a +:+ b) = Js.allIn p a && Js.allIn p b.
Proof.
  induction a as [|c a IH]; [reflexivity |].
  simpl. rewrite IH, andb_assoc. reflexivity.
Qed.

(** X26.  [isValidEmail] accepts exactly the texts of the form
    [local @ domain . tld] in which the three parts are non-empty and hold
    neither white space nor [@]; since a part may hold dots, the text as a
    whole then has no white space, and nothing else is checked. *)
Theorem isValidEmail_shape (email : string) :
  (isValidEmail email = true
   <-> exists local domain tld,
         email = local +:+ "@" +:+ domain +:+ "." +:+ tld
         /\ Js.runOf isAddressChar local = true
         /\ Js.runOf isAddressChar domain = true
         /\ Js.runOf isAddressChar tld = true)
  /\ (isValidEmail email = true ->
      Js.allIn (fun c => negb (Js.isSpace c)) email = true).
Proof.
  assert (Hshape :
    isValidEmail email = true
    <-> exists local domain tld,
          email = local +:+ "@" +:+ domain +:+ "." +:+ tld
          /\ Js.runOf isAddressChar local = true
          /\ Js.runOf isAddressChar domain = true
          /\ Js.runOf isAddressChar tld = true).
  { unfold isValidEmail, emailRegex, Js.runOf. split.
    - destruct (run _ email [] _) as [caps|] eqn:Hrun; [intros _ | discriminate].
      cbn [run] in Hrun.
      destruct email as [|c0 rest0]; [discriminate |].
      destruct (isAddressChar c0) eqn:Hc0; [| discriminate].
      apply greedy_sound in Hrun as (l & b1 & -> & Hl & Hrun).
      destruct b1 as [|at1 b1]; [discriminate |]. cbn [strip sameChar] in Hrun.
      destruct (Ascii.eqb_spec "@" at1) as [<- |]; [| discriminate].
      destruct b1 as [|c1 rest1]; [discriminate |].
      destruct (isAddressChar c1) eqn:Hc1; [| discriminate].
      apply greedy_sound in Hrun as (d & b2 & -> & Hd & Hrun).
      destruct b2 as [|dot b2]; [discriminate |]. cbn [strip sameChar] in Hrun.
      destruct (Ascii.eqb_spec "." dot) as [<- |]; [| discriminate].
      destruct b2 as [|c2 rest2]; [discriminate |].
      destruct (isAddressChar c2) eqn:Hc2; [| discriminate].
      apply greedy_sound in Hrun as (t & b3 & -> & Ht & Hrun).
      destruct b3; [| discriminate].
      exists (String c0 l), (String c1 d), (String c2 t).
      split; [| simpl; rewrite Hc0, Hc1, Hc2, Hl, Hd, Ht; auto].
      rewrite append_nil_r. reflexivity.
    - intros (l & d & t & -> & Hl & Hd & Ht).
      destruct l as [|c0 l]; [discriminate |].
      destruct d as [|c1 d]; [discriminate |].
      destruct t as [|c2 t]; [discriminate |].
      simpl in Hl, Hd, Ht.
      apply andb_true_iff in Hl as [Hc0 Hl].
      apply andb_true_iff in Hd as [Hc1 Hd].
      apply andb_true_iff in Ht as [Hc2 Ht].
      enough (Hsome : is_Some
                (run (Seq (Plus isAddressChar)
                        (Seq (Lit false "@")
                           (Seq (Plus isAddressChar)
                              (Seq (Lit false ".") (Plus isAddressChar)))))
                   (String c0 l +:+ "@" +:+ String c1 d +:+ "." +:+ String c2 t) []
                   (fun rest caps =>
                      match rest with
                      | EmptyString => Some caps
                      | String _ _ => None
                      end)))
        by (destruct Hsome as [caps ->]; reflexivity).
      change (String c0 l +:+ "@" +:+ String c1 d +:+ "." +:+ String c2 t)
        with (String c0 (l +:+ String "@" (String c1 (d +:+ String "." (String c2 t))))).
      cbn [run]. rewrite Hc0.
      apply greedy_finds; [exact Hl |].
      cbn -[isAddressChar]. rewrite Hc1.
      apply greedy_finds; [exact Hd |].
      cbn -[isAddressChar]. rewrite Hc2.
      rewrite <- (append_nil_r t).
      apply greedy_finds; [exact Ht | eauto]. }
  split; [exact Hshape |].
  intros Hv. apply Hshape in Hv as (l & d & t & -> & Hl & Hd & Ht).
  unfold Js.runOf in *.
  apply andb_true_iff in Hl as [_ Hl].
  apply andb_true_iff in Hd as [_ Hd].
  apply andb_true_iff in Ht as [_ Ht].
  assert (Hns : forall s, Js.allIn isAddressChar s = true ->
                  Js.allIn (fun c => negb (Js.isSpace c)) s = true).
  { induction s as [|c s IH]; [reflexivity |]. simpl.
    intros H. apply andb_true_iff in H as [Hc Hs].
    unfold isAddressChar in Hc. apply negb_true_iff, orb_false_iff in Hc as [Hc _].
    rewrite Hc, (IH Hs). reflexivity. }
  rewrite !allIn_app, (Hns l Hl), (Hns d Hd), (Hns t Ht). reflexivity.
Qed.

End EmailAddresses.


(** ** The reply markup *)

Section ReplyMarkup.
Import Twilio.
Local Open Scope nat_scope.

Lemma append_assoc (a b c : string) : (a +:+ b) +:+ c = a +:+ (b +:+ c).
Proof.
  induction a as [|x a IH]; [reflexivity |].
  change (String x ((a +:+ b) +:+ c) = String x (a +:+ (b +:+ c))).
  rewrite IH. reflexivity.
Qed.

Lemma replaceAll_app (c : ascii) (replacement a b : string) :
  replaceAll c replacement (a +:+ b)
  = replaceAll c replacement a +:+ replaceAll c replacement b.
Proof.
  induction a as [|x a IH]; [reflexivity |].
  change (replaceAll c replacement (String x (a +:+ b))
          = replaceAll c replacement (String x a) +:+ replaceAll c replacement b).
  cbn [replaceAll]. rewrite IH. destruct (Ascii.eqb x c).
  - rewrite append_assoc. reflexivity.
  - reflexivity.
Qed.

Lemma escapeXml_app (a b : string) :
  escapeXml (a +:+ b) = escapeXml a +:+ escapeXml b.
Proof. unfold escapeXml. rewrite !replaceAll_app. reflexivity. Qed.

(** The characters [escapeXml] rewrites. *)
Lemma escapeXml_char (c : ascii) :
  escapeXml (String c EmptyString)
  = if Ascii.eqb c "&" then "&amp;"
    else if Ascii.eqb c "<" then "&lt;"
    else if Ascii.eqb c ">" then "&gt;"
    else if Ascii.eqb c doubleQuote then "&quot;"
    else if Ascii.eqb c "'" then "&apos;"
    else String c EmptyString.
Proof.
  destruct (Ascii.eqb_spec c "&") as [-> | H1]; [reflexivity |].
  destruct (Ascii.eqb_spec c "<") as [-> | H2]; [reflexivity |].
  destruct (Ascii.eqb_spec c ">") as [-> | H3]; [reflexivity |].
  destruct (Ascii.eqb_spec c doubleQuote) as [-> | H4]; [reflexivity |].
  destruct (Ascii.eqb_spec c "'") as [-> | H5]; [reflexivity |].
  apply Ascii.eqb_neq in H1, H2, H3, H4, H5.
  unfold escapeXml. cbn [replaceAll].
  rewrite H1. cbn [replaceAll]. rewrite H2. cbn [replaceAll]. rewrite H3.
  cbn [replaceAll]. rewrite H4. cbn [replaceAll]. rewrite H5. reflexivity.
Qed.

Lemma escapeXml_cons (c : ascii) (s : string) :
  escapeXml (String c s) = escapeXml (String c EmptyString) +:+ escapeXml s.
Proof. exact (escapeXml_app (String c EmptyString) s). Qed.

Lemma length_append (a b : string) :
  String.length (a +:+ b) = String.length a + String.length b.
Proof.
  induction a as [|x a IH]; [reflexivity |].
  change (S (String.length (a +:+ b)) = S (String.length a + String.length b)).
  rewrite IH. reflexivity.
Qed.

Lemma append_inj_r (a b s : string) : a +:+ s = b +:+ s -> a = b.
Proof.
  revert b. induction a as [|x a IH]; intros [|y b] H.
  - reflexivity.
  - apply (f_equal String.length) in H. rewrite !length_append in H.
    cbn [String.length] in H. lia.
  - apply (f_equal String.length) in H. rewrite !length_append in H.
    cbn [String.length] in H. lia.
  - change (String x (a +:+ s) = String y (b +:+ s)) in H.
    injection H as -> H. rewrite (IH b H). reflexivity.
Qed.

Lemma escapeXml_inj (a : string) : forall b, escapeXml a = escapeXml b -> a = b.
Proof.
  induction a as [|x a IH]; intros [|y b].
  - reflexivity.
  - rewrite escapeXml_cons, escapeXml_char.
    repeat (destruct (Ascii.eqb y _)); discriminate.
  - rewrite escapeXml_cons, escapeXml_char.
    repeat (destruct (Ascii.eqb x _)); discriminate.
  - rewrite (escapeXml_cons x), (escapeXml_cons y), !escapeXml_char.
    destruct (Ascii.eqb_spec x "&") as [-> | Hx1];
    [| destruct (Ascii.eqb_spec x "<") as [-> | Hx2];
       [| destruct (Ascii.eqb_spec x ">") as [-> | Hx3];
          [| destruct (Ascii.eqb_spec x doubleQuote) as [-> | Hx4];
             [| destruct (Ascii.eqb_spec x "'") as [-> | Hx5]]]]];
    (destruct (Ascii.eqb_spec y "&") as [-> | Hy1];
     [| destruct (Ascii.eqb_spec y "<") as [-> | Hy2];
        [| destruct (Ascii.eqb_spec y ">") as [-> | Hy3];
           [| destruct (Ascii.eqb_spec y doubleQuote) as [-> | Hy4];
              [| destruct (Ascii.eqb_spec y "'") as [-> | Hy5]]]]]);
    intros H; cbv [append] in H; try discriminate H;
    try (injection H as H; rewrite (IH b H); reflexivity);
    try (injection H as -> H; rewrite (IH b H); reflexivity);
    try (injection H as Hc _; congruence).
Qed.

Lemma escapeXml_no_markup (s : string) :
  Js.allIn (fun c => negb (markup c)) (escapeXml s) = true.
Proof.
  induction s as [|c s IH]; [reflexivity |].
  rewrite escapeXml_cons, escapeXml_char.
  destruct (Ascii.eqb_spec c "&") as [-> | H1]; [exact IH |].
  destruct (Ascii.eqb_spec c "<") as [-> | H2]; [exact IH |].
  destruct (Ascii.eqb_spec c ">") as [-> | H3]; [exact IH |].
  destruct (Ascii.eqb_spec c doubleQuote) as [-> | H4]; [exact IH |].
  destruct (Ascii.eqb_spec c "'") as [-> | H5]; [exact IH |].
  change (negb (markup c) && Js.allIn (fun c => negb (markup c)) (escapeXml s) = true).
  rewrite IH. unfold markup.
  apply Ascii.eqb_neq in H2, H3, H4, H5. rewrite H2, H3, H4, H5. reflexivity.
Qed.

(** X27.  [escapeXml] leaves none of the characters [<], [>], the double quote
    and the apostrophe in its result, so a message cannot open or close
    markup of the reply; it works character by character, so escaping a
    concatenation is concatenating the escapes; and it loses nothing:
    different messages have different escapes and different replies. *)
Theorem escapeXml_safe (text : string) :
  Js.allIn (fun c => negb (markup c)) (escapeXml text) = true
  /\ (forall other,
        escapeXml (text +:+ other) = escapeXml text +:+ escapeXml other)
  /\ (forall other, escapeXml text = escapeXml other -> text = other)
  /\ (forall other, twimlResponse text = twimlResponse other -> text = other).
Proof.
  split; [apply escapeXml_no_markup |].
  split; [intros other; apply escapeXml_app |].
  split; [apply escapeXml_inj |].
  intros other H. unfold twimlResponse in H.
  repeat (apply String.app_inj in H).
  apply escapeXml_inj. exact (append_inj_r _ _ _ H).
Qed.

End ReplyMarkup.


(** ** The results page against the bracket library *)

Section Results.
Import BracketLib ResultsPage.
Local Open Scope nat_scope.

Lemma find_map_row (round : nat) (matches : list MatchWithPlayers) :
  option_map row
    (List.find (fun m => Match.round_number (row m) =? round) matches)
  = List.find (fun m => Match.round_number m =? round) (map row matches).
Proof.
  induction matches as [|m ms IH]; [reflexivity |].
  simpl. destruct (Match.round_number (row m) =? round); [reflexivity | exact IH].
Qed.

(** X28.  The results page and the library name the same winner of a complete
    bracket, and the page names one earlier: it takes the first match of
    the highest round and asks for nothing but a winner of that match,
    where the library also wants that match to be the only one of its
    round.  So while the highest round still has other matches, the page
    shows the winner of its first match as the winner of the division and
    the library has none. *)
Theorem results_winner_and_library (matches : list MatchWithPlayers) :
  let rows := map row matches in
  Forall joined matches ->
  Forall (fun m => Match.winner_id (row m) = Match.player1_id (row m)
                   \/ Match.winner_id (row m) = Match.player2_id (row m)
                   \/ Match.winner_id (row m) = None) matches ->
  (isBracketComplete rows = true ->
   Sms.playerId (winner matches) = getBracketWinner rows)
  /\ (forall w, getBracketWinner rows = Some w ->
                Sms.playerId (winner matches) = Some w)
  /\ (forall m, finalMatch matches = Some m ->
        Js.truthyOpt (Match.winner_id (row m)) = true ->
        Sms.playerId (winner matches) = Match.winner_id (row m)
        /\ (2 <= length (List.filter
                           (fun x => Match.round_number x =? maxRound rows) rows) ->
            getBracketWinner rows = None)).
Proof.
  cbv zeta. intros Hjoin Hside.
  assert (Hwin : forall m, finalMatch matches = Some m ->
            Js.truthyOpt (Match.winner_id (row m)) = true ->
            Sms.playerId (winner matches) = Match.winner_id (row m)).
  { intros m Hm Hw. unfold winner. rewrite Hm, Hw.
    assert (Hin : In m matches) by (exact (proj1 (find_some _ _ Hm))).
    pose proof (proj1 (List.Forall_forall _ _) Hjoin m Hin) as [Hj1 Hj2].
    pose proof (proj1 (List.Forall_forall _ _) Hside m Hin) as Hs.
    unfold wonByPlayer1.
    destruct (Match.winner_id (row m)) as [w|] eqn:Hwid; [| discriminate].
    destruct (Match.player1_id (row m)) as [p1|] eqn:Hp1; cbn [optStringEqb].
    - destruct (String.eqb_spec w p1) as [-> | Hne]; [exact Hj1 |].
      rewrite Hj2. destruct Hs as [Hs | [Hs | Hs]]; congruence.
    - rewrite Hj2. destruct Hs as [Hs | [Hs | Hs]]; congruence. }
  assert (Hcomplete : isBracketComplete (map row matches) = true ->
            Sms.playerId (winner matches) = getBracketWinner (map row matches)).
  { intros Hc. unfold getBracketWinner. rewrite Hc.
    rewrite <- find_map_row. fold (finalMatch matches).
    destruct (finalMatch matches) as [m|] eqn:Hm.
    - cbn [option_map]. unfold Js.orNull.
      destruct (Js.truthyOpt (Match.winner_id (row m))) eqn:Hw.
      + exact (Hwin m eq_refl Hw).
      + unfold winner. rewrite Hm, Hw. reflexivity.
    - unfold winner. rewrite Hm. reflexivity. }
  split; [exact Hcomplete |]. split.
  - intros w Hw. rewrite <- Hw. apply Hcomplete.
    unfold getBracketWinner in Hw.
    destruct (isBracketComplete (map row matches)); [reflexivity | discriminate].
  - intros m Hm Hw. split; [exact (Hwin m Hm Hw) |].
    intros Hlen. unfold getBracketWinner, isBracketComplete.
    destruct (map row matches) as [|x xs]; [reflexivity |].
    destruct (List.filter _ (x :: xs)) as [|f [|g rest]];
      [reflexivity | simpl in Hlen; lia | reflexivity].
Qed.

Lemma results_winner_and_library_witness :
  Sms.playerId (winner Examples.semisUnderway) = Some "id-Ann"
  /\ getBracketWinner (map row Examples.semisUnderway) = None.
Proof.
  destruct (results_winner_and_library Examples.semisUnderway) as (_ & _ & H).
  - repeat constructor.
  - constructor; [left; reflexivity |].
    constructor; [right; right; reflexivity | constructor].
  - destruct (H _ eq_refl eq_refl) as [H1 H2].
    split; [exact H1 | apply H2; simpl; lia].
Defined.

End Results.


(** ** The bracket view *)

Section Grouping.
Import BracketLib BracketDisplay.
Local Open Scope nat_scope.

(** What the grouping loop has put under round [r] after the matches [l],
    starting from [acc]. *)
Lemma foldl_addToRound (l : list Match.t) :
  forall (acc : gmap nat (list Match.t)) (r : nat),
    foldl addToRound acc l !! r
    = match List.filter (fun m => Match.round_number m =? r) l with
      | [] => acc !! r
      | g => Some (match acc !! r with Some a => a | None => [] end ++ g)
      end.
Proof.
  induction l as [|m l IH]; intros acc r; [reflexivity |].
  cbn [foldl List.filter]. rewrite IH. unfold addToRound.
  destruct (Nat.eqb_spec (Match.round_number m) r) as [-> | Hne].
  - rewrite lookup_insert_eq.
    destruct (List.filter _ l) as [|x g].
    + reflexivity.
    + rewrite <- app_assoc. reflexivity.
  - rewrite lookup_insert_ne by exact Hne. reflexivity.
Qed.

Lemma roundsData_lookup (matches : list Match.t) (r : nat) :
  roundsData matches !! r
  = match List.filter (fun m => Match.round_number m =? r) matches with
    | [] => None
    | g => Some (sortByNumber g)
    end.
Proof.
  unfold roundsData. rewrite lookup_fmap, foldl_addToRound, lookup_empty.
  destruct (List.filter _ matches); reflexivity.
Qed.

Lemma roundNumbers_In (matches : list Match.t) (r : nat) :
  In r (roundNumbers matches) <-> In r (map Match.round_number matches).
Proof.
  unfold roundNumbers. rewrite sortNumbers_In, in_map_iff. split.
  - intros ([k g] & <- & Hin). apply list_elem_of_In, elem_of_map_to_list in Hin.
    rewrite roundsData_lookup in Hin.
    destruct (List.filter _ matches) as [|x l] eqn:Hf; [discriminate |].
    assert (Hx : In x (List.filter (fun m => Match.round_number m =? k) matches))
      by (rewrite Hf; left; reflexivity).
    apply filter_In in Hx as [Hx Hr]. apply Nat.eqb_eq in Hr.
    apply in_map_iff. exists x. split; [exact Hr | exact Hx].
  - intros Hin. apply in_map_iff in Hin as (x & Hr & Hx).
    assert (Hf : In x (List.filter (fun m => Match.round_number m =? r) matches))
      by (apply filter_In; split; [exact Hx | apply Nat.eqb_eq, Hr]).
    destruct (List.filter (fun m => Match.round_number m =? r) matches)
      as [|y l] eqn:Hfy; [destruct Hf |].
    exists (r, sortByNumber (y :: l)). split; [reflexivity |].
    apply list_elem_of_In, elem_of_map_to_list.
    rewrite roundsData_lookup, Hfy. reflexivity.
Qed.

Lemma insertNumber_Permutation (n : nat) (l : list nat) :
  insertNumber n l ≡ₚ n :: l.
Proof.
  induction l as [|x l IH]; [reflexivity |].
  simpl. destruct (n <=? x); [reflexivity |].
  rewrite IH. apply Permutation_swap.
Qed.

Lemma sortNumbers_Permutation (l : list nat) : sortNumbers l ≡ₚ l.
Proof.
  induction l as [|x l IH]; [reflexivity |].
  change (sortNumbers (x :: l)) with (insertNumber x (sortNumbers l)).
  rewrite insertNumber_Permutation, IH. reflexivity.
Qed.

Lemma sorted_NoDup_strict (l : list nat) :
  StronglySorted le l -> List.NoDup l -> StronglySorted lt l.
Proof.
  induction 1 as [|x l Hs IH Hall]; intros Hnd; [constructor |].
  apply List.NoDup_cons_iff in Hnd as [Hx Hnd].
  constructor; [exact (IH Hnd) |].
  apply List.Forall_forall. intros y Hy.
  pose proof (proj1 (List.Forall_forall _ _) Hall y Hy).
  assert (x <> y) by (intros ->; exact (Hx Hy)). lia.
Qed.

Lemma strictly_sorted_unique (l : list nat) :
  forall l', StronglySorted lt l -> StronglySorted lt l' ->
    (forall x, In x l <-> In x l') -> l = l'.
Proof.
  induction l as [|x l IH]; intros [|y l'] Hs Hs' Hsame.
  - reflexivity.
  - destruct (proj2 (Hsame y) (or_introl eq_refl)).
  - destruct (proj1 (Hsame x) (or_introl eq_refl)).
  - apply StronglySorted_inv in Hs as [Hs Hall].
    apply StronglySorted_inv in Hs' as [Hs' Hall'].
    pose proof (proj1 (List.Forall_forall _ _) Hall) as Hlt.
    pose proof (proj1 (List.Forall_forall _ _) Hall') as Hlt'.
    assert (Hxy : x = y).
    { destruct (proj1 (Hsame x) (or_introl eq_refl)) as [-> | Hx]; [reflexivity |].
      destruct (proj2 (Hsame y) (or_introl eq_refl)) as [-> | Hy]; [reflexivity |].
      specialize (Hlt y Hy). specialize (Hlt' x Hx). lia. }
    subst y. f_equal. apply IH; [exact Hs | exact Hs' |].
    intros z. split; intros Hz.
    + destruct (proj1 (Hsame z) (or_intror Hz)) as [Heq | H]; [| exact H].
      specialize (Hlt z Hz). lia.
    + destruct (proj2 (Hsame z) (or_intror Hz)) as [Heq | H]; [| exact H].
      specialize (Hlt' z Hz). lia.
Qed.

(** X29.  [BracketDisplay] shows every match once, under its round: the column
    of round [r] holds the matches of round [r] in match-number order, and
    there is no column for a round without matches.  The columns are the
    rounds [getCurrentRound] of the library walks through, in the same
    ascending order, and "of N" in the header is the highest round. *)
Theorem roundsData_groups (matches : list Match.t) :
  (forall r,
     roundsData matches !! r
     = match List.filter (fun m => Match.round_number m =? r) matches with
       | [] => None
       | g => Some (sortByNumber g)
       end)
  /\ roundNumbers matches = roundsOf matches
  /\ BracketDisplay.maxRound matches = BracketLib.maxRound matches.
Proof.
  split; [intros r; apply roundsData_lookup |].
  assert (Hrounds : roundNumbers matches = roundsOf matches).
  { apply strictly_sorted_unique.
    - apply sorted_NoDup_strict; [apply sortNumbers_sorted |].
      unfold roundNumbers. rewrite sortNumbers_Permutation.
      apply NoDup_ListNoDup, NoDup_fst_map_to_list.
    - apply sorted_NoDup_strict; [apply sortNumbers_sorted |].
      unfold roundsOf. rewrite sortNumbers_Permutation. apply dedupe_NoDup.
    - intros x. rewrite roundNumbers_In, roundsOf_In. reflexivity. }
  split; [exact Hrounds |].
  unfold BracketDisplay.maxRound, BracketLib.maxRound. rewrite Hrounds.
  rewrite foldr_app. cbn [foldr].
  destruct matches as [|m ms]; [reflexivity |].
  apply foldr_max_same.
  - intros Hnil.
    assert (Hin : In (Match.round_number m) (roundsOf (m :: ms)))
      by (apply roundsOf_In; left; reflexivity).
    rewrite Hnil in Hin. exact Hin.
  - intros x. apply roundsOf_In.
Qed.

End Grouping.
